(** * Mood-based song recommendation: the estimator, the scorer, the
      collector, the ranker and the mock fallback of [generateSongs]

    A shallow embedding of the recommendation module (the file that exports
    [generateSongs] and [calculateMoodScore]) and the properties its
    specification states about it.

    Numbers.  A JavaScript number is an IEEE 754 binary64 value, here a
    primitive float of the kernel ([float], with the operations of
    [PrimFloat]); everything the module computes with numbers is computed on
    them.  The arithmetic of [estimateFeaturesFromGenres] and of
    [calculateMoodScore] is written over an interface [Number] with two
    instances: [binary64_Number], which is the arithmetic the code runs, and
    [Q_Number], exact rationals, the reading of the specification's worked
    example ("a real number"), used for nothing else.  What is proved of the
    binary64 values is proved from the specification of the primitive
    operations ([Prim2SF], [SFadd] and the like): the exact value of a double
    is a rational number, and an operation returns the rounding of the exact
    result.

    Arrays.  A JavaScript array holds fewer than 2^32 elements; a list that
    stands for an array is assumed to, where its length is turned into a
    number.

    Strings are byte strings (a genre is read as its UTF-8 bytes).
    [toLowerCase] lowers the ASCII letters and the two characters outside
    ASCII whose lower case holds an ASCII letter (U+212A, U+0130) and keeps
    every other byte: the preset keywords are ASCII and lower-case, so this
    decides the same matches as the language does.

    Objects.  A field that the code reads through [?.] or guards with [||] is
    an [option]; the other fields are present, as in the track and artist
    objects of the catalog service.  A run of [generateSongs] is a value: how
    the returned promise settles, and the list of requests issued. *)

From Stdlib Require Import QArith ZArith String Ascii List Lia Lqa Qround Qabs.
From Stdlib Require Import Qpower DecimalString DecimalPos DecimalZ.
From Stdlib Require Import Sorted Permutation.
From Stdlib Require Import Floats.Floats Numbers.Cyclic.Int63.Uint63.
From stdpp Require Import base option list sorting gmap strings.

Set Warnings "-inexact-float".
Local Open Scope string_scope.
Local Open Scope list_scope.

(* ------------------------------------------------------------------------- *)
(** ** The exact value of a double

    A finite double is [m * 2^e] for integers [m] and [e]; [Prim2SF] gives
    the sign, [m] and [e]. *)

Definition bpow (e : Z) : Q := (2 ^ e)%Q.

Definition F2Q (m e : Z) : Q := (inject_Z m * bpow e)%Q.

Definition signed (s : bool) (m : positive) : Z :=
  if s then Z.neg m else Z.pos m.

Definition SF2Q (x : spec_float) : Q :=
  match x with
  | S754_finite s m e => F2Q (signed s m) e
  | _ => 0%Q
  end.

(** Neither an infinity nor NaN. *)
Definition SFfinite (x : spec_float) : bool :=
  match x with
  | S754_zero _ | S754_finite _ _ _ => true
  | _ => false
  end.

(** A rational number that some double has as its value, up to the range:
    a mantissa of at most 53 bits at an exponent from -1074 on. *)
Definition representable (q : Q) : Prop :=
  exists m e, (Z.abs m <= 2 ^ 53)%Z /\ (-1074 <= e)%Z /\ (q == F2Q m e)%Q.

(** The real number [x] is [m * 2^e] exactly, or lies strictly between
    [m * 2^e] and [(m + 1) * 2^e]: what a mantissa, an exponent and a
    location say of a number to be rounded. *)
Definition inbetween (m e : Z) (l : location) (x : Q) : Prop :=
  match l with
  | loc_Exact => (x == F2Q m e)%Q
  | loc_Inexact _ => (F2Q m e < x /\ x < F2Q (m + 1) e)%Q
  end.

(** [k] shifts to the right: the mantissa is halved [k] times, and the two
    flags are raised only when bits were lost or were raised before. *)
Definition shr_step (k : Z) (r0 r1 : shr_record) : Prop :=
  (0 <= shr_m r1)%Z /\ shr_m r1 = (shr_m r0 / 2 ^ k)%Z /\
  (orb (shr_r r1) (shr_s r1) = true ->
   orb (shr_r r0) (shr_s r0) = true \/ (shr_m r0 mod 2 ^ k)%Z <> 0%Z).

(** What [binary_round_aux] does after the first truncation and the
    rounding of the mantissa. *)
Definition finish (m2 e1 : Z) : spec_float :=
  let '(mrs'', e'') := shr_fexp prec emax m2 e1 loc_Exact in
  match shr_m mrs'' with
  | Z0 => S754_zero false
  | Zpos m =>
      if (e'' <=? emax - prec)%Z then S754_finite false m e''
      else S754_infinity false
  | Zneg _ => S754_nan
  end.

(** [r] is at most [b], and [r] is at least [a], the infinities included. *)
Definition SFle_Q (r : spec_float) (b : Q) : Prop :=
  match r with
  | S754_nan => False
  | S754_infinity s => s = true
  | _ => (SF2Q r <= b)%Q
  end.

Definition SFge_Q (r : spec_float) (a : Q) : Prop :=
  match r with
  | S754_nan => False
  | S754_infinity s => s = false
  | _ => (a <= SF2Q r)%Q
  end.

(** [r] is a rounding of the real number [x]: a double that no representable
    number separates from [x]. *)
Definition rounds_to (x : Q) (r : spec_float) : Prop :=
  valid_binary r = true /\
  (forall b, representable b -> (x <= b)%Q -> (b < bpow 1024)%Q ->
             SFle_Q r b) /\
  (forall a, representable a -> (a <= x)%Q -> (- bpow 1024 < a)%Q ->
             SFge_Q r a).

Definition SFis_nan (x : spec_float) : bool :=
  match x with S754_nan => true | _ => false end.

(** The least positive double, 2^-1074. *)
Definition tiny : Q := F2Q 1 (-1074).

(* ------------------------------------------------------------------------- *)
(** ** Numbers *)

Class Number (N : Type) := {
  (** the value of a decimal literal of the source, such as [0.85] *)
  num_lit : Q -> N;
  (** the value of an integer counter, such as [matches] *)
  num_of_nat : nat -> N;
  num_add : N -> N -> N;
  num_sub : N -> N -> N;
  num_div : N -> N -> N;
  (** [Math.abs] *)
  num_abs : N -> N
}.

#[export] Instance Q_Number : Number Q := {|
  num_lit q := q;
  num_of_nat n := inject_Z (Z.of_nat n);
  num_add := Qplus;
  num_sub := Qminus;
  num_div := Qdiv;
  num_abs := Qabs
|}.

Module Binary64.

(** A non-negative integer below 2^53 as a double (exact). *)
Definition of_pos_Z (z : Z) : float := PrimFloat.of_uint63 (Uint63.of_Z z).

Definition of_Z (z : Z) : float :=
  if (z <? 0)%Z then PrimFloat.opp (of_pos_Z (- z)) else of_pos_Z z.

(** A decimal literal [n/10^k] denotes the double nearest to it, which is
    the correctly rounded quotient of the two integers. *)
Definition literal (q : Q) : float :=
  PrimFloat.div (of_Z (Qnum q)) (of_pos_Z (Zpos (Qden q))).

(** The double nearest to [m * 2^e]. *)
Definition of_dyadic (m e : Z) : float :=
  SF2Prim (binary_normalize prec emax m e false).

(** The exact value of a finite double (0 for the others). *)
Definition value (x : float) : Q := SF2Q (Prim2SF x).

Definition finite (x : float) : bool := SFfinite (Prim2SF x).

End Binary64.

#[export] Instance binary64_Number : Number float := {|
  num_lit := Binary64.literal;
  num_of_nat n := Binary64.of_pos_Z (Z.of_nat n);
  num_add := PrimFloat.add;
  num_sub := PrimFloat.sub;
  num_div := PrimFloat.div;
  num_abs := PrimFloat.abs
|}.

(* ------------------------------------------------------------------------- *)
(** ** Mood / feature helpers *)

(** The shape [{ energy, danceability, valence }], shared by the feature
    vectors and by the mood settings. *)
Record Features (N : Type) := mkFeatures {
  energy : N;
  danceability : N;
  valence : N
}.
Arguments mkFeatures {N} _ _ _.
Arguments energy {N} _.
Arguments danceability {N} _.
Arguments valence {N} _.

Definition MoodSettings := Features.

Record Preset (N : Type) := mkPreset {
  keywords : list string;
  preset_energy : N;
  preset_danceability : N;
  preset_valence : N
}.
Arguments mkPreset {N} _ _ _ _.
Arguments keywords {N} _.
Arguments preset_energy {N} _.
Arguments preset_danceability {N} _.
Arguments preset_valence {N} _.

Section Estimation.
Context {N : Type} `{Number N}.

Definition preset (kws : list string) (e d v : Q) : Preset N :=
  mkPreset kws (num_lit e) (num_lit d) (num_lit v).

Definition GENRE_PRESETS : list (Preset N) :=
  [ preset ["edm"; "electro"; "house"; "techno"; "trance"; "dubstep"]
      0.9 0.8 0.6;
    preset ["dance pop"; "pop"; "k-pop"; "electropop"] 0.8 0.85 0.8;
    preset ["hip hop"; "rap"; "trap"] 0.8 0.9 0.6;
    preset ["r&b"; "soul"] 0.6 0.7 0.7;
    preset ["indie"; "alt"; "alternative"] 0.55 0.6 0.6;
    preset ["rock"; "hard rock"; "punk"] 0.8 0.55 0.55;
    preset ["metal"] 0.95 0.4 0.4;
    preset ["lo-fi"; "chill"; "ambient"; "downtempo"] 0.3 0.4 0.6;
    preset ["acoustic"; "folk"; "singer-songwriter"] 0.4 0.45 0.7;
    preset ["classical"; "soundtrack"; "score"] 0.35 0.25 0.6 ].

Definition DEFAULT_FEATURES : Features N :=
  mkFeatures (num_lit 0.6) (num_lit 0.6) (num_lit 0.6).

End Estimation.

(** [String.prototype.toLowerCase], on the ASCII letters. *)
Definition lower_ascii (c : ascii) : ascii :=
  let n := nat_of_ascii c in
  if ((65 <=? n) && (n <=? 90))%nat then ascii_of_nat (n + 32) else c.

(** The two characters outside ASCII whose lower case holds an ASCII letter,
    at the head of a string: U+0130 (bytes C4 B0) becomes i followed by
    U+0307 (bytes CC 87), and U+212A, the Kelvin sign (bytes E2 84 AA),
    becomes k. *)
Definition lower_head (s : string) : string :=
  match s with
  | String c (String c1 rest) =>
      if ((c =? "196") && (c1 =? "176"))%char
      then String "i" (String "204" (String "135" rest))
      else
        match rest with
        | String c2 rest' =>
            if ((c =? "226") && (c1 =? "132") && (c2 =? "170"))%char
            then String "k" rest'
            else s
        | EmptyString => s
        end
  | _ => s
  end.

Fixpoint toLowerCase (s : string) : string :=
  match s with
  | EmptyString => EmptyString
  | String c s' => lower_head (String (lower_ascii c) (toLowerCase s'))
  end.

(** [g.includes(kw)]: [kw] occurs in [g] as a substring. *)
Fixpoint includes (g kw : string) : bool :=
  String.prefix kw g ||
  match g with
  | EmptyString => false
  | String _ g' => includes g' kw
  end.

Section Estimator.
Context {N : Type} `{Number N}.

(** The running totals of the loop of [estimateFeaturesFromGenres]. *)
Record Totals := mkTotals {
  totalEnergy : N;
  totalDance : N;
  totalValence : N;
  matches : nat
}.

(** [preset.keywords.some((kw) => g.includes(kw))] *)
Definition hit (g : string) (p : Preset N) : bool :=
  existsb (fun kw => includes g kw) (keywords p).

(** The inner [for (const preset of GENRE_PRESETS)] with its [break]: the
    totals after the first preset that hits, unchanged when none does. *)
Fixpoint scanPresets (g : string) (ps : list (Preset N)) (t : Totals)
  : Totals :=
  match ps with
  | [] => t
  | p :: ps' =>
      if hit g p
      then mkTotals (num_add (totalEnergy t) (preset_energy p))
                    (num_add (totalDance t) (preset_danceability p))
                    (num_add (totalValence t) (preset_valence p))
                    (matches t + 1)
      else scanPresets g ps' t
  end.

(** The outer [for (const g of lowerGenres)]. *)
Fixpoint scanGenres (lowerGenres : list string) (t : Totals) : Totals :=
  match lowerGenres with
  | [] => t
  | g :: gs => scanGenres gs (scanPresets g GENRE_PRESETS t)
  end.

(** [genres] is [None] when the argument is absent ([undefined], [null]). *)
Definition estimateFeaturesFromGenres (genres : option (list string))
  : Features N :=
  match genres with
  | None => DEFAULT_FEATURES
  | Some [] => DEFAULT_FEATURES
  | Some genres =>
      let lowerGenres := map toLowerCase genres in
      let t := scanGenres lowerGenres
                 (mkTotals (num_lit 0) (num_lit 0) (num_lit 0) 0) in
      if (matches t =? 0)%nat then DEFAULT_FEATURES
      else mkFeatures (num_div (totalEnergy t) (num_of_nat (matches t)))
                      (num_div (totalDance t) (num_of_nat (matches t)))
                      (num_div (totalValence t) (num_of_nat (matches t)))
  end.

(** Calculate how well a track matches the desired mood. *)
Definition calculateMoodScore (features : Features N)
    (moodSettings : MoodSettings N) : N :=
  let energyDiff := num_abs (num_sub (energy features) (energy moodSettings)) in
  let danceabilityDiff :=
    num_abs (num_sub (danceability features) (danceability moodSettings)) in
  let valenceDiff :=
    num_abs (num_sub (valence features) (valence moodSettings)) in
  num_add (num_add energyDiff danceabilityDiff) valenceDiff.

End Estimator.
Arguments Totals N : clear implicits.

(** *** The estimator in the words of its specification

    Each genre credits the first preset, in table order, one of whose keywords
    occurs in the (lower-cased) genre; the result is the mean of the credited
    triples, the default triple when nothing is credited. *)
Section EstimatorSpec.
Context {N : Type} `{Number N}.

(** The totals with one more preset credited. *)
Definition credit_totals (t : Totals N) (p : Preset N) : Totals N :=
  mkTotals (num_add (totalEnergy t) (preset_energy p))
           (num_add (totalDance t) (preset_danceability p))
           (num_add (totalValence t) (preset_valence p))
           (matches t + 1).

Definition credit (g : string) : option (Preset N) :=
  List.find (hit g) GENRE_PRESETS.

Definition credited (genres : list string) : list (Preset N) :=
  omap credit (map toLowerCase genres).

(** The sum of a list of numbers, added from the left, starting from [z]. *)
Definition sum_from (z : N) (l : list N) : N := fold_left num_add l z.

Definition mean (l : list N) : N :=
  num_div (sum_from (num_lit 0) l) (num_of_nat (length l)).

Definition estimate_spec (genres : option (list string)) : Features N :=
  match genres with
  | None => DEFAULT_FEATURES
  | Some gs =>
      match credited gs with
      | [] => DEFAULT_FEATURES
      | ps => mkFeatures (mean (map preset_energy ps))
                         (mean (map preset_danceability ps))
                         (mean (map preset_valence ps))
      end
  end.

End EstimatorSpec.
(** Membership of the unit interval, by the comparisons of the language. *)
Definition in_unit (x : float) : Prop :=
  (0 <=? x)%float = true /\ (x <=? 1)%float = true.

Definition in_unit_cube (f : Features float) : Prop :=
  in_unit (energy f) /\ in_unit (danceability f) /\ in_unit (valence f).

(** A JavaScript array holds fewer than 2^32 elements. *)
Definition array_length {A} (l : list A) : Prop :=
  (Z.of_nat (length l) < 2 ^ 32)%Z.

(* ------------------------------------------------------------------------- *)
(** ** JavaScript values *)

Local Open Scope Z_scope.

(** The decimal text of an integer. *)
Definition string_of_Z (z : Z) : string := NilZero.string_of_int (Z.to_int z).

(** A string is truthy when it is not empty. *)
Definition truthy (s : string) : bool := negb (String.eqb s EmptyString).

(** [x || d] on a possibly absent string. *)
Definition or_else (x : option string) (d : string) : string :=
  match x with
  | Some s => if truthy s then s else d
  | None => d
  end.

(** [Math.round]: a number that has no fraction, or is not finite, is
    returned as it is; any other [v] gives the integer [floor (v + 1/2)],
    the nearest one, the greater one of two at equal distance; a result of
    zero has the sign of [v]. *)
Definition Math_round (x : float) : float :=
  match Prim2SF x with
  | S754_finite s m e =>
      if 0 <=? e then x
      else
        let n := (2 * signed s m + 2 ^ (- e)) / 2 ^ (1 - e) in
        if n =? 0 then (if s then neg_zero else zero)
        else Binary64.of_Z n
  | _ => x
  end.

(** [Math.floor] *)
Definition Math_floor (x : float) : float :=
  match Prim2SF x with
  | S754_finite s m e =>
      if 0 <=? e then x
      else
        let n := signed s m / 2 ^ (- e) in
        if n =? 0 then zero else Binary64.of_Z n
  | _ => x
  end.

(** [n % d]: the remainder of the truncating division, with the sign of the
    dividend; the remainder of two doubles is a double, nothing is rounded. *)
Definition Number_rem (n d : float) : float :=
  match Prim2SF n, Prim2SF d with
  | S754_nan, _ | _, S754_nan => nan
  | S754_infinity _, _ => nan
  | _, S754_zero _ => nan
  | _, S754_infinity _ => n
  | S754_zero _, _ => n
  | S754_finite sn mn en, S754_finite _ md ed =>
      let e0 := Z.min en ed in
      let r := Z.rem (Z.pos mn * 2 ^ (en - e0)) (Z.pos md * 2 ^ (ed - e0)) in
      if r =? 0 then (if sn then neg_zero else zero)
      else Binary64.of_dyadic (if sn then - r else r) e0
  end.

(** *** The text of a number

    [Number::toString] prints the shortest decimal that denotes the double:
    digits [s] and an exponent [j] such that [s * 10^j] rounds to the double
    and [s] has as few digits as possible, the nearest such decimal when
    there are several. *)

(** The reals that round to the double [m * 2^e] lie between [lo] and [hi],
    the ends included when [m] is even. *)
Definition rounding_interval (m : positive) (e : Z) : Q * Q :=
  let hi := F2Q (2 * Z.pos m + 1) (e - 1) in
  let lo := if (Z.pos m =? 2 ^ 52) && (-1074 <? e)
            then F2Q (4 * Z.pos m - 1) (e - 2)
            else F2Q (2 * Z.pos m - 1) (e - 1) in
  (lo, hi).

Definition denotes (m : positive) (e : Z) (q : Q) : bool :=
  let '(lo, hi) := rounding_interval m e in
  if Z.even (Z.pos m) then Qle_bool lo q && Qle_bool q hi
  else negb (Qle_bool q lo) && negb (Qle_bool hi q).

(** The decimal [s * 10^j] that denotes the double [m * 2^e], for the exponent
    [j], if there is one: the nearer of the two multiples of [10^j] around the
    double, the even one at equal distance. *)
Definition decimal_at (m : positive) (e : Z) (j : Z) : option Z :=
  let v := F2Q (Z.pos m) e in
  let t := (v / 10 ^ j)%Q in
  let s0 := Qfloor t in
  let ok s := (1 <=? s) && denotes m e (inject_Z s * 10 ^ j)%Q in
  match ok s0, ok (s0 + 1) with
  | true, true =>
      match ((t - inject_Z s0) ?= (inject_Z (s0 + 1) - t))%Q with
      | Lt => Some s0
      | Gt => Some (s0 + 1)
      | Eq => Some (if Z.even s0 then s0 else s0 + 1)
      end
  | true, false => Some s0
  | false, true => Some (s0 + 1)
  | false, false => None
  end.

(** The shortest decimal: the greatest exponent at which there is one,
    looked for from [j] downwards. *)
Fixpoint shortest_decimal (m : positive) (e : Z) (j : Z) (fuel : nat)
  : Z * Z :=
  match decimal_at m e j with
  | Some s => (s, j)
  | None =>
      match fuel with
      | O => (0, j)
      | S fuel' => shortest_decimal m e (j - 1) fuel'
      end
  end.

Fixpoint zeros (n : nat) : string :=
  match n with
  | O => EmptyString
  | S n' => String "0" (zeros n')
  end.

Definition substring_from (n : nat) (s : string) : string :=
  String.substring n (String.length s - n) s.

(** The text of the positive double [m * 2^e].  The double is below
    [2^(d + e)], where [d] is the number of bits of [m], hence below
    [10^j] for the exponent [j] at which the search starts; a double is
    denoted by a decimal of 17 digits at the latest. *)
Definition positive_toString (m : positive) (e : Z) : string :=
  let start := (Z.pos (digits2_pos m) + e) * 30103 / 100000 + 2 in
  let '(s, j) := shortest_decimal m e start 40 in
  let ds := string_of_Z s in
  let k := Z.of_nat (String.length ds) in
  let n := k + j in
  if (k <=? n) && (n <=? 21) then ds +:+ zeros (Z.to_nat (n - k))
  else if (0 <? n) && (n <=? 21) then
    String.substring 0 (Z.to_nat n) ds +:+ "." +:+
    substring_from (Z.to_nat n) ds
  else if (-6 <? n) && (n <=? 0) then
    "0." +:+ zeros (Z.to_nat (- n)) +:+ ds
  else
    let ex := n - 1 in
    let mantissa :=
      if k =? 1 then ds
      else String.substring 0 1 ds +:+ "." +:+ substring_from 1 ds in
    mantissa +:+ "e" +:+ (if ex <? 0 then "-" else "+") +:+
    string_of_Z (Z.abs ex).

(** [String(x)]: what a template literal and [toString()] print. *)
Definition Number_toString (x : float) : string :=
  match Prim2SF x with
  | S754_nan => "NaN"
  | S754_zero _ => "0"
  | S754_infinity s => if s then "-Infinity" else "Infinity"
  | S754_finite s m e =>
      (if s then "-" else EmptyString) +:+ positive_toString m e
  end.

(** [s.padStart(2, "0")] *)
Definition padStart2 (s : string) : string :=
  match String.length s with
  | O => "00"
  | S O => "0" +:+ s
  | _ => s
  end.

(** [ms] is [None] when the duration is absent ([undefined], [null]).  The
    guard [!ms && ms !== 0] holds of an absent duration and of NaN. *)
Definition formatDuration (ms : option float) : string :=
  match ms with
  | None => EmptyString
  | Some ms =>
      if PrimFloat.is_nan ms then EmptyString
      else
        let totalSeconds := Math_floor (ms / 1000)%float in
        let minutes := Math_floor (totalSeconds / 60)%float in
        let seconds := Number_rem totalSeconds 60%float in
        Number_toString minutes +:+ ":" +:+
        padStart2 (Number_toString seconds)
  end.

(* ------------------------------------------------------------------------- *)
(** ** The objects of the catalog service and of the output *)

(** An entry of [track.artists]. *)
Record ArtistRef := mkArtistRef {
  artist_ref_id : option string;
  artist_ref_name : string
}.

Record Image := mkImage { url : option string }.

Record Album := mkAlbum {
  album_name : option string;
  images : option (list Image)
}.

Record Track := mkTrack {
  track_id : string;
  track_name : string;
  track_artists : option (list ArtistRef);
  track_album : option Album;
  duration_ms : option float
}.

(** The seed track handed in by the caller. *)
Record SeedSong := mkSeedSong {
  seed_id : string;
  seed_name : option string;
  seed_title : option string;
  seed_artists : option (list ArtistRef)
}.

(** An artist object of the service: [{ id, genres }]. *)
Record ArtistObject := mkArtistObject {
  artist_id : string;
  genres : option (list string)
}.

(** The shape handed to the user interface. *)
Record Recommendation := mkRecommendation {
  id : string;
  title : string;
  artist : string;
  album : string;
  duration : string;
  imageUrl : string;
  reason : string
}.

(* ------------------------------------------------------------------------- *)
(** ** The catalog service

    Every [axios.get] of the module is one of four requests.  A service
    answers a request, given the requests issued before it, by resolving with
    the data of the response or by rejecting.  Where the code reads the data
    through [?.] and [|| []], the data is optional. *)

Inductive Request :=
| GetArtist (artistId token : string)
| GetTopTracks (artistId token : string)
| Search (q token : string)
| GetArtists (ids token : string).

Inductive Result (A : Type) :=
| Resolved (data : A)
| Rejected.
Arguments Resolved {A} _.
Arguments Rejected {A}.

Definition Reply (r : Request) : Type :=
  match r with
  | GetArtist _ _ => ArtistObject
  | GetTopTracks _ _ => option (list Track)
  | Search _ _ => option (list Track)
  | GetArtists _ _ => option (list ArtistObject)
  end.

Definition Service := list Request -> forall r : Request, Result (Reply r).

(** One [axios.get]: the answer, and the trace with the request recorded. *)
Definition axios_get (srv : Service) (trace : list Request) (r : Request)
  : Result (Reply r) * list Request :=
  (srv trace r, trace ++ [r]).

(** How a block of code ends: with a value, or by throwing. *)
Inductive Completion (A : Type) :=
| Normal (a : A)
| Throw.
Arguments Normal {A} _.
Arguments Throw {A}.

(** [try { body } catch (error) { handler }] *)
Definition try_catch {A} (body : Completion A) (handler : Completion A)
  : Completion A :=
  match body with
  | Normal a => Normal a
  | Throw => handler
  end.

(* ------------------------------------------------------------------------- *)
(** ** Mock data (fallback when no token or errors) *)

(** One entry of the mock list; [ke], [kd], [kv] are the constants its
    [reason] multiplies the three targets by. *)
Definition mockSong (moodSettings : MoodSettings float)
    (id title artist album duration imageUrl : string) (ke kd kv : float)
  : Recommendation :=
  let baseEnergy := energy moodSettings in
  let baseValence := valence moodSettings in
  mkRecommendation id title artist album duration imageUrl
    (Number_toString (Math_round (baseEnergy * ke)%float) +:+
     "% energy match, " +:+
     Number_toString (Math_round (danceability moodSettings * kd)%float) +:+
     "% danceability match, " +:+
     Number_toString (Math_round (baseValence * kv)%float) +:+
     "% mood match").

Definition generateMockSongs (seedSong : SeedSong)
    (moodSettings : MoodSettings float) : list Recommendation :=
  [ mockSong moodSettings "mock-1" "Midnight Dreams" "Luna Wave" "Nocturnal"
      "3:42"
      "https://images.unsplash.com/photo-1470225620780-dba8ba36b745?w=400&h=400&fit=crop"
      100 100 100;
    mockSong moodSettings "mock-2" "Electric Horizon" "Neon Coast" "Skywave"
      "4:05"
      "https://images.unsplash.com/photo-1526170375885-4d8ecf77b99f?w=400&h=400&fit=crop"
      95 90 90;
    mockSong moodSettings "mock-3" "Violet Echoes" "Astral Bloom" "Reflections"
      "2:58"
      "https://images.unsplash.com/photo-1507875703980-84f7b92febe1?w=400&h=400&fit=crop"
      110 95 85;
    mockSong moodSettings "mock-4" "Chrome Streetlights" "Echo District"
      "Afterglow" "3:21"
      "https://images.unsplash.com/photo-1507874457470-272b3c8d8ee2?w=400&h=400&fit=crop"
      88 92 92;
    mockSong moodSettings "mock-5" "Crystal Pulse" "Nova Circuit" "Lumina"
      "3:55"
      "https://images.unsplash.com/photo-1535223289827-42f1e9919769?w=400&h=400&fit=crop"
      102 98 98;
    mockSong moodSettings "mock-6" "Silver Haze" "Moon District"
      "Nebula Streets" "4:11"
      "https://images.unsplash.com/photo-1526170375885-4d8ecf77b99f?w=400&h=400&fit=crop"
      93 87 87;
    mockSong moodSettings "mock-7" "Neon Waves" "Digital Sunset" "Cyber Dreams"
      "3:33"
      "https://images.unsplash.com/photo-1493225457124-a3eb161ffa5f?w=400&h=400&fit=crop"
      91 89 94;
    mockSong moodSettings "mock-8" "Starlight Echo" "Cosmic Drift"
      "Interstellar" "4:20"
      "https://images.unsplash.com/photo-1514525253161-7a46d19cd819?w=400&h=400&fit=crop"
      97 85 88;
    mockSong moodSettings "mock-9" "Urban Pulse" "City Lights" "Metropolitan"
      "3:15"
      "https://images.unsplash.com/photo-1511379938547-c1f69419868d?w=400&h=400&fit=crop"
      94 96 91;
    mockSong moodSettings "mock-10" "Velvet Night" "Smooth Operator"
      "After Hours" "3:48"
      "https://images.unsplash.com/photo-1415201364774-f6f0bb35f28f?w=400&h=400&fit=crop"
      86 83 89 ].

(* ------------------------------------------------------------------------- *)
(** ** Collecting the candidates *)

(** [candidateTracks], in the order pushed, and the set [seenTrackIds]. *)
Record Pool := mkPool {
  candidateTracks : list Track;
  seenTrackIds : gset string
}.

(** [if (!seenTrackIds.has(t.id)) { seenTrackIds.add(t.id);
    candidateTracks.push(t); }] *)
Definition addUnseen (t : Track) (pool : Pool) : Pool :=
  if decide (track_id t ∈ seenTrackIds pool) then pool
  else mkPool (candidateTracks pool ++ [t])
              ({[ track_id t ]} ∪ seenTrackIds pool).

(** [for (const t of topTracks)]: always include the seed artist's top
    tracks. *)
Fixpoint addTopTracks (topTracks : list Track) (pool : Pool) : Pool :=
  match topTracks with
  | [] => pool
  | t :: rest => addTopTracks rest (addUnseen t pool)
  end.

Definition full (pool : Pool) : bool :=
  (40 <=? length (candidateTracks pool))%nat.

(** [for (const t of found)], left by [break] once the pool holds 40. *)
Fixpoint addFound (found : list Track) (pool : Pool) : Pool :=
  match found with
  | [] => pool
  | t :: rest =>
      let pool' := addUnseen t pool in
      if full pool' then pool' else addFound rest pool'
  end.

(** [for (const g of mainGenres)]: one search per genre, a rejected search
    caught and skipped, the loop left by [break] once the pool holds 40. *)
Fixpoint searchGenres (srv : Service) (token : string)
    (mainGenres : list string) (pool : Pool) (trace : list Request)
  : Pool * list Request :=
  match mainGenres with
  | [] => (pool, trace)
  | g :: rest =>
      let '(searchRes, trace') := axios_get srv trace (Search g token) in
      let pool' :=
        match searchRes with
        | Resolved data => addFound (default [] data) pool
        | Rejected => pool
        end in
      if full pool' then (pool', trace')
      else searchGenres srv token rest pool' trace'
  end.

(** [track.artists?.[0]?.id], when it is truthy. *)
Definition primaryArtistId (artists : option (list ArtistRef))
  : option string :=
  match artists with
  | Some (a :: _) =>
      match artist_ref_id a with
      | Some i => if truthy i then Some i else None
      | None => None
      end
  | _ => None
  end.

(** [artistIdSet]: a [Set] keeps its elements in the order of their first
    insertion, which is the order [Array.from] lists them in. *)
Fixpoint collectArtistIds (tracks : list Track) (artistIdSet : list string)
  : list string :=
  match tracks with
  | [] => artistIdSet
  | t :: rest =>
      collectArtistIds rest
        match primaryArtistId (track_artists t) with
        | Some i => if decide (i ∈ artistIdSet) then artistIdSet
                    else artistIdSet ++ [i]
        | None => artistIdSet
        end
  end.

(** [for (let i = 0; i < artistIds.length; i += 50)
    batches.push(artistIds.slice(i, i + 50))] *)
Definition batches (artistIds : list string) : list (list string) :=
  map (fun k => take 50 (drop (50 * k) artistIds))
      (seq 0 ((length artistIds + 49) / 50)).

(** [for (const a of artists) artistMap[a.id] = a] *)
Definition recordArtists (artists : list ArtistObject)
    (artistMap : gmap string ArtistObject) : gmap string ArtistObject :=
  fold_left (fun m a => <[ artist_id a := a ]> m) artists artistMap.

(** [for (const batch of batches)]: one request per batch, a rejected one
    caught and skipped. *)
Fixpoint fetchArtists (srv : Service) (token : string)
    (bs : list (list string)) (artistMap : gmap string ArtistObject)
    (trace : list Request) : gmap string ArtistObject * list Request :=
  match bs with
  | [] => (artistMap, trace)
  | batch :: rest =>
      let '(res, trace') :=
        axios_get srv trace (GetArtists (String.concat "," batch) token) in
      let artistMap' :=
        match res with
        | Resolved data => recordArtists (default [] data) artistMap
        | Rejected => artistMap
        end in
      fetchArtists srv token rest artistMap' trace'
  end.

(* ------------------------------------------------------------------------- *)
(** ** Scoring and ranking *)

Record ScoredCandidate := mkScored {
  track : Track;
  features : Features float;
  moodScore : float
}.

(** [artist?.genres || seedGenres], where [artist] is
    [primaryArtistId ? artistMap[primaryArtistId] : null].  An array is
    truthy, the empty one too. *)
Definition genresOf (artistMap : gmap string ArtistObject)
    (seedGenres : list string) (t : Track) : list string :=
  let artist :=
    match primaryArtistId (track_artists t) with
    | Some i => artistMap !! i
    | None => None
    end in
  match artist with
  | Some a => default seedGenres (genres a)
  | None => seedGenres
  end.

(** The callback of [candidateTracks.map]. *)
Definition scoreTrack (artistMap : gmap string ArtistObject)
    (seedGenres : list string) (moodSettings : MoodSettings float) (t : Track)
  : ScoredCandidate :=
  let features :=
    estimateFeaturesFromGenres (Some (genresOf artistMap seedGenres t)) in
  let moodScore := calculateMoodScore features moodSettings in
  mkScored t features moodScore.

(** The comparator [(a, b) => a.moodScore - b.moodScore]. *)
Definition byMoodScore (a b : ScoredCandidate) : float :=
  (moodScore a - moodScore b)%float.

(** [Array.prototype.sort] is a stable sort.  With a comparator that orders
    its arguments consistently, its result is determined: the elements in
    ascending order, those the comparator ties in their order of the input.
    Insertion from the right computes that arrangement: an element goes in
    front of the first one it does not compare greater than.  The sort reads
    a comparator value that is not greater than 0 (negative, zero or NaN) as
    "not greater". *)
Fixpoint insertBy (cmp : ScoredCandidate -> ScoredCandidate -> float)
    (x : ScoredCandidate) (l : list ScoredCandidate) : list ScoredCandidate :=
  match l with
  | [] => [x]
  | y :: l' =>
      if (0 <? cmp x y)%float then y :: insertBy cmp x l' else x :: y :: l'
  end.

Definition Array_sort (cmp : ScoredCandidate -> ScoredCandidate -> float)
    (l : list ScoredCandidate) : list ScoredCandidate :=
  foldr (insertBy cmp) [] l.

(** [Math.round((1 - Math.abs(feature - target)) * 100)] *)
Definition matchPercent (feature target : float) : float :=
  Math_round ((1 - PrimFloat.abs (feature - target)) * 100)%float.

(** [track.artists?.map((a) => a.name).join(", ")], the empty string when
    the artists are absent. *)
Definition artistNames (artists : option (list ArtistRef)) : string :=
  match artists with
  | Some l => String.concat ", " (map artist_ref_name l)
  | None => EmptyString
  end.

(** [track.album?.images?.[0]?.url], the empty string when it is absent. *)
Definition artwork (album : option Album) : string :=
  match album with
  | Some a =>
      match images a with
      | Some (i :: _) => or_else (url i) EmptyString
      | _ => EmptyString
      end
  | None => EmptyString
  end.

(** The callback of [topMatches.map]: map to the shape of the user
    interface. *)
Definition toRecommendation (moodSettings : MoodSettings float)
    (seedArtistName : string) (c : ScoredCandidate) : Recommendation :=
  let energyMatch :=
    matchPercent (energy (features c)) (energy moodSettings) in
  let danceMatch :=
    matchPercent (danceability (features c)) (danceability moodSettings) in
  let valenceMatch :=
    matchPercent (valence (features c)) (valence moodSettings) in
  mkRecommendation
    (track_id (track c))
    (track_name (track c))
    (artistNames (track_artists (track c)))
    (or_else (track_album (track c) ≫= album_name) EmptyString)
    (formatDuration (duration_ms (track c)))
    (artwork (track_album (track c)))
    (Number_toString energyMatch +:+ "% energy match, " +:+
     Number_toString danceMatch +:+ "% danceability match, " +:+
     Number_toString valenceMatch +:+
     "% mood match (estimated from genres similar to " +:+
     seedArtistName +:+ ")").

(** The candidates scored, sorted and cut to the first ten. *)
Definition rank (artistMap : gmap string ArtistObject)
    (seedGenres : list string) (moodSettings : MoodSettings float)
    (candidateTracks : list Track) : list ScoredCandidate :=
  let tracksWithScores :=
    Array_sort byMoodScore
      (map (scoreTrack artistMap seedGenres moodSettings) candidateTracks) in
  take 10 tracksWithScores.

(* ------------------------------------------------------------------------- *)
(** ** Main recommendation function *)

(** What the collection of step 1 and step 2 leaves: the genres of the seed
    artist, the pool, and the requests issued.  [Promise.all] issues both
    requests, the artist's first, and rejects when either does. *)
Definition collect (srv : Service) (seedSong : SeedSong)
    (seedArtistId token : string)
  : Completion (list string * Pool) * list Request :=
  let '(artistRes, trace1) := axios_get srv [] (GetArtist seedArtistId token) in
  let '(topTracksRes, trace2) :=
    axios_get srv trace1 (GetTopTracks seedArtistId token) in
  match artistRes, topTracksRes with
  | Resolved seedArtist, Resolved topData =>
      let seedGenres := default [] (genres seedArtist) in
      let topTracks := default [] topData in
      let pool0 := addTopTracks topTracks (mkPool [] {[ seed_id seedSong ]}) in
      let mainGenres := take 2 seedGenres in
      let '(pool, trace3) := searchGenres srv token mainGenres pool0 trace2 in
      (Normal (seedGenres, pool), trace3)
  | _, _ => (Throw, trace2)  (* [Promise.all] rejects *)
  end.

(** The body of the [try] block. *)
Definition generateSongs_try (srv : Service) (seedSong : SeedSong)
    (moodSettings : MoodSettings float) (token : string)
  : Completion (list Recommendation) * list Request :=
  match primaryArtistId (seed_artists seedSong) with
  | None => (Normal (generateMockSongs seedSong moodSettings), [])
  | Some seedArtistId =>
      match collect srv seedSong seedArtistId token with
      | (Throw, trace) => (Throw, trace)
      | (Normal (seedGenres, pool), trace) =>
          if (length (candidateTracks pool) =? 0)%nat
          then (Normal (generateMockSongs seedSong moodSettings), trace)
          else
            (* no batch, hence no request, when [artistIds] is empty *)
            let artistIds := collectArtistIds (candidateTracks pool) [] in
            let '(artistMap, trace') :=
              fetchArtists srv token (batches artistIds) ∅ trace in
            let seedArtistName :=
              match seed_artists seedSong with
              | Some (a :: _) => artist_ref_name a
              | _ => EmptyString
              end in
            let topMatches :=
              rank artistMap seedGenres moodSettings (candidateTracks pool) in
            (Normal (map (toRecommendation moodSettings seedArtistName)
                         topMatches),
             trace')
      end
  end.

(** [generateSongs(seedSong, moodSettings, token)]: what the returned promise
    settles with, and the requests issued on the way.  [token] is [None] when
    the argument is absent; the empty string is as falsy. *)
Definition generateSongs (srv : Service) (seedSong : SeedSong)
    (moodSettings : MoodSettings float) (token : option string)
  : Completion (list Recommendation) * list Request :=
  match token with
  | None => (Normal (generateMockSongs seedSong moodSettings), [])
  | Some token =>
      if truthy token then
        let '(body, trace) :=
          generateSongs_try srv seedSong moodSettings token in
        (try_catch body (Normal (generateMockSongs seedSong moodSettings)),
         trace)
      else (Normal (generateMockSongs seedSong moodSettings), [])
  end.

(* ------------------------------------------------------------------------- *)
(** ** Predicates of the statements *)

(** A preset whose three values lie in the unit interval. *)
Definition preset_in_unit (p : Preset float) : Prop :=
  in_unit (preset_energy p) /\ in_unit (preset_danceability p) /\
  in_unit (preset_valence p).

(** Equality of two triples of exact numbers, component by component. *)
Definition features_eq (f g : Features Q) : Prop :=
  (energy f == energy g /\ danceability f == danceability g /\
   valence f == valence g)%Q.


(** A triple of finite doubles: no infinity and no NaN. *)
Definition finite_triple (f : Features float) : Prop :=
  Binary64.finite (energy f) = true /\
  Binary64.finite (danceability f) = true /\
  Binary64.finite (valence f) = true.

(** A triple one of whose components is NaN. *)
Definition has_nan (f : Features float) : bool :=
  PrimFloat.is_nan (energy f) || PrimFloat.is_nan (danceability f) ||
  PrimFloat.is_nan (valence f).

(** The genre lists that the scoring reads are arrays. *)
Definition genre_arrays (artistMap : gmap string ArtistObject)
    (seedGenres : list string) : Prop :=
  array_length seedGenres /\
  forall i a g, artistMap !! i = Some a -> genres a = Some g -> array_length g.

(** The genre lists in the replies of a service are arrays. *)
Definition service_arrays (srv : Service) : Prop :=
  (forall trace i tok a g,
      srv trace (GetArtist i tok) = Resolved a -> genres a = Some g ->
      array_length g) /\
  (forall trace ids tok l a g,
      srv trace (GetArtists ids tok) = Resolved (Some l) -> In a l ->
      genres a = Some g -> array_length g).

(** The invariant of the pool: the identifiers of the candidates are pairwise
    distinct and all seen, and the seed's identifier is seen and is not a
    candidate's. *)
Definition pool_ok (seedId : string) (pool : Pool) : Prop :=
  NoDup (map track_id (candidateTracks pool)) /\
  seedId ∈ seenTrackIds pool /\
  (forall t, In t (candidateTracks pool) -> track_id t ∈ seenTrackIds pool) /\
  ~ In seedId (map track_id (candidateTracks pool)).

(** The tracks found by the searches for [mainGenres], were all of them
    issued: in the order of the genres, then in the order of each result. *)
Fixpoint searchReplies (srv : Service) (token : string)
    (mainGenres : list string) (trace : list Request) : list Track :=
  match mainGenres with
  | [] => []
  | g :: rest =>
      match srv trace (Search g token) with
      | Resolved data => default [] data
      | Rejected => []
      end ++ searchReplies srv token rest (trace ++ [Search g token])
  end.

(** The order of the ranking: [b] does not have a smaller mood score than
    [a].  Between two numbers that are not NaN this is [a <= b]. *)
Definition not_above (a b : ScoredCandidate) : Prop :=
  (moodScore b <? moodScore a)%float = false.

Definition le_score (a b : ScoredCandidate) : Prop :=
  (moodScore a <=? moodScore b)%float = true.

(** The candidates whose mood score is [s]. *)
Definition sameScore (s : float) (c : ScoredCandidate) : bool :=
  (moodScore c =? s)%float.

(** The constants by which the entries of the mock list multiply the target
    energy, danceability and valence, entry by entry. *)
Definition mockMultipliers : list (float * float * float) :=
  [ (100, 100, 100); (95, 90, 90); (110, 95, 85); (88, 92, 92);
    (102, 98, 98); (93, 87, 87); (91, 89, 94); (97, 85, 88);
    (94, 96, 91); (86, 83, 89) ]%float.

(** The three percentages of a mock entry: each the rounding of the product
    of a target and the entry's constant. *)
Definition mockPercents (moodSettings : MoodSettings float)
    (k : float * float * float) : float * float * float :=
  let '(ke, kd, kv) := k in
  (Math_round (energy moodSettings * ke)%float,
   Math_round (danceability moodSettings * kd)%float,
   Math_round (valence moodSettings * kv)%float).

(** The [reason] of a mock entry, from its three percentages. *)
Definition mockReason (p : float * float * float) : string :=
  let '(e, d, v) := p in
  Number_toString e +:+ "% energy match, " +:+
  Number_toString d +:+ "% danceability match, " +:+
  Number_toString v +:+ "% mood match".

(** What a recommendation shows besides its [reason]. *)
Definition placeholder (r : Recommendation)
  : string * string * string * string * string * string :=
  (id r, title r, artist r, album r, duration r, imageUrl r).

(** The [reason] of a live recommendation, from its three percentages. *)
Definition liveReason (energyMatch danceMatch valenceMatch : float)
    (seedArtistName : string) : string :=
  Number_toString energyMatch +:+ "% energy match, " +:+
  Number_toString danceMatch +:+ "% danceability match, " +:+
  Number_toString valenceMatch +:+
  "% mood match (estimated from genres similar to " +:+
  seedArtistName +:+ ")".

(** The integer that [Math.round] returns at a finite number: the floor of
    its value plus one half. *)
Definition roundedPercent (p : float) : Z :=
  Qfloor (Binary64.value p + (1 # 2)).

(** A [reason] read as text: three integers in decimal, each followed by its
    label, then what the live path appends. *)
Definition reasonText (energyMatch danceMatch valenceMatch : Z)
    (suffix : string) : string :=
  string_of_Z energyMatch +:+ "% energy match, " +:+
  string_of_Z danceMatch +:+ "% danceability match, " +:+
  string_of_Z valenceMatch +:+ "% mood match" +:+ suffix.

(** A percentage from 0 to 100. *)
Definition percent (x : float) : Prop :=
  (0 <=? x)%float = true /\ (x <=? 100)%float = true.

(* ------------------------------------------------------------------------- *)
(** ** Scenarios

    Concrete seeds and services at which the statements below are run. *)

Definition numberedTrack (n : nat) : Track :=
  mkTrack ("track-" +:+ string_of_Z (Z.of_nat n)) "A Track"
    (Some [mkArtistRef (Some "artist-0") "Seed Artist"]) None
    (Some 225000%float).

Definition exampleSeed : SeedSong :=
  mkSeedSong "seed" (Some "Seed") None
    (Some [mkArtistRef (Some "artist-0") "Seed Artist"]).

(** The seed artist has the genres rock and jazz and twenty top tracks; the
    search for rock finds twenty more tracks, the search for jazz would find
    another twenty. *)
Definition crowdedService : Service :=
  fun _ r =>
    match r return Result (Reply r) with
    | GetArtist _ _ => Resolved (mkArtistObject "artist-0" (Some ["rock"; "jazz"]))
    | GetTopTracks _ _ => Resolved (Some (map numberedTrack (seq 1 20)))
    | Search q _ =>
        if String.eqb q "rock"
        then Resolved (Some (map numberedTrack (seq 21 20)))
        else Resolved (Some (map numberedTrack (seq 41 20)))
    | GetArtists _ _ => Resolved (Some [])
    end.

(** A seed that is itself an entry of the mock list, as when the user picks
    a placeholder recommendation as the next seed. *)
Definition placeholderSeed : SeedSong :=
  mkSeedSong "mock-1" None (Some "Midnight Dreams") None.

Definition halfMood : MoodSettings float := mkFeatures 0.5%float 0.5%float 0.5%float.

(** A service none of whose requests succeeds. *)
Definition deadService : Service := fun _ _ => Rejected.

(* ------------------------------------------------------------------------- *)
(** ** Further predicates and scenarios *)

(** The seen set is exactly the seed and the candidates. *)
Definition pool_exact (seedId : string) (pool : Pool) : Prop :=
  forall i, i ∈ seenTrackIds pool <->
            i = seedId \/ In i (map track_id (candidateTracks pool)).

(** [seedSong.artists?.[0]?.name], the empty string when it is absent. *)
Definition seedArtistNameOf (seedSong : SeedSong) : string :=
  match seed_artists seedSong with
  | Some (a :: _) => artist_ref_name a
  | _ => EmptyString
  end.

(** The artist map that a run resolves for a pool: one request per batch of
    the distinct primary-artist identifiers. *)
Definition resolvedArtists (srv : Service) (token : string) (pool : Pool)
    (trace : list Request) : gmap string ArtistObject :=
  fst (fetchArtists srv token
         (batches (collectArtistIds (candidateTracks pool) [])) ∅ trace).

(** The seed artist plays rock and has three top tracks; the search for rock
    finds the third top track again and two more tracks; no artist batch is
    answered. *)
Definition quietService : Service :=
  fun _ r =>
    match r return Result (Reply r) with
    | GetArtist _ _ => Resolved (mkArtistObject "artist-0" (Some ["rock"]))
    | GetTopTracks _ _ => Resolved (Some (map numberedTrack (seq 1 3)))
    | Search _ _ => Resolved (Some (map numberedTrack (seq 3 3)))
    | GetArtists _ _ => Rejected
    end.

(** The two candidates of a pool whose artists play rock and lo-fi. *)
Definition rockTrack : Track :=
  mkTrack "t-rock" "Rock Song"
    (Some [mkArtistRef (Some "artist-rock") "Rock Band"]) None None.

Definition lofiTrack : Track :=
  mkTrack "t-lofi" "Lo-fi Song"
    (Some [mkArtistRef (Some "artist-lofi") "Lo-fi Producer"]) None None.

Definition rockLofiArtists : gmap string ArtistObject :=
  {[ "artist-rock" := mkArtistObject "artist-rock" (Some ["rock"]);
     "artist-lofi" := mkArtistObject "artist-lofi" (Some ["lo-fi"]) ]}.

Local Open Scope Z_scope.

(* ========================================================================= *)
(** * Properties *)

(* ------------------------------------------------------------------------- *)
(** ** Binary64: an operation returns a rounding of the exact result *)

Lemma bpow_pos e : (0 < bpow e)%Q.
Proof. apply Qpower_0_lt. reflexivity. Qed.

Lemma bpow_add a b : (bpow (a + b) == bpow a * bpow b)%Q.
Proof. apply Qpower_plus. discriminate. Qed.

Lemma bpow_Z k : 0 <= k -> (bpow k == inject_Z (2 ^ k))%Q.
Proof. intros Hk. unfold bpow. rewrite Zpower_Qpower by exact Hk. reflexivity. Qed.

Lemma F2Q_shift m e k : 0 <= k -> (F2Q (m * 2 ^ k) e == F2Q m (e + k))%Q.
Proof.
  intros Hk. unfold F2Q. rewrite bpow_add, (bpow_Z k Hk), inject_Z_mult. ring.
Qed.

Lemma F2Q_le m m' e : m <= m' -> (F2Q m e <= F2Q m' e)%Q.
Proof.
  intros H. unfold F2Q. apply Qmult_le_compat_r.
  - rewrite <- Zle_Qle. exact H.
  - apply Qlt_le_weak, bpow_pos.
Qed.

Lemma F2Q_lt m m' e : m < m' -> (F2Q m e < F2Q m' e)%Q.
Proof.
  intros H. unfold F2Q. apply Qmult_lt_compat_r.
  - apply bpow_pos.
  - rewrite <- Zlt_Qlt. exact H.
Qed.

Lemma F2Q_lt_inv m m' e : (F2Q m e < F2Q m' e)%Q -> m < m'.
Proof.
  intros H. destruct (Z_lt_le_dec m m') as [Hl|Hl]; [exact Hl|].
  apply (F2Q_le _ _ e) in Hl. lra.
Qed.

Lemma F2Q_le_inv m m' e : (F2Q m e <= F2Q m' e)%Q -> m <= m'.
Proof.
  intros H. destruct (Z_le_gt_dec m m') as [Hl|Hl]; [exact Hl|].
  apply Z.gt_lt, (F2Q_lt _ _ e) in Hl. lra.
Qed.

Lemma F2Q_exp_le m e e' : 0 <= m -> e <= e' -> (F2Q m e <= F2Q m e')%Q.
Proof.
  intros Hm He. replace e' with (e + (e' - e)) by lia.
  rewrite <- F2Q_shift by lia. apply F2Q_le.
  assert (0 < 2 ^ (e' - e)) by (apply Z.pow_pos_nonneg; lia). nia.
Qed.

(* ---- digits ---- *)

Lemma digits2_pos_size p : digits2_pos p = Pos.size p.
Proof. induction p; simpl; congruence. Qed.

Lemma Zdigits2_bounds m :
  0 < m -> 2 ^ (Zdigits2 m - 1) <= m < 2 ^ Zdigits2 m.
Proof.
  destruct m as [|p|p]; try lia. intros _. cbn [Zdigits2].
  rewrite digits2_pos_size.
  pose proof (Pos.size_gt p) as Hgt. pose proof (Pos.size_le p) as Hle.
  apply Pos2Z.pos_lt_pos in Hgt. apply Pos2Z.pos_le_pos in Hle.
  rewrite Pos2Z.inj_pow in Hgt, Hle.
  split; [|exact Hgt].
  replace (Z.pos (Pos.size p)) with (Z.succ (Z.pos (Pos.size p) - 1)) in Hle
    by lia.
  rewrite Z.pow_succ_r in Hle by lia.
  change (Z.pos p~0) with (2 * Z.pos p) in Hle. lia.
Qed.

Lemma Zdigits2_nonneg m : 0 <= Zdigits2 m.
Proof. destruct m; simpl; lia. Qed.

Lemma pow2_le a b : a <= b -> 0 <= a -> 2 ^ a <= 2 ^ b.
Proof. intros. apply Z.pow_le_mono_r; lia. Qed.

Lemma pow2_pos a : 0 <= a -> 0 < 2 ^ a.
Proof. intros. apply Z.pow_pos_nonneg; lia. Qed.

(* ---- shifting right ---- *)

Lemma shr_1_step r0 : 0 <= shr_m r0 -> shr_step 1 r0 (shr_1 r0).
Proof.
  destruct r0 as [m r s]. cbn [shr_m]. intros Hm. unfold shr_step.
  change (2 ^ 1) with 2.
  assert (E : shr_1 (Build_shr_record m r s) =
              Build_shr_record (Z.div2 m) (Z.odd m) (orb r s)).
  { destruct m as [|[p|p|]|]; try reflexivity. lia. }
  rewrite E. cbn [shr_m shr_r shr_s]. rewrite Z.div2_div.
  split; [apply Z.div_pos; lia|]. split; [reflexivity|].
  intros F. apply orb_true_iff in F as [F|F]; [right|left; exact F].
  rewrite Zmod_odd, F. discriminate.
Qed.

Lemma shr_step_trans k1 k2 r0 r1 r2 :
  0 <= k1 -> 0 <= k2 -> 0 <= shr_m r0 ->
  shr_step k1 r0 r1 -> shr_step k2 r1 r2 -> shr_step (k1 + k2) r0 r2.
Proof.
  intros H1 H2 H0 (P1 & E1 & F1) (P2 & E2 & F2).
  pose proof (pow2_pos k1 H1) as Hp1. pose proof (pow2_pos k2 H2) as Hp2.
  split; [exact P2|]. split.
  - rewrite E2, E1, Z.pow_add_r, Z.div_div by lia. reflexivity.
  - intros F. destruct (orb (shr_r r0) (shr_s r0)) eqn:E0; [left; reflexivity|].
    right. intros Hz. rewrite Z.pow_add_r in Hz by lia.
    apply Z.mod_divide in Hz; [|lia]. destruct Hz as [c Hc].
    assert (Em1 : shr_m r1 = c * 2 ^ k2).
    { rewrite E1, Hc.
      replace (c * (2 ^ k1 * 2 ^ k2)) with (c * 2 ^ k2 * 2 ^ k1) by ring.
      apply Z.div_mul. lia. }
    destruct (F2 F) as [G|G].
    + destruct (F1 G) as [G'|G']; [discriminate|].
      apply G'. rewrite Hc.
      replace (c * (2 ^ k1 * 2 ^ k2)) with (c * 2 ^ k2 * 2 ^ k1) by ring.
      apply Z.mod_mul. lia.
    + apply G. rewrite Em1. apply Z.mod_mul. lia.
Qed.

Lemma iter_shr_1_step p r0 :
  0 <= shr_m r0 -> shr_step (Z.pos p) r0 (SpecFloat.iter_pos shr_1 p r0).
Proof.
  revert r0. induction p as [p IH|p IH|]; intros r0 H0; cbn [SpecFloat.iter_pos].
  - pose proof (shr_1_step r0 H0) as S1.
    pose proof (IH _ (proj1 S1)) as S2.
    pose proof (IH _ (proj1 S2)) as S3.
    replace (Z.pos p~1) with (1 + Z.pos p + Z.pos p) by lia.
    eapply shr_step_trans; [lia | lia | exact H0 | | exact S3].
    eapply shr_step_trans; [lia | lia | exact H0 | exact S1 | exact S2].
  - pose proof (IH _ H0) as S1.
    pose proof (IH _ (proj1 S1)) as S2.
    replace (Z.pos p~0) with (Z.pos p + Z.pos p) by lia.
    eapply shr_step_trans; [lia | lia | exact H0 | exact S1 | exact S2].
  - apply shr_1_step, H0.
Qed.

Lemma shr_step_0 r0 : 0 <= shr_m r0 -> shr_step 0 r0 r0.
Proof.
  intros H0. split; [exact H0|]. split; [now rewrite Z.div_1_r|].
  intros F; left; exact F.
Qed.

Lemma shr_spec mrs e n :
  0 <= shr_m mrs -> 0 <= n ->
  exists mrs', shr mrs e n = (mrs', e + n) /\ shr_step n mrs mrs'.
Proof.
  intros Hm Hn. destruct n as [|p|p]; [| |lia]; cbn [shr].
  - exists mrs. rewrite Z.add_0_r. split; [reflexivity | apply shr_step_0, Hm].
  - eexists. split; [reflexivity | apply iter_shr_1_step, Hm].
Qed.

(* ---- the first truncation ---- *)

Lemma fexp_eq e : SpecFloat.fexp prec emax e = Z.max (e - 53) (-1074).
Proof. reflexivity. Qed.

Lemma inbetween_bounds m e l x :
  inbetween m e l x -> (F2Q m e <= x /\ x < F2Q (m + 1) e)%Q.
Proof.
  assert (F2Q m e < F2Q (m + 1) e)%Q by (apply F2Q_lt; lia).
  destruct l; cbn [inbetween]; intros Hx; [rewrite Hx|]; split; lra.
Qed.

Lemma shr_fexp_floor mx ex lx x :
  0 <= mx -> ex <= SpecFloat.fexp prec emax (Zdigits2 mx + ex) ->
  inbetween mx ex lx x ->
  exists mrs,
    shr_fexp prec emax mx ex lx =
      (mrs, SpecFloat.fexp prec emax (Zdigits2 mx + ex)) /\
    0 <= shr_m mrs < 2 ^ 53 /\
    (-1074 < SpecFloat.fexp prec emax (Zdigits2 mx + ex) ->
     2 ^ 52 <= shr_m mrs) /\
    (F2Q (shr_m mrs) (SpecFloat.fexp prec emax (Zdigits2 mx + ex)) <= x)%Q /\
    (x < F2Q (shr_m mrs + 1) (SpecFloat.fexp prec emax (Zdigits2 mx + ex)))%Q /\
    (loc_of_shr_record mrs <> loc_Exact ->
     F2Q (shr_m mrs) (SpecFloat.fexp prec emax (Zdigits2 mx + ex)) < x)%Q.
Proof.
  intros Hm He Hx.
  set (e1 := SpecFloat.fexp prec emax (Zdigits2 mx + ex)) in *.
  assert (Hn : 0 <= e1 - ex) by lia.
  assert (Hm0 : 0 <= shr_m (shr_record_of_loc mx lx)).
  { destruct lx as [|[]]; exact Hm. }
  destruct (shr_spec (shr_record_of_loc mx lx) ex (e1 - ex) Hm0 Hn)
    as (mrs & Eshr & Hpos & Ediv & Hflag).
  exists mrs. split.
  { unfold shr_fexp. fold e1. rewrite Eshr. f_equal. lia. }
  assert (Em : shr_m (shr_record_of_loc mx lx) = mx)
    by (destruct lx as [|[]]; reflexivity).
  rewrite Em in Ediv, Hflag.
  pose proof (pow2_pos (e1 - ex) Hn) as Hp.
  set (m1 := shr_m mrs) in *.
  assert (Hlo : m1 * 2 ^ (e1 - ex) <= mx).
  { rewrite Ediv, Z.mul_comm. apply Z.mul_div_le. lia. }
  assert (Hhi : mx < (m1 + 1) * 2 ^ (e1 - ex)).
  { rewrite Ediv, Z.mul_comm. apply Z.mul_succ_div_gt. lia. }
  assert (Es : forall m, (F2Q (m * 2 ^ (e1 - ex)) ex == F2Q m e1)%Q).
  { intros m. rewrite F2Q_shift by lia. replace (ex + (e1 - ex)) with e1 by lia.
    reflexivity. }
  destruct (inbetween_bounds _ _ _ _ Hx) as [Hx1 Hx2].
  assert (Q1 : (F2Q m1 e1 <= F2Q mx ex)%Q).
  { rewrite <- Es. apply F2Q_le, Hlo. }
  assert (Q2 : (F2Q (mx + 1) ex <= F2Q (m1 + 1) e1)%Q).
  { rewrite <- Es. apply F2Q_le. lia. }
  split; [|split; [|split; [lra|split; [lra|]]]].
  - split; [exact Hpos|].
    destruct (Z.eq_dec mx 0) as [->|Hnz].
    + rewrite Ediv, Z.div_0_l by lia. lia.
    + destruct (Zdigits2_bounds mx ltac:(lia)) as [_ Hd].
      rewrite Ediv. apply Z.div_lt_upper_bound; [lia|].
      rewrite <- Z.pow_add_r by lia.
      eapply Z.lt_le_trans; [exact Hd|]. apply pow2_le.
      * unfold e1. rewrite fexp_eq. lia.
      * apply Zdigits2_nonneg.
  - intros Hnorm.
    destruct (Z.eq_dec mx 0) as [->|Hnz].
    + exfalso. unfold e1 in *. rewrite fexp_eq in *. cbn [Zdigits2] in *. lia.
    + destruct (Zdigits2_bounds mx ltac:(lia)) as [Hd _].
      assert (En : e1 - ex = Zdigits2 mx - 53).
      { unfold e1 in *. rewrite fexp_eq in *. lia. }
      rewrite Ediv. apply Z.div_le_lower_bound; [lia|].
      rewrite <- Z.pow_add_r by lia.
      replace (e1 - ex + 52) with (Zdigits2 mx - 1) by lia. exact Hd.
  - intros Hloc.
    assert (F : orb (shr_r mrs) (shr_s mrs) = true).
    { destruct mrs as [m [] []]; try reflexivity. contradiction Hloc.
      reflexivity. }
    destruct (Hflag F) as [G|G].
    + assert (F2Q mx ex < x)%Q; [|lra].
      destruct lx as [|c]; [discriminate G|]. exact (proj1 Hx).
    + assert (m1 * 2 ^ (e1 - ex) < mx).
      { rewrite Ediv in *. pose proof (Z.div_mod mx (2 ^ (e1 - ex)) ltac:(lia)).
        pose proof (Z.mod_pos_bound mx (2 ^ (e1 - ex)) Hp). lia. }
      assert (F2Q m1 e1 < F2Q mx ex)%Q; [|lra].
      rewrite <- Es. apply F2Q_lt. assumption.
Qed.

(* ---- representable bounds and the grid ---- *)

Lemma Zdigits2_le m k : 0 < m -> 0 <= k -> m < 2 ^ k -> Zdigits2 m <= k.
Proof.
  intros Hm Hk Hlt. destruct (Zdigits2_bounds m Hm) as [Hd _].
  pose proof (Zdigits2_nonneg m).
  destruct (Z_le_gt_dec (Zdigits2 m) k) as [|Hgt]; [assumption|].
  assert (2 ^ k <= 2 ^ (Zdigits2 m - 1)) by (apply pow2_le; lia). lia.
Qed.

Lemma Zdigits2_gt m k : 0 <= k -> 2 ^ k <= m -> k < Zdigits2 m.
Proof.
  intros Hk Hle. pose proof (pow2_pos k Hk).
  destruct (Zdigits2_bounds m ltac:(lia)) as [_ Hd].
  pose proof (Zdigits2_nonneg m).
  destruct (Z_lt_le_dec k (Zdigits2 m)) as [|Hge]; [assumption|].
  assert (2 ^ Zdigits2 m <= 2 ^ k) by (apply pow2_le; lia). lia.
Qed.

Lemma F2Q_pow2 e : (F2Q (2 ^ 53) e == F2Q (2 ^ 52) (e + 1))%Q.
Proof. rewrite <- F2Q_shift by lia. reflexivity. Qed.

(** A representable number below a normal grid point [m1 * 2^e1] ... *)
Lemma grid_small (b : Q) m1 e1 :
  representable b -> 2 ^ 52 <= m1 ->
  (forall mb eb, Z.abs mb <= 2 ^ 53 -> (b == F2Q mb eb)%Q -> eb < e1 ->
                 (b <= F2Q m1 e1)%Q).
Proof.
  intros _ Hm mb eb Hmb Eb He. rewrite Eb.
  apply Qle_trans with (F2Q (2 ^ 53) eb); [apply F2Q_le; lia|].
  rewrite F2Q_pow2.
  apply Qle_trans with (F2Q (2 ^ 52) e1); [apply F2Q_exp_le; lia|].
  apply F2Q_le, Hm.
Qed.

Lemma grid_ceil (b : Q) m1 e1 :
  representable b -> 0 <= m1 -> -1074 <= e1 ->
  (-1074 < e1 -> 2 ^ 52 <= m1) ->
  (F2Q m1 e1 < b)%Q -> (F2Q (m1 + 1) e1 <= b)%Q.
Proof.
  intros Hb Hm He Hn Hlt. destruct Hb as (mb & eb & Hmb & Heb & Eb).
  destruct (Z_lt_le_dec eb e1) as [Hs|Hs].
  - pose proof (grid_small b m1 e1 (ex_intro _ mb (ex_intro _ eb (conj Hmb (conj Heb Eb))))
                  (Hn ltac:(lia)) mb eb Hmb Eb Hs). lra.
  - assert (E : (b == F2Q (mb * 2 ^ (eb - e1)) e1)%Q).
    { rewrite Eb, F2Q_shift by lia. replace (e1 + (eb - e1)) with eb by lia.
      reflexivity. }
    rewrite E in *. apply F2Q_lt_inv in Hlt. apply F2Q_le. lia.
Qed.

Lemma grid_floor (a : Q) m1 e1 :
  representable a -> 0 <= m1 -> -1074 <= e1 ->
  (-1074 < e1 -> 2 ^ 52 <= m1) ->
  (a < F2Q (m1 + 1) e1)%Q -> (a <= F2Q m1 e1)%Q.
Proof.
  intros Ha Hm He Hn Hlt. destruct Ha as (ma & ea & Hma & Hea & Ea).
  destruct (Z_lt_le_dec ea e1) as [Hs|Hs].
  - exact (grid_small a m1 e1 (ex_intro _ ma (ex_intro _ ea (conj Hma (conj Hea Ea))))
             (Hn ltac:(lia)) ma ea Hma Ea Hs).
  - assert (E : (a == F2Q (ma * 2 ^ (ea - e1)) e1)%Q).
    { rewrite Ea, F2Q_shift by lia. replace (e1 + (ea - e1)) with ea by lia.
      reflexivity. }
    rewrite E in *. apply F2Q_lt_inv in Hlt. apply F2Q_le. lia.
Qed.

(* ---- rounding to nearest, the renormalisation, the result ---- *)

Lemma round_nearest_even_spec m l :
  m <= round_nearest_even m l <= m + 1 /\
  (round_nearest_even m l <> m -> l <> loc_Exact).
Proof.
  destruct l as [|[]]; cbn [round_nearest_even];
    try destruct (Z.even m); split; try lia; intros; discriminate.
Qed.

Lemma binary_round_aux_finish mx ex lx :
  binary_round_aux prec emax false mx ex lx =
  let '(mrs', e') := shr_fexp prec emax mx ex lx in
  finish (round_nearest_even (shr_m mrs') (loc_of_shr_record mrs')) e'.
Proof. reflexivity. Qed.

Lemma binary_round_aux_opp mx ex lx :
  binary_round_aux prec emax true mx ex lx =
  SFopp (binary_round_aux prec emax false mx ex lx).
Proof.
  unfold binary_round_aux.
  destruct (shr_fexp prec emax mx ex lx) as [mrs' e'].
  destruct (shr_fexp prec emax _ e' loc_Exact) as [mrs'' e''].
  destruct (shr_m mrs''); try reflexivity.
  destruct (e'' <=? emax - prec); reflexivity.
Qed.

Lemma finish_spec m2 e1 :
  0 <= m2 <= 2 ^ 53 -> -1074 <= e1 -> (-1074 < e1 -> 2 ^ 52 <= m2) ->
  let r := finish m2 e1 in
  valid_binary r = true /\
  match r with
  | S754_zero false => m2 = 0
  | S754_finite false m3 e3 => (F2Q (Z.pos m3) e3 == F2Q m2 e1)%Q
  | S754_infinity false => (bpow 1024 <= F2Q m2 e1)%Q
  | _ => False
  end.
Proof.
  intros Hm He Hn r.
  destruct (Z.eq_dec m2 (2 ^ 53)) as [->|Hne].
  - (* the mantissa overflowed: one more shift *)
    assert (E : finish (2 ^ 53) e1 =
                if e1 + 1 <=? 971 then S754_finite false (Z.to_pos (2 ^ 52)) (e1 + 1)
                else S754_infinity false).
    { unfold finish, shr_fexp.
      replace (SpecFloat.fexp prec emax (Zdigits2 (2 ^ 53) + e1) - e1) with 1
        by (rewrite fexp_eq; change (Zdigits2 (2 ^ 53)) with 54; lia).
      reflexivity. }
    subst r. rewrite E. destruct (Z.leb_spec (e1 + 1) 971) as [Hle|Hgt].
    + split.
      * cbn [valid_binary]. unfold bounded, canonical_mantissa.
        apply andb_true_iff. split; [|apply Z.leb_le; exact Hle].
        apply Z.eqb_eq. rewrite fexp_eq.
        change (Z.pos (digits2_pos (Z.to_pos (2 ^ 52)))) with 53. lia.
      * change (Z.pos (Z.to_pos (2 ^ 52))) with (2 ^ 52). symmetry.
        apply F2Q_pow2.
    + split; [reflexivity|]. rewrite F2Q_pow2.
      apply Qle_trans with (F2Q (2 ^ 52) 972); [vm_compute; discriminate|].
      apply F2Q_exp_le; lia.
  - assert (E : finish m2 e1 =
                match m2 with
                | Z0 => S754_zero false
                | Zpos m => if e1 <=? 971 then S754_finite false m e1
                            else S754_infinity false
                | Zneg _ => S754_nan
                end).
    { unfold finish, shr_fexp.
      assert (Hs : SpecFloat.fexp prec emax (Zdigits2 m2 + e1) - e1 <= 0).
      { rewrite fexp_eq. destruct (Z.eq_dec m2 0) as [->|Hnz].
        - cbn [Zdigits2]. lia.
        - pose proof (Zdigits2_le m2 53 ltac:(lia) ltac:(lia) ltac:(lia)). lia. }
      destruct (SpecFloat.fexp prec emax (Zdigits2 m2 + e1) - e1) as [|p|p];
        [reflexivity | lia | reflexivity]. }
    subst r. rewrite E. destruct m2 as [|m|m]; [split; reflexivity | | lia].
    destruct (Z.leb_spec e1 971) as [Hle|Hgt].
    + split; [|reflexivity].
      cbn [valid_binary]. unfold bounded, canonical_mantissa.
      apply andb_true_iff. split; [|apply Z.leb_le; exact Hle].
      apply Z.eqb_eq. rewrite fexp_eq.
      change (Z.pos (digits2_pos m)) with (Zdigits2 (Z.pos m)).
      pose proof (Zdigits2_le (Z.pos m) 53 ltac:(lia) ltac:(lia) ltac:(lia)).
      destruct (Z.eq_dec e1 (-1074)) as [->|Hnz]; [lia|].
      pose proof (Zdigits2_gt (Z.pos m) 52 ltac:(lia) (Hn ltac:(lia))). lia.
    + split; [reflexivity|].
      apply Qle_trans with (F2Q (2 ^ 52) 972); [vm_compute; discriminate|].
      apply Qle_trans with (F2Q (2 ^ 52) e1); [apply F2Q_exp_le; lia|].
      apply F2Q_le, Hn. lia.
Qed.

(* ---- the rounding of a real number ---- *)

Lemma F2Q_0 e : (F2Q 0 e == 0)%Q.
Proof. unfold F2Q. ring. Qed.

Lemma round_pos_rounds mx ex lx x :
  0 <= mx -> ex <= SpecFloat.fexp prec emax (Zdigits2 mx + ex) ->
  inbetween mx ex lx x ->
  rounds_to x (binary_round_aux prec emax false mx ex lx).
Proof.
  intros Hm He Hx.
  destruct (shr_fexp_floor mx ex lx x Hm He Hx)
    as (mrs & Eshr & [Hm0 Hm1] & Hnorm & Hlo & Hhi & Hinex).
  rewrite binary_round_aux_finish, Eshr.
  set (e1 := SpecFloat.fexp prec emax (Zdigits2 mx + ex)) in *.
  set (m1 := shr_m mrs) in *.
  destruct (round_nearest_even_spec m1 (loc_of_shr_record mrs)) as [[R1 R2] R3].
  set (m2 := round_nearest_even m1 (loc_of_shr_record mrs)) in *.
  assert (He1 : -1074 <= e1) by (unfold e1; rewrite fexp_eq; lia).
  destruct (finish_spec m2 e1 ltac:(lia) He1 ltac:(lia)) as [Hvalid Hres].
  assert (Hup : forall b, representable b -> (x <= b)%Q -> (F2Q m2 e1 <= b)%Q).
  { intros b Hb Hxb. destruct (Z.eq_dec m2 m1) as [->|Hne]; [lra|].
    replace m2 with (m1 + 1) by lia.
    apply grid_ceil; try assumption. specialize (Hinex (R3 Hne)). lra. }
  assert (Hdown : forall a, representable a -> (a <= x)%Q -> (a <= F2Q m2 e1)%Q).
  { intros a Ha Hax.
    apply Qle_trans with (F2Q m1 e1); [|apply F2Q_le; lia].
    apply grid_floor; try assumption. lra. }
  split; [exact Hvalid|]. split.
  - intros b Hb Hxb Hb1. specialize (Hup b Hb Hxb).
    destruct (finish m2 e1) as [[]|[]| |[] m3 e3]; try contradiction;
      cbn [SFle_Q SF2Q].
    + rewrite Hres, F2Q_0 in Hup. exact Hup.
    + lra.
    + rewrite Hres. exact Hup.
  - intros a Ha Hax _. specialize (Hdown a Ha Hax).
    destruct (finish m2 e1) as [[]|[]| |[] m3 e3]; try contradiction;
      cbn [SFge_Q SF2Q].
    + rewrite Hres, F2Q_0 in Hdown. exact Hdown.
    + reflexivity.
    + rewrite Hres. exact Hdown.
Qed.

Lemma representable_opp q : representable q -> representable (- q)%Q.
Proof.
  intros (m & e & Hm & He & E). exists (- m), e.
  split; [lia|]. split; [exact He|].
  rewrite E. unfold F2Q. rewrite inject_Z_opp. ring.
Qed.

Lemma SF2Q_opp r : (SF2Q (SFopp r) == - SF2Q r)%Q.
Proof.
  destruct r as [s|s| |s m e]; cbn [SFopp SF2Q]; try reflexivity.
  unfold F2Q. destruct s; cbn [negb signed];
    change (Z.neg m) with (- Z.pos m); rewrite inject_Z_opp; ring.
Qed.

Lemma valid_binary_opp r : valid_binary (SFopp r) = valid_binary r.
Proof. destruct r; reflexivity. Qed.

Lemma rounds_to_opp x r : rounds_to x r -> rounds_to (- x)%Q (SFopp r).
Proof.
  intros (Hv & Hu & Hl). split; [rewrite valid_binary_opp; exact Hv|]. split.
  - intros b Hb Hxb Hb1.
    specialize (Hl (- b)%Q (representable_opp _ Hb) ltac:(lra) ltac:(lra)).
    pose proof (SF2Q_opp r) as E.
    destruct r as [s|s| |s m e]; cbn [SFopp SFle_Q SFge_Q] in *;
      try (rewrite E; lra); try contradiction.
    subst s. reflexivity.
  - intros a Ha Hxa Ha1.
    specialize (Hu (- a)%Q (representable_opp _ Ha) ltac:(lra) ltac:(lra)).
    pose proof (SF2Q_opp r) as E.
    destruct r as [s|s| |s m e]; cbn [SFopp SFle_Q SFge_Q] in *;
      try (rewrite E; lra); try contradiction.
    subst s. reflexivity.
Qed.

Lemma rounds_to_ext x y r : (x == y)%Q -> rounds_to x r -> rounds_to y r.
Proof.
  intros E (Hv & Hu & Hl). split; [exact Hv|].
  split; intros c Hc H1 H2; [apply Hu | apply Hl]; try assumption; lra.
Qed.

(* ---- normalising an integer mantissa ---- *)

Lemma iter_xO_pow2 (m d : positive) :
  Z.pos (Pos.iter xO m d) = Z.pos m * 2 ^ Z.pos d.
Proof.
  induction d as [|d IH] using Pos.peano_ind.
  - cbn [Pos.iter]. lia.
  - rewrite Pos.iter_succ, Pos2Z.inj_succ, Z.pow_succ_r by lia.
    change (Z.pos (Pos.iter xO m d)~0) with (2 * Z.pos (Pos.iter xO m d)).
    rewrite IH. ring.
Qed.

Lemma shl_align_spec mx ex ex' :
  exists mz ez, shl_align mx ex ex' = (mz, ez) /\
    ez = Z.min ex ex' /\ Z.pos mz = Z.pos mx * 2 ^ (ex - ez).
Proof.
  unfold shl_align. destruct (ex' - ex) as [|d|d] eqn:E.
  - exists mx, ex. split; [reflexivity|]. split; [lia|].
    rewrite Z.sub_diag. lia.
  - exists mx, ex. split; [reflexivity|]. split; [lia|].
    rewrite Z.sub_diag. lia.
  - eexists _, _. split; [reflexivity|]. split; [lia|].
    rewrite iter_xO_pow2. f_equal. f_equal. lia.
Qed.

Lemma Zdigits2_shift m k :
  0 < m -> 0 <= k -> Zdigits2 (m * 2 ^ k) = Zdigits2 m + k.
Proof.
  intros Hm Hk. destruct (Zdigits2_bounds m Hm) as [H1 H2].
  pose proof (pow2_pos k Hk) as Hp. pose proof (Zdigits2_nonneg m) as Hd.
  assert (0 < Zdigits2 m).
  { destruct m; try lia. cbn. lia. }
  apply Z.le_antisymm.
  - apply Zdigits2_le; [nia | lia |]. rewrite Z.pow_add_r by lia. nia.
  - assert (Zdigits2 m + k - 1 < Zdigits2 (m * 2 ^ k)); [|lia].
    apply Zdigits2_gt; [lia|].
    replace (Zdigits2 m + k - 1) with (Zdigits2 m - 1 + k) by lia.
    rewrite Z.pow_add_r by lia. nia.
Qed.

Lemma binary_round_rounds (s : bool) (mx : positive) (ex : Z) :
  rounds_to (F2Q (if s then Z.neg mx else Z.pos mx) ex)
            (binary_round prec emax s mx ex).
Proof.
  unfold binary_round.
  destruct (shl_align_spec mx ex
              (SpecFloat.fexp prec emax (Z.pos (digits2_pos mx) + ex)))
    as (mz & ez & -> & Eez & Emz).
  assert (Hk : 0 <= ex - ez) by lia.
  assert (Ev : (F2Q (Z.pos mz) ez == F2Q (Z.pos mx) ex)%Q).
  { rewrite Emz, F2Q_shift by lia. replace (ez + (ex - ez)) with ex by lia.
    reflexivity. }
  assert (Hpos : rounds_to (F2Q (Z.pos mx) ex)
                   (binary_round_aux prec emax false (Z.pos mz) ez loc_Exact)).
  { apply round_pos_rounds; [lia | | cbn [inbetween]; symmetry; exact Ev].
    rewrite Emz, Zdigits2_shift by lia.
    replace (Zdigits2 (Z.pos mx) + (ex - ez) + ez)
      with (Z.pos (digits2_pos mx) + ex) by (cbn [Zdigits2]; lia).
    lia. }
  destruct s; [|exact Hpos].
  rewrite binary_round_aux_opp.
  apply (rounds_to_ext (- F2Q (Z.pos mx) ex)%Q); [|apply rounds_to_opp, Hpos].
  unfold F2Q. change (Z.neg mx) with (- Z.pos mx). rewrite inject_Z_opp. ring.
Qed.

Lemma rounds_to_zero x s : (x == 0)%Q -> rounds_to x (S754_zero s).
Proof.
  intros E. split; [reflexivity|].
  split; intros c _ H _; cbn [SFle_Q SFge_Q SF2Q]; lra.
Qed.

Lemma binary_normalize_rounds m e szero :
  rounds_to (F2Q m e) (binary_normalize prec emax m e szero).
Proof.
  destruct m as [|p|p]; cbn [binary_normalize].
  - apply rounds_to_zero, F2Q_0.
  - apply (binary_round_rounds false).
  - apply (binary_round_rounds true).
Qed.

(* ---- valid floats ---- *)

Lemma bounded_facts m e :
  bounded prec emax m e = true ->
  Z.pos m < 2 ^ 53 /\ -1074 <= e <= 971 /\ (-1074 < e -> 2 ^ 52 <= Z.pos m).
Proof.
  unfold bounded, canonical_mantissa. intros H.
  apply andb_true_iff in H as [Hc He].
  apply Z.eqb_eq in Hc. apply Z.leb_le in He. rewrite fexp_eq in Hc.
  change (emax - prec) with 971 in He.
  change (Z.pos (digits2_pos m)) with (Zdigits2 (Z.pos m)) in Hc.
  destruct (Zdigits2_bounds (Z.pos m) ltac:(lia)) as [H1 H2].
  assert (Hd : Zdigits2 (Z.pos m) <= 53) by lia.
  pose proof (Zdigits2_nonneg (Z.pos m)) as Hd0.
  split; [|split; [lia|]].
  - eapply Z.lt_le_trans; [exact H2|]. apply pow2_le; lia.
  - intros Hn. replace 52 with (Zdigits2 (Z.pos m) - 1) by lia. exact H1.
Qed.

Lemma rounds_to_self y :
  SFfinite y = true -> valid_binary y = true -> rounds_to (SF2Q y) y.
Proof.
  intros Hf Hv. split; [exact Hv|].
  split; intros c _ H _; destruct y; try discriminate;
    cbn [SFle_Q SFge_Q] in *; exact H.
Qed.

Lemma rounds_to_sandwich x r a b :
  rounds_to x r -> representable a -> representable b ->
  (- bpow 1024 < a)%Q -> (b < bpow 1024)%Q -> (a <= x)%Q -> (x <= b)%Q ->
  SFfinite r = true /\ (a <= SF2Q r)%Q /\ (SF2Q r <= b)%Q.
Proof.
  intros (_ & Hu & Hl) Ha Hb Ha1 Hb1 Hax Hxb.
  specialize (Hu b Hb Hxb Hb1). specialize (Hl a Ha Hax Ha1).
  destruct r as [s|s| |s m e]; cbn [SFle_Q SFge_Q SFfinite] in *;
    try contradiction; try (split; [reflexivity|split; assumption]).
  congruence.
Qed.

(* ---- addition and subtraction ---- *)

Lemma cond_Zopp_signed s m : cond_Zopp s (Z.pos m) = signed s m.
Proof. destruct s; reflexivity. Qed.

Lemma F2Q_align (s : bool) (mx : positive) (ex ez : Z) :
  ez <= ex ->
  (F2Q (cond_Zopp s (Z.pos (fst (shl_align mx ex ez)))) ez ==
   F2Q (signed s mx) ex)%Q.
Proof.
  intros Hle. destruct (shl_align_spec mx ex ez) as (mz & ez' & -> & -> & Em).
  cbn [fst]. rewrite Z.min_r in Em by lia.
  assert (E : cond_Zopp s (Z.pos mz) = signed s mx * 2 ^ (ex - ez)).
  { destruct s; unfold cond_Zopp, signed; rewrite <- ?Pos2Z.opp_pos, Em.
    all: ring. }
  rewrite E, F2Q_shift by lia. replace (ez + (ex - ez)) with ex by lia.
  reflexivity.
Qed.

Lemma F2Q_plus m m' e : (F2Q (m + m') e == F2Q m e + F2Q m' e)%Q.
Proof. unfold F2Q. rewrite inject_Z_plus. ring. Qed.

Lemma F2Q_minus m m' e : (F2Q (m - m') e == F2Q m e - F2Q m' e)%Q.
Proof. unfold F2Q, Z.sub. rewrite inject_Z_plus, inject_Z_opp. ring. Qed.

Lemma SF2Q_finite s m e : SF2Q (S754_finite s m e) = F2Q (signed s m) e.
Proof. reflexivity. Qed.

Lemma SFadd_rounds x y :
  SFfinite x = true -> SFfinite y = true ->
  valid_binary x = true -> valid_binary y = true ->
  rounds_to (SF2Q x + SF2Q y) (SF64add x y).
Proof.
  intros Fx Fy Vx Vy.
  destruct x as [sx|sx| |sx mx ex], y as [sy|sy| |sy my ey]; try discriminate;
    unfold SF64add; cbn [SFadd].
  - destruct sx, sy; apply rounds_to_zero; reflexivity.
  - apply (rounds_to_ext (SF2Q (S754_finite sy my ey)));
      [cbn [SF2Q]; ring | apply rounds_to_self; assumption].
  - apply (rounds_to_ext (SF2Q (S754_finite sx mx ex)));
      [cbn [SF2Q]; ring | apply rounds_to_self; assumption].
  - eapply rounds_to_ext; [|apply binary_normalize_rounds].
    rewrite F2Q_plus, !F2Q_align by lia. reflexivity.
Qed.

Lemma SFsub_rounds x y :
  SFfinite x = true -> SFfinite y = true ->
  valid_binary x = true -> valid_binary y = true ->
  rounds_to (SF2Q x - SF2Q y) (SF64sub x y).
Proof.
  intros Fx Fy Vx Vy.
  destruct x as [sx|sx| |sx mx ex], y as [sy|sy| |sy my ey]; try discriminate;
    unfold SF64sub; cbn [SFsub].
  - destruct sx, sy; apply rounds_to_zero; reflexivity.
  - apply (rounds_to_ext (SF2Q (SFopp (S754_finite sy my ey))));
      [rewrite SF2Q_opp; cbn [SF2Q]; ring|].
    apply (rounds_to_self (S754_finite (negb sy) my ey)); assumption.
  - apply (rounds_to_ext (SF2Q (S754_finite sx mx ex)));
      [cbn [SF2Q]; ring | apply rounds_to_self; assumption].
  - eapply rounds_to_ext; [|apply binary_normalize_rounds].
    rewrite F2Q_minus, !F2Q_align by lia. reflexivity.
Qed.

(* ---- multiplication ---- *)

Lemma F2Q_mult m m' e e' : (F2Q (m * m') (e + e') == F2Q m e * F2Q m' e')%Q.
Proof. unfold F2Q. rewrite inject_Z_mult, bpow_add. ring. Qed.

Lemma signed_xorb sx sy mx my :
  signed (xorb sx sy) (mx * my) = signed sx mx * signed sy my.
Proof. destruct sx, sy; reflexivity. Qed.

Lemma Zdigits2_pos_pos m : 0 < m -> 0 < Zdigits2 m.
Proof. destruct m; try lia. intros _. cbn. lia. Qed.

Lemma SFmul_rounds x y :
  SFfinite x = true -> SFfinite y = true ->
  valid_binary x = true -> valid_binary y = true ->
  rounds_to (SF2Q x * SF2Q y) (SF64mul x y).
Proof.
  intros Fx Fy Vx Vy.
  destruct x as [sx|sx| |sx mx ex], y as [sy|sy| |sy my ey]; try discriminate;
    unfold SF64mul; cbn [SFmul];
    try (apply rounds_to_zero; cbn [SF2Q]; ring).
  cbn [valid_binary] in Vx, Vy.
  destruct (bounded_facts _ _ Vx) as (Hx1 & Hx2 & Hx3).
  destruct (bounded_facts _ _ Vy) as (Hy1 & Hy2 & Hy3).
  assert (Hpos : rounds_to (F2Q (Z.pos (mx * my)) (ex + ey))
                   (binary_round_aux prec emax false (Z.pos (mx * my))
                      (ex + ey) loc_Exact)).
  { apply round_pos_rounds; [lia | | cbn [inbetween]; reflexivity].
    rewrite fexp_eq.
    destruct (Z_le_gt_dec (ex + ey) (-1074)) as [Hs|Hs]; [lia|].
    assert (Hd : 52 < Zdigits2 (Z.pos (mx * my))); [|lia].
    apply Zdigits2_gt; [lia|]. rewrite Pos2Z.inj_mul.
    destruct (Z_le_gt_dec ex (-1074)) as [Hex|Hex].
    - specialize (Hy3 ltac:(lia)). nia.
    - specialize (Hx3 ltac:(lia)). nia. }
  apply (rounds_to_ext (F2Q (signed (xorb sx sy) (mx * my)) (ex + ey))).
  { rewrite signed_xorb, F2Q_mult. reflexivity. }
  destruct (xorb sx sy); [|exact Hpos].
  rewrite binary_round_aux_opp.
  eapply rounds_to_ext; [|apply rounds_to_opp, Hpos].
  unfold F2Q, signed. change (Z.neg (mx * my)) with (- Z.pos (mx * my)).
  rewrite inject_Z_opp. ring.
Qed.

(* ---- division ---- *)

Lemma new_location_exact m r :
  new_location m r = loc_Exact <-> r = 0.
Proof.
  unfold new_location, new_location_even, new_location_odd.
  destruct (Z.even m); destruct (Z.eqb_spec r 0); split;
    try tauto; try discriminate; intros; exfalso; tauto.
Qed.

Lemma SFdiv_core_binary_spec (mx my : positive) (ex ey : Z) :
  exists mz ez lz,
    SFdiv_core_binary prec emax (Z.pos mx) ex (Z.pos my) ey = (mz, ez, lz) /\
    0 <= mz /\ ez <= SpecFloat.fexp prec emax (Zdigits2 mz + ez) /\
    inbetween mz ez lz (F2Q (Z.pos mx) ex / F2Q (Z.pos my) ey).
Proof.
  unfold SFdiv_core_binary.
  set (d1 := Zdigits2 (Z.pos mx)). set (d2 := Zdigits2 (Z.pos my)).
  set (e' := Z.min (SpecFloat.fexp prec emax (d1 + ex - (d2 + ey))) (ex - ey)).
  set (s := ex - ey - e').
  assert (Hs : 0 <= s) by (unfold s, e'; lia).
  set (m' := match s with
             | 0 => Z.pos mx
             | Z.pos _ => Z.shiftl (Z.pos mx) s
             | Z.neg _ => 0
             end).
  assert (Em' : m' = Z.pos mx * 2 ^ s).
  { unfold m'. destruct s as [|p|p]; [lia | | lia].
    apply Z.shiftl_mul_pow2. lia. }
  pose proof (Z_div_mod m' (Z.pos my) ltac:(lia)) as Hdm.
  destruct (Z.div_eucl m' (Z.pos my)) as [q r]. destruct Hdm as [Eq Hr].
  pose proof (pow2_pos s Hs) as Hp.
  assert (Hq : 0 <= q) by nia.
  exists q, e', (new_location (Z.pos my) r).
  split; [reflexivity|]. split; [exact Hq|]. split.
  - rewrite fexp_eq.
    destruct (Z_le_gt_dec e' (-1074)) as [Hle|Hgt]; [lia|].
    assert (Hd : 52 < Zdigits2 q); [|lia].
    apply Zdigits2_gt; [lia|].
    destruct (Zdigits2_bounds (Z.pos mx) ltac:(lia)) as [Hx1 _].
    destruct (Zdigits2_bounds (Z.pos my) ltac:(lia)) as [_ Hy2].
    fold d1 in Hx1. fold d2 in Hy2.
    pose proof (Zdigits2_pos_pos (Z.pos mx) ltac:(lia)) as Hd1. fold d1 in Hd1.
    pose proof (Zdigits2_pos_pos (Z.pos my) ltac:(lia)) as Hd2. fold d2 in Hd2.
    assert (Hs' : 53 - d1 + d2 <= s).
    { unfold s, e' in *. rewrite fexp_eq in *. lia. }
    assert (H1 : 2 ^ 52 * 2 ^ d2 <= m').
    { rewrite Em', <- Z.pow_add_r by lia.
      apply Z.le_trans with (2 ^ (d1 - 1) * 2 ^ s); [|nia].
      rewrite <- Z.pow_add_r by lia. apply pow2_le; lia. }
    destruct (Z_le_gt_dec (2 ^ 52) q) as [|Hlt]; [assumption|]. exfalso.
    assert (q + 1 <= 2 ^ 52) by lia.
    assert (m' < (q + 1) * Z.pos my) by lia.
    assert ((q + 1) * Z.pos my <= 2 ^ 52 * 2 ^ d2); [|lia].
    apply Z.mul_le_mono_nonneg; lia.
  - assert (Hy : (0 < F2Q (Z.pos my) ey)%Q).
    { unfold F2Q. apply Qmult_lt_0_compat; [reflexivity | apply bpow_pos]. }
    assert (Ex : (F2Q (Z.pos mx) ex ==
                  F2Q (q * Z.pos my + r) e' * bpow (ey))%Q).
    { replace (q * Z.pos my + r) with m' by lia.
      rewrite Em', F2Q_shift by lia. unfold F2Q.
      rewrite <- Qmult_assoc, <- bpow_add.
      replace (e' + s + ey) with ex by (unfold s; lia). reflexivity. }
    assert (Ediv : (F2Q (Z.pos mx) ex / F2Q (Z.pos my) ey ==
                    F2Q q e' + (inject_Z r / inject_Z (Z.pos my)) * bpow e')%Q).
    { rewrite Ex. unfold F2Q. rewrite inject_Z_plus, inject_Z_mult.
      pose proof (bpow_pos ey). pose proof (bpow_pos e').
      field. split; [discriminate | lra]. }
    destruct (new_location (Z.pos my) r) as [|c] eqn:El; cbn [inbetween].
    + apply new_location_exact in El. subst r. rewrite Ediv.
      unfold Qdiv. ring.
    + assert (Hr0 : r <> 0).
      { intros ->. assert (new_location (Z.pos my) 0 = loc_Exact)
          by (apply new_location_exact; reflexivity). congruence. }
      pose proof (bpow_pos e') as Hb.
      assert (Hfrac : (0 < inject_Z r / inject_Z (Z.pos my) /\
                       inject_Z r / inject_Z (Z.pos my) < 1)%Q).
      { split.
        - apply Qlt_shift_div_l; [reflexivity|]. rewrite Qmult_0_l.
          change 0%Q with (inject_Z 0). rewrite <- Zlt_Qlt. lia.
        - apply Qlt_shift_div_r; [reflexivity|]. rewrite Qmult_1_l.
          rewrite <- Zlt_Qlt. lia. }
      rewrite Ediv, F2Q_plus. unfold F2Q. change (inject_Z 1) with 1%Q.
      destruct Hfrac as [Hf0 Hf1].
      set (f := (inject_Z r / inject_Z (Z.pos my))%Q) in *.
      set (b := bpow e') in *. clearbody f b. clear - Hf0 Hf1 Hb.
      split; nra.
Qed.

Lemma SFdiv_rounds x y :
  SFfinite x = true ->
  valid_binary x = true -> valid_binary y = true ->
  (exists s m e, y = S754_finite s m e) ->
  rounds_to (SF2Q x / SF2Q y) (SF64div x y).
Proof.
  intros Fx Vx Vy (sy & my & ey & ->).
  destruct x as [sx|sx| |sx mx ex]; try discriminate;
    unfold SF64div; cbn [SFdiv].
  - apply rounds_to_zero. cbn [SF2Q]. unfold Qdiv. ring.
  - destruct (SFdiv_core_binary_spec mx my ex ey)
      as (mz & ez & lz & -> & Hmz & Hez & Hin).
    pose proof (round_pos_rounds mz ez lz _ Hmz Hez Hin) as Hpos.
    assert (Hy : (0 < F2Q (Z.pos my) ey)%Q).
    { unfold F2Q. apply Qmult_lt_0_compat; [reflexivity | apply bpow_pos]. }
    assert (Eneg : forall m e, (F2Q (Z.neg m) e == - F2Q (Z.pos m) e)%Q).
    { intros m e. unfold F2Q. change (Z.neg m) with (- Z.pos m).
      rewrite inject_Z_opp. ring. }
    rewrite !SF2Q_finite.
    destruct sx, sy; cbn [xorb signed]; rewrite ?binary_round_aux_opp.
    + eapply rounds_to_ext; [|exact Hpos]. rewrite !Eneg. field. lra.
    + eapply rounds_to_ext; [|apply rounds_to_opp, Hpos]. rewrite !Eneg.
      field. lra.
    + eapply rounds_to_ext; [|apply rounds_to_opp, Hpos]. rewrite !Eneg.
      field. lra.
    + exact Hpos.
Qed.

(* ---- comparison ---- *)

Lemma F2Q_pos_pos m e : (0 < F2Q (Z.pos m) e)%Q.
Proof. unfold F2Q. apply Qmult_lt_0_compat; [reflexivity | apply bpow_pos]. Qed.

Lemma F2Q_neg m e : (F2Q (Z.neg m) e == - F2Q (Z.pos m) e)%Q.
Proof.
  unfold F2Q. change (Z.neg m) with (- Z.pos m). rewrite inject_Z_opp. ring.
Qed.

Lemma canonical_lt m1 e1 m2 e2 :
  bounded prec emax m1 e1 = true -> bounded prec emax m2 e2 = true ->
  e1 < e2 -> (F2Q (Z.pos m1) e1 < F2Q (Z.pos m2) e2)%Q.
Proof.
  intros B1 B2 He.
  destruct (bounded_facts _ _ B1) as (H1 & H1' & _).
  destruct (bounded_facts _ _ B2) as (_ & H2' & H2).
  apply Qlt_le_trans with (F2Q (2 ^ 53) e1); [apply F2Q_lt; exact H1|].
  rewrite F2Q_pow2.
  apply Qle_trans with (F2Q (2 ^ 52) e2); [apply F2Q_exp_le; lia|].
  apply F2Q_le, H2. lia.
Qed.

Lemma Qcompare_Lt x y : (x < y)%Q -> (x ?= y)%Q = Lt.
Proof. apply Qlt_alt. Qed.

Lemma Qcompare_Gt x y : (y < x)%Q -> (x ?= y)%Q = Gt.
Proof. apply Qgt_alt. Qed.

Lemma Qcompare_Eq x y : (x == y)%Q -> (x ?= y)%Q = Eq.
Proof. apply Qeq_alt. Qed.

Lemma pos_compare_F2Q m1 m2 e :
  (F2Q (Z.pos m1) e ?= F2Q (Z.pos m2) e)%Q = Pos.compare_cont Eq m1 m2.
Proof.
  change (Pos.compare_cont Eq m1 m2) with (m1 ?= m2)%positive.
  destruct (Pos.compare_spec m1 m2) as [->|H|H].
  - apply Qcompare_Eq. reflexivity.
  - apply Qcompare_Lt, F2Q_lt. lia.
  - apply Qcompare_Gt, F2Q_lt. lia.
Qed.

Lemma pos_compare_F2Q_neg m1 m2 e :
  (F2Q (Z.neg m1) e ?= F2Q (Z.neg m2) e)%Q =
  CompOpp (Pos.compare_cont Eq m1 m2).
Proof.
  change (Pos.compare_cont Eq m1 m2) with (m1 ?= m2)%positive.
  destruct (Pos.compare_spec m1 m2) as [->|H|H]; cbn [CompOpp].
  - apply Qcompare_Eq. reflexivity.
  - apply Qcompare_Gt, F2Q_lt. lia.
  - apply Qcompare_Lt, F2Q_lt. lia.
Qed.

Lemma SFcompare_spec x y :
  SFfinite x = true -> SFfinite y = true ->
  valid_binary x = true -> valid_binary y = true ->
  SFcompare x y = Some (SF2Q x ?= SF2Q y)%Q.
Proof.
  intros Fx Fy Vx Vy.
  destruct x as [sx|sx| |sx mx ex], y as [sy|sy| |sy my ey]; try discriminate;
    cbn [SFcompare SF2Q].
  - reflexivity.
  - pose proof (F2Q_pos_pos my ey). pose proof (F2Q_neg my ey).
    f_equal. symmetry.
    destruct sy; cbn [signed]; [apply Qcompare_Gt | apply Qcompare_Lt]; lra.
  - pose proof (F2Q_pos_pos mx ex). pose proof (F2Q_neg mx ex).
    f_equal. symmetry.
    destruct sx; cbn [signed]; [apply Qcompare_Lt | apply Qcompare_Gt]; lra.
  - cbn [valid_binary] in Vx, Vy.
    pose proof (F2Q_pos_pos mx ex). pose proof (F2Q_neg mx ex).
    pose proof (F2Q_pos_pos my ey). pose proof (F2Q_neg my ey).
    f_equal. symmetry.
    destruct sx, sy; cbn [signed].
    + destruct (Z.compare_spec ex ey) as [->|He|He].
      * apply pos_compare_F2Q_neg.
      * pose proof (canonical_lt _ _ _ _ Vx Vy He). apply Qcompare_Gt. lra.
      * pose proof (canonical_lt _ _ _ _ Vy Vx He). apply Qcompare_Lt. lra.
    + apply Qcompare_Lt. lra.
    + apply Qcompare_Gt. lra.
    + destruct (Z.compare_spec ex ey) as [->|He|He].
      * apply pos_compare_F2Q.
      * pose proof (canonical_lt _ _ _ _ Vx Vy He). apply Qcompare_Lt. lra.
      * pose proof (canonical_lt _ _ _ _ Vy Vx He). apply Qcompare_Gt. lra.
Qed.

Lemma SFltb_spec x y :
  SFfinite x = true -> SFfinite y = true ->
  valid_binary x = true -> valid_binary y = true ->
  SFltb x y = true <-> (SF2Q x < SF2Q y)%Q.
Proof.
  intros Fx Fy Vx Vy. unfold SFltb. rewrite SFcompare_spec by assumption.
  rewrite Qlt_alt. destruct (SF2Q x ?= SF2Q y)%Q; split; congruence.
Qed.

Lemma SFleb_spec x y :
  SFfinite x = true -> SFfinite y = true ->
  valid_binary x = true -> valid_binary y = true ->
  SFleb x y = true <-> (SF2Q x <= SF2Q y)%Q.
Proof.
  intros Fx Fy Vx Vy. unfold SFleb. rewrite SFcompare_spec by assumption.
  rewrite Qle_alt. destruct (SF2Q x ?= SF2Q y)%Q; split; congruence.
Qed.

Lemma SFeqb_spec x y :
  SFfinite x = true -> SFfinite y = true ->
  valid_binary x = true -> valid_binary y = true ->
  SFeqb x y = true <-> (SF2Q x == SF2Q y)%Q.
Proof.
  intros Fx Fy Vx Vy. unfold SFeqb. rewrite SFcompare_spec by assumption.
  rewrite Qeq_alt. destruct (SF2Q x ?= SF2Q y)%Q; split; congruence.
Qed.

(* ---- the primitive operations ---- *)

Lemma add_rounds (x y : float) :
  Binary64.finite x = true -> Binary64.finite y = true ->
  rounds_to (Binary64.value x + Binary64.value y) (Prim2SF (x + y)).
Proof.
  intros Fx Fy. rewrite FloatAxioms.add_spec.
  apply SFadd_rounds; try assumption; apply Prim2SF_valid.
Qed.

Lemma sub_rounds (x y : float) :
  Binary64.finite x = true -> Binary64.finite y = true ->
  rounds_to (Binary64.value x - Binary64.value y) (Prim2SF (x - y)).
Proof.
  intros Fx Fy. rewrite FloatAxioms.sub_spec.
  apply SFsub_rounds; try assumption; apply Prim2SF_valid.
Qed.

Lemma mul_rounds (x y : float) :
  Binary64.finite x = true -> Binary64.finite y = true ->
  rounds_to (Binary64.value x * Binary64.value y) (Prim2SF (x * y)).
Proof.
  intros Fx Fy. rewrite FloatAxioms.mul_spec.
  apply SFmul_rounds; try assumption; apply Prim2SF_valid.
Qed.

Lemma SF2Q_zero_iff x :
  SFfinite x = true -> ((SF2Q x == 0)%Q <-> exists s, x = S754_zero s).
Proof.
  intros Fx. destruct x as [s|s| |s m e]; try discriminate; cbn [SF2Q].
  - split; [intros _; exists s; reflexivity | reflexivity].
  - pose proof (F2Q_pos_pos m e). pose proof (F2Q_neg m e).
    split; [|intros (s' & E); discriminate E].
    intros E. exfalso. destruct s; cbn [signed] in *; lra.
Qed.

Lemma div_rounds (x y : float) :
  Binary64.finite x = true -> Binary64.finite y = true -> ~ (Binary64.value y == 0)%Q ->
  rounds_to (Binary64.value x / Binary64.value y) (Prim2SF (x / y)).
Proof.
  intros Fx Fy Hy. rewrite FloatAxioms.div_spec.
  apply SFdiv_rounds; try assumption; try apply Prim2SF_valid.
  unfold Binary64.value, Binary64.finite in *.
  destruct (Prim2SF y) as [s|s| |s m e]; try discriminate.
  - contradiction Hy. reflexivity.
  - exists s, m, e. reflexivity.
Qed.

Lemma sandwich (v : Q) (z : float) (a b : Q) :
  rounds_to v (Prim2SF z) -> representable a -> representable b ->
  (- bpow 1024 < a)%Q -> (b < bpow 1024)%Q -> (a <= v)%Q -> (v <= b)%Q ->
  Binary64.finite z = true /\ (a <= Binary64.value z)%Q /\ (Binary64.value z <= b)%Q.
Proof. apply rounds_to_sandwich. Qed.

Lemma abs_finite (x : float) : Binary64.finite (abs x) = Binary64.finite x.
Proof. unfold Binary64.finite. rewrite FloatAxioms.abs_spec. destruct (Prim2SF x); reflexivity. Qed.

Lemma abs_value (x : float) : (Binary64.value (abs x) == Qabs (Binary64.value x))%Q.
Proof.
  unfold Binary64.value. rewrite FloatAxioms.abs_spec.
  destruct (Prim2SF x) as [s|s| |s m e]; cbn [SFabs SF2Q]; try reflexivity.
  pose proof (F2Q_pos_pos m e). pose proof (F2Q_neg m e).
  destruct s; cbn [signed].
  - rewrite H0, Qabs_opp, Qabs_pos by lra. reflexivity.
  - rewrite Qabs_pos by lra. reflexivity.
Qed.

(* ---- comparisons ---- *)

Lemma leb_value (x y : float) :
  Binary64.finite x = true -> Binary64.finite y = true ->
  ((x <=? y)%float = true <-> (Binary64.value x <= Binary64.value y)%Q).
Proof.
  intros Fx Fy. rewrite FloatAxioms.leb_spec.
  apply SFleb_spec; try assumption; apply Prim2SF_valid.
Qed.

Lemma ltb_value (x y : float) :
  Binary64.finite x = true -> Binary64.finite y = true ->
  ((x <? y)%float = true <-> (Binary64.value x < Binary64.value y)%Q).
Proof.
  intros Fx Fy. rewrite FloatAxioms.ltb_spec.
  apply SFltb_spec; try assumption; apply Prim2SF_valid.
Qed.


(** A number between two finite numbers is finite. *)
Lemma between_finite (a x b : float) :
  Binary64.finite a = true -> Binary64.finite b = true ->
  (a <=? x)%float = true -> (x <=? b)%float = true -> Binary64.finite x = true.
Proof.
  unfold Binary64.finite. rewrite !FloatAxioms.leb_spec.
  destruct (Prim2SF a) as [sa|sa| |sa ma ea]; try discriminate;
    destruct (Prim2SF b) as [sb|sb| |sb mb eb]; try discriminate;
    destruct (Prim2SF x) as [s|[]| |s m e]; intros _ _; try reflexivity;
    cbn; try discriminate; destruct sa, sb; discriminate.
Qed.

(* ---- integers ---- *)

Lemma F2Q_Z m : (F2Q m 0 == inject_Z m)%Q.
Proof. unfold F2Q, bpow. cbn. ring. Qed.

Lemma representable_Z z : Z.abs z <= 2 ^ 53 -> representable (inject_Z z).
Proof.
  intros Hz. exists z, 0. split; [exact Hz|]. split; [lia|].
  symmetry. apply F2Q_Z.
Qed.

Lemma inject_Z_below z : Z.abs z <= 2 ^ 53 ->
  (- bpow 1024 < inject_Z z /\ inject_Z z < bpow 1024)%Q.
Proof.
  intros Hz.
  assert (H1 : (inject_Z (2 ^ 53) < bpow 1024)%Q) by (vm_compute; reflexivity).
  assert (H2 : (- inject_Z (2 ^ 53) <= inject_Z z)%Q).
  { rewrite <- inject_Z_opp, <- Zle_Qle. lia. }
  assert (H3 : (inject_Z z <= inject_Z (2 ^ 53))%Q).
  { rewrite <- Zle_Qle. lia. }
  split; lra.
Qed.

Lemma of_pos_Z_value z :
  0 <= z <= 2 ^ 53 ->
  Binary64.finite (Binary64.of_pos_Z z) = true /\ (Binary64.value (Binary64.of_pos_Z z) == inject_Z z)%Q.
Proof.
  intros Hz. unfold Binary64.of_pos_Z.
  assert (R : rounds_to (inject_Z z)
                (Prim2SF (of_uint63 (Uint63.of_Z z)))).
  { rewrite FloatAxioms.of_uint63_spec, Uint63.of_Z_spec, Z.mod_small
      by (change wB with (2 ^ 63); lia).
    eapply rounds_to_ext; [apply F2Q_Z | apply binary_normalize_rounds]. }
  pose proof (representable_Z z ltac:(lia)) as Hr.
  destruct (inject_Z_below z ltac:(lia)) as [H1 H2].
  destruct (sandwich _ _ _ _ R Hr Hr H1 H2 ltac:(lra) ltac:(lra))
    as (F & V1 & V2).
  split; [exact F | lra].
Qed.

Lemma opp_finite (x : float) : Binary64.finite (- x) = Binary64.finite x.
Proof. unfold Binary64.finite. rewrite FloatAxioms.opp_spec. destruct (Prim2SF x); reflexivity. Qed.

Lemma opp_value (x : float) : (Binary64.value (- x) == - Binary64.value x)%Q.
Proof. unfold Binary64.value. rewrite FloatAxioms.opp_spec. apply SF2Q_opp. Qed.

Lemma of_Z_value z :
  Z.abs z <= 2 ^ 53 ->
  Binary64.finite (Binary64.of_Z z) = true /\ (Binary64.value (Binary64.of_Z z) == inject_Z z)%Q.
Proof.
  intros Hz. unfold Binary64.of_Z. destruct (Z.ltb_spec z 0) as [Hneg|Hpos].
  - destruct (of_pos_Z_value (- z) ltac:(lia)) as [F V].
    rewrite opp_finite, opp_value, V, inject_Z_opp. split; [exact F | ring].
  - apply of_pos_Z_value. lia.
Qed.

(* ---- the unit interval ---- *)

Lemma zero_one_values :
  Binary64.finite 0%float = true /\ (Binary64.value 0%float == 0)%Q /\
  Binary64.finite 1%float = true /\ (Binary64.value 1%float == 1)%Q.
Proof. repeat split; vm_compute; reflexivity. Qed.

Lemma in_unit_value (x : float) :
  in_unit x <->
  Binary64.finite x = true /\ (0 <= Binary64.value x)%Q /\
  (Binary64.value x <= 1)%Q.
Proof.
  destruct zero_one_values as (F0 & V0 & F1 & V1). unfold in_unit. split.
  - intros [H0 H1].
    pose proof (between_finite _ _ _ F0 F1 H0 H1) as Fx.
    apply (leb_value _ _ F0 Fx) in H0. apply (leb_value _ _ Fx F1) in H1.
    split; [exact Fx|]. split; lra.
  - intros (Fx & H0 & H1). split.
    + apply (leb_value _ _ F0 Fx). lra.
    + apply (leb_value _ _ Fx F1). lra.
Qed.

Lemma representable_0 : representable 0.
Proof. apply (representable_Z 0). lia. Qed.

Lemma representable_1 : representable 1.
Proof. apply (representable_Z 1). lia. Qed.

Local Open Scope nat_scope.

(* ------------------------------------------------------------------------- *)
(** ** The estimator computes the mean of the credited presets *)

Section EstimatorFacts.
Context {N : Type} `{Number N}.

Lemma scanPresets_find (g : string) (ps : list (Preset N)) (t : Totals N) :
  scanPresets g ps t =
  match List.find (hit g) ps with
  | Some p => credit_totals t p
  | None => t
  end.
Proof.
  induction ps as [|p ps IH]; simpl; [reflexivity|].
  destruct (hit g p); [reflexivity | exact IH].
Qed.

Lemma scanGenres_credited (gs : list string) (t : Totals N) :
  scanGenres gs t =
  let ps := omap credit gs in
  mkTotals (sum_from (totalEnergy t) (map preset_energy ps))
           (sum_from (totalDance t) (map preset_danceability ps))
           (sum_from (totalValence t) (map preset_valence ps))
           (matches t + length ps).
Proof.
  revert t. induction gs as [|g gs IH]; intros t; cbn [scanGenres].
  - destruct t; simpl. f_equal. lia.
  - rewrite scanPresets_find, IH. fold (credit g).
    change (omap credit (g :: gs)) with
      (match credit g with
       | Some p => p :: omap credit gs
       | None => omap credit gs
       end).
    destruct (credit g) as [p|]; cbv zeta;
      cbn [credit_totals totalEnergy totalDance totalValence matches
           map length sum_from fold_left].
    + f_equal. lia.
    + reflexivity.
Qed.

Lemma estimate_refines_spec (genres : option (list string)) :
  estimateFeaturesFromGenres genres = estimate_spec genres.
Proof.
  destruct genres as [[|g gs]|]; try reflexivity.
  unfold estimateFeaturesFromGenres, estimate_spec, credited.
  rewrite scanGenres_credited.
  cbv zeta. cbn [matches totalEnergy totalDance totalValence].
  destruct (omap credit (map toLowerCase (g :: gs))) as [|p ps] eqn:E.
  - reflexivity.
  - cbn [length Nat.add Nat.eqb]. unfold mean.
    rewrite !length_map. reflexivity.
Qed.

Lemma credited_none (gs : list string) :
  (forall g p, g ∈ gs -> p ∈ GENRE_PRESETS -> hit (toLowerCase g) p = false) ->
  credited gs = [].
Proof.
  unfold credited. induction gs as [|g gs IH]; intros Hno; [reflexivity|].
  simpl. unfold credit at 1.
  destruct (List.find (hit (toLowerCase g)) GENRE_PRESETS) as [p|] eqn:E.
  - apply find_some in E as [Hin Hhit].
    rewrite (Hno g p) in Hhit; [discriminate| left |].
    apply list_elem_of_In; exact Hin.
  - apply IH. intros g' p' Hg Hp. apply Hno; [right; exact Hg | exact Hp].
Qed.

End EstimatorFacts.

(* ------------------------------------------------------------------------- *)
(** ** Bounds of the estimate, in binary64 *)

Lemma presets_in_unit : Forall preset_in_unit (GENRE_PRESETS (N:=float)).
Proof.
  unfold GENRE_PRESETS, preset, preset_in_unit, in_unit.
  repeat constructor; vm_compute; reflexivity.
Qed.

Lemma credit_in_presets {N} `{Number N} (g : string) (p : Preset N) :
  credit g = Some p -> In p GENRE_PRESETS.
Proof. unfold credit. intros E. apply find_some in E. tauto. Qed.

Lemma credited_in_unit (gs : list string) :
  Forall preset_in_unit (credited (N:=float) gs).
Proof.
  unfold credited. induction (map toLowerCase gs) as [|g l IH].
  - constructor.
  - change (omap credit (g :: l)) with
      (match credit (N:=float) g with
       | Some p => p :: omap credit l
       | None => omap credit l
       end).
    destruct (credit g) as [p|] eqn:E; [|exact IH].
    constructor; [|exact IH].
    apply credit_in_presets in E.
    exact (proj1 (List.Forall_forall _ _) presets_in_unit p E).
Qed.

Lemma credited_length {N} `{Number N} (gs : list string) :
  length (credited (N:=N) gs) <= length gs.
Proof.
  unfold credited. rewrite <- (length_map toLowerCase gs).
  induction (map toLowerCase gs) as [|g l IH]; [reflexivity|].
  change (omap credit (g :: l)) with
    (match credit (N:=N) g with
     | Some p => p :: omap credit l
     | None => omap credit l
     end).
  destruct (credit g); cbn [length]; lia.
Qed.

(** Adding numbers of the unit interval, one by one, to a total of at most
    [k]: every partial sum is a finite number, not negative and at most the
    count of the numbers added, as long as the count is below 2^53. *)
Lemma sum_from_bounds (l : list float) (z : float) (k : Z) :
  Forall in_unit l -> Binary64.finite z = true ->
  (0 <= Binary64.value z)%Q -> (Binary64.value z <= inject_Z k)%Q ->
  (0 <= k)%Z -> (k + Z.of_nat (length l) <= 2 ^ 53)%Z ->
  Binary64.finite (sum_from z l) = true /\
  (0 <= Binary64.value (sum_from z l))%Q /\
  (Binary64.value (sum_from z l) <= inject_Z (k + Z.of_nat (length l)))%Q.
Proof.
  unfold sum_from. intros Hl. revert z k.
  induction Hl as [|x l Hx _ IH]; intros z k Fz Hz0 Hzk Hk Hlen;
    cbn [fold_left length] in *.
  - rewrite Z.add_0_r. auto.
  - apply in_unit_value in Hx as (Fx & Hx0 & Hx1).
    assert (Hk1 : (Z.abs (k + 1) <= 2 ^ 53)%Z) by lia.
    destruct (inject_Z_below (k + 1) Hk1) as [_ Hb].
    assert (Ha : (- bpow 1024 < 0)%Q).
    { pose proof (bpow_pos 1024). lra. }
    assert (Ek : (inject_Z (k + 1) == inject_Z k + 1)%Q).
    { rewrite inject_Z_plus. reflexivity. }
    destruct (sandwich _ _ 0%Q (inject_Z (k + 1)) (add_rounds z x Fz Fx)
                representable_0 (representable_Z _ Hk1) Ha Hb
                ltac:(lra) ltac:(lra)) as (F & V0 & V1).
    specialize (IH (z + x)%float (k + 1)%Z F V0 V1 ltac:(lia) ltac:(lia)).
    replace (k + Z.of_nat (S (length l)))%Z
      with (k + 1 + Z.of_nat (length l))%Z by lia.
    exact IH.
Qed.

Lemma mean_in_unit (l : list float) :
  Forall in_unit l -> l <> [] -> (Z.of_nat (length l) <= 2 ^ 53)%Z ->
  in_unit (mean l).
Proof.
  intros Hl Hne Hlen. unfold mean.
  destruct zero_one_values as (F0 & V0 & _ & _).
  change (num_lit (N:=float) 0) with (Binary64.literal 0).
  replace (Binary64.literal 0) with 0%float by (vm_compute; reflexivity).
  destruct (sum_from_bounds l 0%float 0 Hl F0 ltac:(lra) ltac:(rewrite V0; apply Qle_refl)
              ltac:(lia) ltac:(lia)) as (Fs & S0 & S1).
  rewrite Z.add_0_l in S1.
  cbn [num_div num_of_nat binary64_Number].
  assert (Hn : (0 < Z.of_nat (length l))%Z) by (destruct l; [congruence|cbn; lia]).
  destruct (of_pos_Z_value (Z.of_nat (length l)) ltac:(lia)) as [Fn Vn].
  assert (Hpos : (0 < inject_Z (Z.of_nat (length l)))%Q).
  { change 0%Q with (inject_Z 0). rewrite <- Zlt_Qlt. exact Hn. }
  assert (R := div_rounds (sum_from 0%float l)
                 (Binary64.of_pos_Z (Z.of_nat (length l))) Fs Fn
                 ltac:(rewrite Vn; lra)).
  assert (Ha : (- bpow 1024 < 0)%Q).
  { pose proof (bpow_pos 1024). lra. }
  assert (Hb : (1 < bpow 1024)%Q) by (vm_compute; reflexivity).
  apply in_unit_value.
  apply (sandwich _ _ 0%Q 1%Q R representable_0 representable_1 Ha Hb).
  - rewrite Vn. apply Qle_shift_div_l; [exact Hpos|]. lra.
  - rewrite Vn. apply Qle_shift_div_r; [exact Hpos|]. lra.
Qed.

Lemma default_in_unit : in_unit_cube (DEFAULT_FEATURES (N:=float)).
Proof. unfold in_unit_cube, in_unit. vm_compute. tauto. Qed.

Lemma estimate_in_unit_cube (genres : option (list string)) :
  (forall gs, genres = Some gs -> array_length gs) ->
  in_unit_cube (estimateFeaturesFromGenres (N:=float) genres).
Proof.
  intros Harr. rewrite estimate_refines_spec. unfold estimate_spec.
  destruct genres as [gs|]; [|apply default_in_unit].
  specialize (Harr gs eq_refl). unfold array_length in Harr.
  pose proof (credited_in_unit gs) as Hc.
  pose proof (credited_length (N:=float) gs) as Hlen.
  destruct (credited gs) as [|p ps]; [apply default_in_unit|].
  assert (Hn : (Z.of_nat (length (p :: ps)) <= 2 ^ 53)%Z) by lia.
  unfold in_unit_cube; cbn [energy danceability valence].
  repeat split; apply mean_in_unit; try discriminate;
    rewrite ?length_map; try exact Hn;
    apply List.Forall_map; (eapply List.Forall_impl; [|exact Hc]);
    unfold preset_in_unit; tauto.
Qed.

(* ------------------------------------------------------------------------- *)
(** ** Binary64: signs, NaN and the order *)

Local Open Scope Z_scope.

Lemma SFcompare_refl x : SFis_nan x = false -> SFcompare x x = Some Eq.
Proof.
  destruct x as [s|[]| |[] m e]; try discriminate; intros _; cbn [SFcompare];
    try reflexivity; rewrite Z.compare_refl;
    change (Pos.compare_cont Eq m m) with (m ?= m)%positive;
    rewrite Pos.compare_refl; reflexivity.
Qed.

Lemma is_nan_spec (x : float) : PrimFloat.is_nan x = SFis_nan (Prim2SF x).
Proof.
  unfold PrimFloat.is_nan. rewrite FloatAxioms.eqb_spec. unfold SFeqb.
  destruct (SFis_nan (Prim2SF x)) eqn:E.
  - destruct (Prim2SF x); try discriminate. reflexivity.
  - rewrite SFcompare_refl by exact E. reflexivity.
Qed.

Lemma rounds_to_not_nan x r : rounds_to x r -> SFis_nan r = false.
Proof.
  intros (_ & Hu & Hl). pose proof (bpow_pos 1024) as Hp.
  destruct r; try reflexivity. exfalso.
  destruct (Qlt_le_dec x 0) as [Hneg|Hpos].
  - exact (Hu 0%Q representable_0 ltac:(lra) ltac:(lra)).
  - exact (Hl 0%Q representable_0 ltac:(lra) ltac:(lra)).
Qed.

(** Every finite double is a whole number of units of 2^-1074. *)
Lemma SF_grid x :
  SFfinite x = true -> valid_binary x = true ->
  exists n, (SF2Q x == F2Q n (-1074))%Q.
Proof.
  intros Fx Vx. destruct x as [s|s| |s m e]; try discriminate.
  - exists 0. cbn [SF2Q]. rewrite F2Q_0. reflexivity.
  - cbn [valid_binary] in Vx. destruct (bounded_facts _ _ Vx) as (_ & He & _).
    exists (signed s m * 2 ^ (e + 1074)). cbn [SF2Q].
    rewrite F2Q_shift by lia. replace (-1074 + (e + 1074)) with e by lia.
    reflexivity.
Qed.

Lemma tiny_pos : (0 < tiny)%Q.
Proof. apply (F2Q_pos_pos 1). Qed.

Lemma representable_tiny : representable tiny.
Proof. exists 1, (-1074). split; [lia|]. split; [lia|reflexivity]. Qed.


Lemma grid_gap x y :
  SFfinite x = true -> valid_binary x = true ->
  SFfinite y = true -> valid_binary y = true ->
  (SF2Q y < SF2Q x)%Q -> (tiny <= SF2Q x - SF2Q y)%Q.
Proof.
  intros Fx Vx Fy Vy Hlt.
  destruct (SF_grid x Fx Vx) as [n En]. destruct (SF_grid y Fy Vy) as [k Ek].
  rewrite En, Ek in *. apply F2Q_lt_inv in Hlt.
  rewrite <- F2Q_minus. apply F2Q_le. lia.
Qed.

(** The sign of a rounding. *)
Lemma SFltb_zero_ge r :
  valid_binary r = true -> SFge_Q r tiny -> SFltb (S754_zero false) r = true.
Proof.
  pose proof tiny_pos as Ht.
  destruct r as [s|[]| |[] m e]; cbn [SFge_Q SF2Q signed]; intros _ H;
    try reflexivity; try discriminate; try contradiction; exfalso;
    try (pose proof (F2Q_pos_pos m e); pose proof (F2Q_neg m e)); lra.
Qed.

Lemma SFltb_zero_le r :
  valid_binary r = true -> SFle_Q r 0 -> SFltb (S754_zero false) r = false.
Proof.
  destruct r as [s|[]| |[] m e]; cbn [SFle_Q SF2Q signed]; intros _ H;
    try reflexivity; try discriminate; try contradiction; exfalso;
    try (pose proof (F2Q_pos_pos m e)); lra.
Qed.

(** The comparator of the sort: the difference of two numbers is greater
    than zero exactly when the first is greater than the second, whatever
    the two numbers are. *)
Lemma SFsub_sign x y :
  valid_binary x = true -> valid_binary y = true ->
  SFltb (S754_zero false) (SF64sub x y) = SFltb y x.
Proof.
  intros Vx Vy.
  destruct (SFfinite x && SFfinite y)%bool eqn:Efin.
  - apply andb_true_iff in Efin as [Fx Fy].
    pose proof (SFsub_rounds x y Fx Fy Vx Vy) as R.
    pose proof R as (Vr & Hu & Hl). pose proof (bpow_pos 1024) as Hp.
    pose proof tiny_pos as Ht.
    destruct (SFltb y x) eqn:Elt.
    + apply (SFltb_spec y x Fy Fx Vy Vx) in Elt.
      apply SFltb_zero_ge; [exact Vr|].
      apply Hl; [apply representable_tiny | | lra].
      apply grid_gap; assumption.
    + apply SFltb_zero_le; [exact Vr|].
      apply Hu; [apply representable_0 | | lra].
      destruct (Qlt_le_dec (SF2Q y) (SF2Q x)) as [Hlt|Hle]; [|lra].
      apply (SFltb_spec y x Fy Fx Vy Vx) in Hlt. congruence.
  - unfold SF64sub.
    destruct x as [sx|[]| |sx mx ex], y as [sy|[]| |sy my ey];
      try discriminate Efin; try reflexivity;
      try (destruct sx; reflexivity); try (destruct sy; reflexivity).
Qed.

Lemma sub_sign (a b : float) : (0 <? a - b)%float = (b <? a)%float.
Proof.
  rewrite !FloatAxioms.ltb_spec, FloatAxioms.sub_spec.
  change (Prim2SF 0%float) with (S754_zero false).
  apply SFsub_sign; apply Prim2SF_valid.
Qed.

(* ---- the order of the doubles that are not NaN ---- *)

Lemma SFcompare_inv x y :
  valid_binary x = true -> valid_binary y = true ->
  SFcompare y x = option_map CompOpp (SFcompare x y).
Proof.
  intros Vx Vy.
  destruct (SFfinite x && SFfinite y)%bool eqn:Efin.
  - apply andb_true_iff in Efin as [Fx Fy].
    rewrite !SFcompare_spec by assumption. cbn [option_map]. f_equal.
    symmetry. apply Qcompare_antisym.
  - destruct x as [sx|[]| |sx mx ex], y as [sy|[]| |sy my ey];
      try discriminate Efin; try reflexivity;
      try (destruct sx; reflexivity); try (destruct sy; reflexivity).
Qed.

Lemma SFcompare_some x y :
  SFis_nan x = false -> SFis_nan y = false -> exists c, SFcompare x y = Some c.
Proof.
  destruct x as [sx|sx| |sx mx ex], y as [sy|sy| |sy my ey]; try discriminate;
    intros _ _; cbn [SFcompare]; eexists; reflexivity.
Qed.

(** Between numbers that are not NaN, "not smaller" is "at least". *)
Lemma SFltb_false_leb x y :
  valid_binary x = true -> valid_binary y = true ->
  SFis_nan x = false -> SFis_nan y = false ->
  (SFltb y x = false <-> SFleb x y = true).
Proof.
  intros Vx Vy Nx Ny. unfold SFltb, SFleb. rewrite (SFcompare_inv x y Vx Vy).
  destruct (SFcompare_some x y Nx Ny) as [c ->]. cbn [option_map].
  destruct c; cbn [CompOpp]; split; congruence.
Qed.

Lemma SFltb_asym x y :
  valid_binary x = true -> valid_binary y = true ->
  SFltb x y = true -> SFltb y x = false.
Proof.
  intros Vx Vy. unfold SFltb. rewrite (SFcompare_inv x y Vx Vy).
  destruct (SFcompare x y) as [[]|]; cbn; congruence.
Qed.

Lemma SFltb_eqb_false x y :
  valid_binary x = true -> valid_binary y = true ->
  SFltb x y = true -> SFeqb y x = false.
Proof.
  intros Vx Vy. unfold SFltb, SFeqb. rewrite (SFcompare_inv x y Vx Vy).
  destruct (SFcompare x y) as [[]|]; cbn; congruence.
Qed.

Lemma SFleb_trans x y z :
  valid_binary x = true -> valid_binary y = true -> valid_binary z = true ->
  SFleb x y = true -> SFleb y z = true -> SFleb x z = true.
Proof.
  intros Vx Vy Vz.
  destruct (SFfinite x && SFfinite y && SFfinite z)%bool eqn:Efin.
  - apply andb_true_iff in Efin as [Efin Fz].
    apply andb_true_iff in Efin as [Fx Fy].
    rewrite !SFleb_spec by assumption. apply Qle_trans.
  - unfold SFleb.
    destruct x as [sx|[]| |sx mx ex], y as [sy|[]| |sy my ey],
             z as [sz|[]| |sz mz ez];
      try discriminate Efin; cbn [SFcompare]; try congruence;
      try (destruct sx; congruence); try (destruct sy; congruence);
      try (destruct sz; congruence);
      try (destruct sx, sy; congruence); try (destruct sy, sz; congruence);
      try (destruct sx, sz; congruence).
Qed.

Lemma SFleb_nan_l x y : SFleb x y = true -> SFis_nan x = false.
Proof. destruct x; try reflexivity. discriminate. Qed.

Lemma SFleb_nan_r x y : SFleb x y = true -> SFis_nan y = false.
Proof. destruct x, y; try reflexivity; discriminate. Qed.

Lemma not_lt_leb (a b : float) :
  PrimFloat.is_nan a = false -> PrimFloat.is_nan b = false ->
  ((b <? a)%float = false <-> (a <=? b)%float = true).
Proof.
  rewrite !is_nan_spec, FloatAxioms.ltb_spec, FloatAxioms.leb_spec.
  apply SFltb_false_leb; apply Prim2SF_valid.
Qed.

Lemma leb_trans (a b c : float) :
  (a <=? b)%float = true -> (b <=? c)%float = true -> (a <=? c)%float = true.
Proof.
  rewrite !FloatAxioms.leb_spec. apply SFleb_trans; apply Prim2SF_valid.
Qed.

Lemma ltb_asym (a b : float) :
  (a <? b)%float = true -> (b <? a)%float = false.
Proof.
  rewrite !FloatAxioms.ltb_spec. apply SFltb_asym; apply Prim2SF_valid.
Qed.

Lemma ltb_eqb_false (a b : float) :
  (a <? b)%float = true -> (b =? a)%float = false.
Proof.
  rewrite FloatAxioms.ltb_spec, FloatAxioms.eqb_spec.
  apply SFltb_eqb_false; apply Prim2SF_valid.
Qed.

Lemma ltb_nan_l (a b : float) :
  PrimFloat.is_nan a = true -> (a <? b)%float = false.
Proof.
  rewrite is_nan_spec, FloatAxioms.ltb_spec.
  destruct (Prim2SF a); try discriminate. reflexivity.
Qed.

Lemma ltb_nan_r (a b : float) :
  PrimFloat.is_nan b = true -> (a <? b)%float = false.
Proof.
  rewrite is_nan_spec, FloatAxioms.ltb_spec.
  destruct (Prim2SF b); try discriminate. destruct (Prim2SF a); reflexivity.
Qed.

Lemma not_lt_trans (a b c : float) :
  PrimFloat.is_nan a = false -> PrimFloat.is_nan b = false ->
  PrimFloat.is_nan c = false ->
  (b <? a)%float = false -> (c <? b)%float = false -> (c <? a)%float = false.
Proof.
  intros Na Nb Nc H1 H2.
  apply (not_lt_leb a b Na Nb) in H1. apply (not_lt_leb b c Nb Nc) in H2.
  apply (not_lt_leb a c Na Nc). eapply leb_trans; eassumption.
Qed.

(* ---- sums and differences that are not negative ---- *)

Lemma SFadd_ge x y a :
  valid_binary x = true -> valid_binary y = true ->
  representable a -> (0 <= a)%Q ->
  SFge_Q x a -> SFge_Q y 0 -> SFge_Q (SF64add x y) a.
Proof.
  intros Vx Vy Ha Ha0 Hx Hy. pose proof (bpow_pos 1024) as Hp.
  destruct (SFfinite x && SFfinite y)%bool eqn:Efin.
  - apply andb_true_iff in Efin as [Fx Fy].
    destruct (SFadd_rounds x y Fx Fy Vx Vy) as (_ & _ & Hl).
    apply Hl; [exact Ha | | lra].
    destruct x, y; try discriminate; cbn [SFge_Q] in Hx, Hy; lra.
  - unfold SF64add.
    destruct x as [sx|[]| |sx mx ex], y as [sy|[]| |sy my ey];
      try discriminate Efin; cbn [SFge_Q] in *; try contradiction;
      try discriminate; reflexivity.
Qed.


Lemma SFadd_nan x y :
  SFis_nan x = true \/ SFis_nan y = true -> SFis_nan (SF64add x y) = true.
Proof.
  intros [H|H]; destruct x, y; try discriminate; reflexivity.
Qed.

Lemma SFge_not_nan r a : SFge_Q r a -> SFis_nan r = false.
Proof. destruct r; try reflexivity. contradiction. Qed.

Lemma SFabs_ge_0 r : SFis_nan r = false -> SFge_Q (SFabs r) 0.
Proof.
  destruct r as [s|s| |s m e]; try discriminate; intros _;
    cbn [SFabs SFge_Q SF2Q signed]; try reflexivity; try apply Qle_refl.
  apply Qlt_le_weak, F2Q_pos_pos.
Qed.

Lemma SFabs_valid r : valid_binary (SFabs r) = valid_binary r.
Proof. destruct r; reflexivity. Qed.

Lemma SFabs_nan r : SFis_nan (SFabs r) = SFis_nan r.
Proof. destruct r; reflexivity. Qed.

(** The distance of a finite number to a number that is not NaN. *)
Lemma SFdist_ge_0 x y :
  SFfinite x = true -> valid_binary x = true -> valid_binary y = true ->
  SFis_nan (SFabs (SF64sub x y)) = SFis_nan y /\
  (SFis_nan y = false -> SFge_Q (SFabs (SF64sub x y)) 0).
Proof.
  intros Fx Vx Vy.
  assert (E : SFis_nan (SF64sub x y) = SFis_nan y).
  { destruct (SFfinite y) eqn:Fy.
    - rewrite (rounds_to_not_nan _ _ (SFsub_rounds x y Fx Fy Vx Vy)).
      destruct y; try discriminate; reflexivity.
    - destruct x, y; try discriminate; reflexivity. }
  rewrite SFabs_nan. split; [exact E|].
  intros Ny. apply SFabs_ge_0. congruence.
Qed.

(* ---- Math.round ---- *)

Lemma Qfloor_unique (x : Q) (n : Z) :
  (inject_Z n <= x)%Q -> (x < inject_Z (n + 1))%Q -> Qfloor x = n.
Proof.
  intros H1 H2. pose proof (Qfloor_le x) as F1. pose proof (Qlt_floor x) as F2.
  assert (A : (inject_Z n < inject_Z (Qfloor x + 1))%Q) by lra.
  assert (B : (inject_Z (Qfloor x) < inject_Z (n + 1))%Q) by lra.
  rewrite <- Zlt_Qlt in A, B. lia.
Qed.

Lemma F2Q_nonneg_exp m e : 0 <= e -> (F2Q m e == inject_Z (m * 2 ^ e))%Q.
Proof.
  intros He. unfold F2Q. rewrite (bpow_Z e He), inject_Z_mult. reflexivity.
Qed.

Lemma F2Q_neg_exp m e :
  e < 0 -> (F2Q m e * inject_Z (2 ^ (- e)) == inject_Z m)%Q.
Proof.
  intros He. unfold F2Q. rewrite <- (bpow_Z (- e)) by lia.
  rewrite <- Qmult_assoc, <- bpow_add. replace (e + - e) with 0 by lia.
  change (bpow 0) with 1%Q. ring.
Qed.

(** [Math_round] returns the integer [floor (v + 1/2)]. *)
Lemma Math_round_value (x : float) :
  Binary64.finite x = true ->
  Binary64.finite (Math_round x) = true /\
  (Binary64.value (Math_round x) ==
   inject_Z (Qfloor (Binary64.value x + (1 # 2))))%Q.
Proof.
  unfold Binary64.finite at 1, Math_round, Binary64.value at 2.
  destruct (Prim2SF x) as [s|s| |s m e] eqn:E; try discriminate; intros _.
  - unfold Binary64.finite, Binary64.value. rewrite E.
    split; reflexivity.
  - destruct (Z.leb_spec 0 e) as [He|He].
    + unfold Binary64.finite, Binary64.value. rewrite E. split; [reflexivity|].
      cbn [SF2Q]. rewrite (F2Q_nonneg_exp _ _ He).
      assert (Hf : Qfloor (inject_Z (signed s m * 2 ^ e) + (1 # 2)) =
                   signed s m * 2 ^ e).
      { apply Qfloor_unique; [lra|]. rewrite inject_Z_plus.
        change (inject_Z 1) with 1%Q. lra. }
      rewrite Hf. reflexivity.
    + cbn [SF2Q]. cbv zeta.
      set (k := signed s m).
      set (n := (2 * k + 2 ^ (- e)) / 2 ^ (1 - e)).
      assert (Hp : 0 < 2 ^ (- e)) by (apply pow2_pos; lia).
      assert (E2 : 2 ^ (1 - e) = 2 * 2 ^ (- e)).
      { replace (1 - e) with (Z.succ (- e)) by lia.
        rewrite Z.pow_succ_r by lia. reflexivity. }
      assert (Hlo : 2 ^ (1 - e) * n <= 2 * k + 2 ^ (- e)).
      { apply Z.mul_div_le. lia. }
      assert (Hhi : 2 * k + 2 ^ (- e) < 2 ^ (1 - e) * (n + 1)).
      { replace (n + 1) with (Z.succ n) by lia. apply Z.mul_succ_div_gt. lia. }
      assert (Hfl : Qfloor (F2Q k e + (1 # 2)) = n).
      { pose proof (F2Q_neg_exp k e He) as Ek.
        assert (Hq : (0 < inject_Z (2 ^ (- e)))%Q).
        { change 0%Q with (inject_Z 0). rewrite <- Zlt_Qlt. exact Hp. }
        rewrite E2 in Hlo, Hhi.
        apply Qfloor_unique.
        - apply (Qmult_le_r _ _ (inject_Z (2 ^ (- e)))); [exact Hq|].
          rewrite Qmult_plus_distr_l, Ek.
          assert (H : (inject_Z (2 * 2 ^ (- e) * n) <=
                       inject_Z (2 * k + 2 ^ (- e)))%Q)
            by (rewrite <- Zle_Qle; exact Hlo).
          rewrite inject_Z_plus, !inject_Z_mult in H.
          change (inject_Z 2) with 2%Q in H. lra.
        - apply (Qmult_lt_r _ _ (inject_Z (2 ^ (- e)))); [exact Hq|].
          rewrite Qmult_plus_distr_l, Ek.
          assert (H : (inject_Z (2 * k + 2 ^ (- e)) <
                       inject_Z (2 * 2 ^ (- e) * (n + 1)))%Q)
            by (rewrite <- Zlt_Qlt; exact Hhi).
          rewrite inject_Z_plus, !inject_Z_mult, inject_Z_plus in H.
          change (inject_Z 2) with 2%Q in H. change (inject_Z 1) with 1%Q in *.
          rewrite inject_Z_plus. change (inject_Z 1) with 1%Q. lra. }
      rewrite Hfl.
      assert (Hk : Z.abs k < 2 ^ 53).
      { pose proof (Prim2SF_valid x) as V. rewrite E in V. cbn [valid_binary] in V.
        destruct (bounded_facts _ _ V) as (Hm & _ & _).
        unfold k. destruct s; cbn [signed]; lia. }
      assert (Hn : Z.abs n <= 2 ^ 53).
      { assert (1 <= 2 ^ (- e)) by lia.
        assert (2 ^ (- e) * (2 * n) <= 2 * k + 2 ^ (- e)) by lia.
        assert (2 * k + 2 ^ (- e) < 2 ^ (- e) * (2 * n + 2)) by lia.
        assert (2 <= 2 ^ (- e)).
        { change 2 with (2 ^ 1) at 1. apply pow2_le; lia. }
        nia. }
      destruct (Z.eqb_spec n 0) as [->|Hnz].
      * destruct s; split; reflexivity.
      * apply of_Z_value, Hn.
Qed.

Lemma Math_round_range (x : float) (lo hi : Z) :
  Binary64.finite x = true ->
  (inject_Z lo <= Binary64.value x)%Q -> (Binary64.value x <= inject_Z hi)%Q ->
  Binary64.finite (Math_round x) = true /\
  (inject_Z lo <= Binary64.value (Math_round x))%Q /\
  (Binary64.value (Math_round x) <= inject_Z hi)%Q.
Proof.
  intros Fx Hlo Hhi. destruct (Math_round_value x Fx) as [F V].
  split; [exact F|]. rewrite V, <- !Zle_Qle. split.
  - rewrite <- (Qfloor_Z lo). apply Qfloor_resp_le. lra.
  - assert (E : Qfloor (inject_Z hi + (1 # 2)) = hi).
    { apply Qfloor_unique; [lra|]. rewrite inject_Z_plus.
      change (inject_Z 1) with 1%Q. lra. }
    rewrite <- E. apply Qfloor_resp_le. lra.
Qed.

(* ------------------------------------------------------------------------- *)
(** ** The binary64 instance reads the literals as the language does *)

(** Every decimal literal of the preset table and of the default triple,
    read by [Binary64.literal], is the double that the literal denotes. *)
Lemma binary64_literals :
  map (fun p => (preset_energy p, preset_danceability p, preset_valence p))
      (GENRE_PRESETS (N:=float)) =
  [ (0.9, 0.8, 0.6); (0.8, 0.85, 0.8); (0.8, 0.9, 0.6); (0.6, 0.7, 0.7);
    (0.55, 0.6, 0.6); (0.8, 0.55, 0.55); (0.95, 0.4, 0.4); (0.3, 0.4, 0.6);
    (0.4, 0.45, 0.7); (0.35, 0.25, 0.6) ]%float /\
  num_lit (N:=float) 0 = 0%float /\
  num_of_nat (N:=float) 2 = 2%float.
Proof. vm_compute. repeat split. Qed.

(** Scenarios A and B of the specification hold in binary64 as they do in
    exact arithmetic: one credited preset is divided by 1. *)
Lemma binary64_scenarios_A_B :
  estimateFeaturesFromGenres (Some ["techno"]) =
    mkFeatures 0.9%float 0.8%float 0.6%float /\
  estimateFeaturesFromGenres (Some []) =
    mkFeatures 0.6%float 0.6%float 0.6%float.
Proof. vm_compute. split; reflexivity. Qed.

(* ------------------------------------------------------------------------- *)
(** ** FeatureEstimator *)

(** C2, as stated, fails on the code: for the genres ["techno"; "acoustic"]
    the estimator, run in the binary64 arithmetic of the language, does not
    return the triple {0.65, 0.625, 0.65}. *)
Lemma estimate_techno_acoustic_not_065 :
  estimateFeaturesFromGenres (N:=float) (Some ["techno"; "acoustic"]) <>
  mkFeatures 0.65%float 0.625%float 0.65%float.
Proof.
  intros E.
  apply (f_equal (fun f => PrimFloat.eqb (valence f) 0.65%float)) in E.
  vm_compute in E. discriminate E.
Qed.

(** C2 (amended): in either arithmetic, [estimateFeaturesFromGenres] credits,
    for each genre, the first preset in table order one of whose keywords is a
    substring of the lower-cased genre, and returns the elementwise mean of
    the credited triples over their number; for an absent list, an empty list
    and a list no genre of which matches a preset it returns the default
    triple {0.6, 0.6, 0.6}.  For ["techno"; "acoustic"] the means are
    (0.9+0.4)/2, (0.8+0.45)/2 and (0.6+0.7)/2: exactly 0.65, 0.625 and 0.65,
    and in binary64 arithmetic 0.65, 0.625 and 0.6499999999999999. *)
Theorem estimate_is_mean_of_first_hits :
  (forall (N : Type) (HN : Number N) (genres : option (list string)),
      estimateFeaturesFromGenres genres = estimate_spec genres) /\
  (forall (N : Type) (HN : Number N),
      estimateFeaturesFromGenres None = DEFAULT_FEATURES /\
      estimateFeaturesFromGenres (Some []) = DEFAULT_FEATURES /\
      forall gs : list string,
        (forall g p, g ∈ gs -> p ∈ GENRE_PRESETS ->
                     hit (toLowerCase g) p = false) ->
        estimateFeaturesFromGenres (Some gs) = DEFAULT_FEATURES) /\
  DEFAULT_FEATURES = mkFeatures 0.6%Q 0.6%Q 0.6%Q /\
  DEFAULT_FEATURES = mkFeatures 0.6%float 0.6%float 0.6%float /\
  features_eq
    (estimateFeaturesFromGenres (Some ["techno"; "acoustic"]))
    (mkFeatures 0.65 0.625 0.65)%Q /\
  estimateFeaturesFromGenres (Some ["techno"; "acoustic"]) =
    mkFeatures 0.65%float 0.625%float 0.6499999999999999%float.
Proof.
  split; [intros; apply estimate_refines_spec|].
  split.
  { intros N HN. repeat split; try reflexivity.
    intros gs Hno. rewrite estimate_refines_spec. unfold estimate_spec.
    rewrite (credited_none gs Hno). reflexivity. }
  repeat split; vm_compute; reflexivity.
Qed.

(** The no-match case of C2 at the genre "zzz". *)
Lemma estimate_is_mean_of_first_hits_witness :
  estimateFeaturesFromGenres (N:=Q) (Some ["zzz"]) = DEFAULT_FEATURES.
Proof.
  apply (proj2 (proj2 (proj1 (proj2 estimate_is_mean_of_first_hits) Q _))).
  intros g p Hg Hp.
  apply list_elem_of_In in Hg. apply list_elem_of_In in Hp.
  simpl in Hg, Hp.
  intuition (subst; reflexivity).
Defined.


(** C7: for every array of genre strings, present or absent, each component
    of the estimated triple, computed in binary64 as the code computes it,
    lies in [0,1]. *)
Theorem estimateFeaturesFromGenres_in_unit (genres : option (list string)) :
  (forall gs, genres = Some gs -> array_length gs) ->
  let f := estimateFeaturesFromGenres (N:=float) genres in
  ((0 <=? energy f)%float = true /\ (energy f <=? 1)%float = true) /\
  ((0 <=? danceability f)%float = true /\
   (danceability f <=? 1)%float = true) /\
  ((0 <=? valence f)%float = true /\ (valence f <=? 1)%float = true).
Proof. exact (estimate_in_unit_cube genres). Qed.

(** C7 at seven times metal, whose energy, 0.9500000000000001, exceeds the
    0.95 of the table and is below 1. *)
Lemma estimateFeaturesFromGenres_in_unit_witness :
  let f := estimateFeaturesFromGenres (N:=float)
             (Some ["metal"; "metal"; "metal"; "metal"; "metal"; "metal";
                    "metal"]) in
  energy f = 0.9500000000000001%float /\
  (0 <=? energy f)%float = true /\ (energy f <=? 1)%float = true.
Proof.
  split; [vm_compute; reflexivity|].
  apply (estimateFeaturesFromGenres_in_unit
           (Some ["metal"; "metal"; "metal"; "metal"; "metal"; "metal";
                  "metal"])).
  intros gs E. injection E as <-. unfold array_length. cbn. lia.
Defined.

(* ------------------------------------------------------------------------- *)
(** ** MoodScorer *)

Lemma bound_below (z : Z) : (Z.abs z <= 2 ^ 53)%Z ->
  (- bpow 1024 < inject_Z z)%Q.
Proof. intros H. apply (inject_Z_below z H). Qed.

Lemma bound_above (z : Z) : (Z.abs z <= 2 ^ 53)%Z ->
  (inject_Z z < bpow 1024)%Q.
Proof. intros H. apply (inject_Z_below z H). Qed.

(** Between two bounds that are integers: the sandwich of an operation. *)
Lemma sandwich_Z (v : Q) (z : float) (lo hi : Z) :
  rounds_to v (Prim2SF z) ->
  (Z.abs lo <= 2 ^ 53)%Z -> (Z.abs hi <= 2 ^ 53)%Z ->
  (inject_Z lo <= v)%Q -> (v <= inject_Z hi)%Q ->
  Binary64.finite z = true /\ (inject_Z lo <= Binary64.value z)%Q /\
  (Binary64.value z <= inject_Z hi)%Q.
Proof.
  intros R Hlo Hhi H1 H2.
  apply (sandwich v z _ _ R (representable_Z _ Hlo) (representable_Z _ Hhi)
           (bound_below _ Hlo) (bound_above _ Hhi) H1 H2).
Qed.

Lemma diff_in_unit (a b : float) :
  in_unit a -> in_unit b -> in_unit (abs (a - b)).
Proof.
  intros Ha Hb. apply in_unit_value in Ha as (Fa & A0 & A1).
  apply in_unit_value in Hb as (Fb & B0 & B1).
  destruct (sandwich_Z _ _ (-1) 1 (sub_rounds a b Fa Fb)
              ltac:(lia) ltac:(lia)) as (F & V0 & V1).
  { change (inject_Z (-1)) with (-1)%Q. lra. }
  { change (inject_Z 1) with 1%Q. lra. }
  change (inject_Z (-1)) with (-1)%Q in V0. change (inject_Z 1) with 1%Q in V1.
  apply in_unit_value. rewrite abs_finite, abs_value.
  split; [exact F|]. split; [apply Qabs_nonneg|].
  apply Qabs_Qle_condition. lra.
Qed.







Lemma add_ge (x y : float) (a : Q) :
  representable a -> (0 <= a)%Q ->
  SFge_Q (Prim2SF x) a -> SFge_Q (Prim2SF y) 0 -> SFge_Q (Prim2SF (x + y)) a.
Proof.
  intros. rewrite FloatAxioms.add_spec.
  apply SFadd_ge; try assumption; apply Prim2SF_valid.
Qed.





(* ------------------------------------------------------------------------- *)
(** ** The pool: what the collection keeps invariant *)

Lemma addUnseen_ok (seedId : string) (t : Track) (pool : Pool) :
  pool_ok seedId pool -> pool_ok seedId (addUnseen t pool).
Proof.
  intros (Hnd & Hseed & Hseen & Hno). unfold addUnseen.
  destruct (decide (track_id t ∈ seenTrackIds pool)) as [Hin|Hout].
  - repeat split; assumption.
  - assert (Hfresh : ~ In (track_id t) (map track_id (candidateTracks pool))).
    { intros Hm. apply in_map_iff in Hm as (t' & Eid & Ht').
      apply Hout. rewrite <- Eid. apply Hseen, Ht'. }
    unfold pool_ok; cbn [candidateTracks seenTrackIds].
    rewrite map_app; cbn [map]. repeat split.
    + apply NoDup_app. repeat split; [exact Hnd | | apply NoDup_singleton].
      intros x Hx Hx'. apply list_elem_of_singleton in Hx'. subst x.
      apply Hfresh. apply list_elem_of_In, Hx.
    + set_solver.
    + intros t' Ht'. apply in_app_iff in Ht' as [Ht'|[<-|[]]].
      * specialize (Hseen t' Ht'). set_solver.
      * set_solver.
    + intros Hm. apply in_app_iff in Hm as [Hm|[Hm|[]]]; [exact (Hno Hm)|].
      apply Hout. rewrite Hm. exact Hseed.
Qed.

Lemma addTopTracks_ok (seedId : string) (topTracks : list Track) (pool : Pool) :
  pool_ok seedId pool -> pool_ok seedId (addTopTracks topTracks pool).
Proof.
  revert pool. induction topTracks as [|t rest IH]; intros pool Hok; simpl.
  - exact Hok.
  - apply IH, addUnseen_ok, Hok.
Qed.

Lemma addFound_ok (seedId : string) (found : list Track) (pool : Pool) :
  pool_ok seedId pool -> pool_ok seedId (addFound found pool).
Proof.
  revert pool. induction found as [|t rest IH]; intros pool Hok; simpl.
  - exact Hok.
  - destruct (full (addUnseen t pool)).
    + apply addUnseen_ok, Hok.
    + apply IH, addUnseen_ok, Hok.
Qed.

Lemma searchGenres_ok (seedId : string) (srv : Service) (token : string)
    (mainGenres : list string) (pool : Pool) (trace : list Request) :
  pool_ok seedId pool ->
  pool_ok seedId (fst (searchGenres srv token mainGenres pool trace)).
Proof.
  revert pool trace.
  induction mainGenres as [|g rest IH]; intros pool trace Hok;
    cbn [searchGenres axios_get].
  - exact Hok.
  - set (pool' := match srv trace (Search g token) with
                  | Resolved data => addFound (default [] data) pool
                  | Rejected => pool
                  end).
    assert (Hok' : pool_ok seedId pool').
    { subst pool'. destruct (srv trace (Search g token));
        [apply addFound_ok|]; exact Hok. }
    destruct (full pool'); [exact Hok' | apply IH, Hok'].
Qed.

Lemma initial_pool_ok (seedId : string) : pool_ok seedId (mkPool [] {[ seedId ]}).
Proof.
  unfold pool_ok; cbn. repeat split; try constructor; set_solver.
Qed.


(* ------------------------------------------------------------------------- *)
(** ** Binary64: equal numbers, smaller numbers *)

Lemma SFeqb_not_ltb a b s :
  valid_binary a = true -> valid_binary b = true -> valid_binary s = true ->
  SFeqb a s = true -> SFeqb b s = true -> SFltb b a = false.
Proof.
  intros Va Vb Vs.
  destruct (SFfinite a && SFfinite b && SFfinite s)%bool eqn:Efin.
  - apply andb_true_iff in Efin as [Efin Fs].
    apply andb_true_iff in Efin as [Fa Fb].
    rewrite !SFeqb_spec by assumption. intros E1 E2.
    destruct (SFltb b a) eqn:El; [|reflexivity].
    apply (SFltb_spec b a Fb Fa Vb Va) in El. lra.
  - unfold SFeqb, SFltb.
    destruct a as [sa|[]| |sa ma ea], b as [sb|[]| |sb mb eb],
             s as [ss|[]| |ss ms es];
      try discriminate Efin; cbn [SFcompare]; try congruence;
      try (destruct sa; congruence); try (destruct sb; congruence);
      try (destruct ss; congruence).
Qed.

Lemma eqb_not_ltb (a b s : float) :
  (a =? s)%float = true -> (b =? s)%float = true -> (b <? a)%float = false.
Proof.
  rewrite !FloatAxioms.eqb_spec, FloatAxioms.ltb_spec.
  apply SFeqb_not_ltb; apply Prim2SF_valid.
Qed.

Lemma ltb_leb (a b : float) :
  (a <? b)%float = true -> (a <=? b)%float = true.
Proof.
  rewrite FloatAxioms.ltb_spec, FloatAxioms.leb_spec. unfold SFltb, SFleb.
  destruct (SFcompare (Prim2SF a) (Prim2SF b)) as [[]|]; congruence.
Qed.

Lemma leb_not_ltb (a b : float) :
  (a <=? b)%float = true -> (b <? a)%float = false.
Proof.
  rewrite FloatAxioms.ltb_spec, FloatAxioms.leb_spec. unfold SFltb, SFleb.
  rewrite (SFcompare_inv (Prim2SF a) (Prim2SF b))
    by apply Prim2SF_valid.
  destruct (SFcompare (Prim2SF a) (Prim2SF b)) as [[]|]; cbn; congruence.
Qed.

Lemma ltb_irrefl (a : float) : (a <? a)%float = false.
Proof.
  destruct (a <? a)%float eqn:E; [|reflexivity].
  pose proof (ltb_asym a a E). congruence.
Qed.

(* ------------------------------------------------------------------------- *)
(** ** The sort: a permutation, ascending, stable *)

Lemma insertBy_perm cmp (x : ScoredCandidate) (l : list ScoredCandidate) :
  Permutation (insertBy cmp x l) (x :: l).
Proof.
  induction l as [|y l IH]; cbn [insertBy]; [reflexivity|].
  destruct (0 <? cmp x y)%float; [|reflexivity].
  rewrite IH. apply perm_swap.
Qed.

Lemma Array_sort_perm cmp (l : list ScoredCandidate) :
  Permutation (Array_sort cmp l) l.
Proof.
  induction l as [|x l IH]; cbn; [reflexivity|].
  rewrite insertBy_perm. apply perm_skip, IH.
Qed.

(** The comparator is greater than zero exactly when its first argument has
    the greater score. *)
Lemma byMoodScore_pos (x y : ScoredCandidate) :
  (0 <? byMoodScore x y)%float = (moodScore y <? moodScore x)%float.
Proof. apply sub_sign. Qed.

Lemma insertBy_sorted (x : ScoredCandidate) (l : list ScoredCandidate) :
  PrimFloat.is_nan (moodScore x) = false ->
  Forall (fun c => PrimFloat.is_nan (moodScore c) = false) l ->
  StronglySorted le_score l ->
  StronglySorted le_score (insertBy byMoodScore x l).
Proof.
  intros Nx Nl Hs. induction Hs as [|y l Hl IH Hy]; cbn [insertBy].
  - repeat constructor.
  - apply Forall_cons_1 in Nl as [Ny Nl].
    rewrite byMoodScore_pos.
    destruct (moodScore y <? moodScore x)%float eqn:E.
    + constructor; [exact (IH Nl)|].
      apply List.Forall_forall. intros c Hc.
      apply (Permutation_in _ (insertBy_perm byMoodScore x l)) in Hc.
      destruct Hc as [<-|Hc].
      * apply ltb_leb, E.
      * exact (proj1 (List.Forall_forall _ _) Hy c Hc).
    + apply (not_lt_leb _ _ Nx Ny) in E.
      constructor; [constructor; assumption|].
      constructor; [exact E|].
      eapply List.Forall_impl; [|exact Hy].
      intros c Hc. unfold le_score in *. eapply leb_trans; eassumption.
Qed.

Lemma Array_sort_sorted (l : list ScoredCandidate) :
  Forall (fun c => PrimFloat.is_nan (moodScore c) = false) l ->
  StronglySorted le_score (Array_sort byMoodScore l).
Proof.
  induction 1 as [|x l Nx Nl IH]; cbn; [constructor|].
  apply insertBy_sorted; [exact Nx | | exact IH].
  apply List.Forall_forall. intros c Hc.
  apply (Permutation_in _ (Array_sort_perm byMoodScore l)) in Hc.
  exact (proj1 (List.Forall_forall _ _) Nl c Hc).
Qed.

Lemma insertBy_stable (s : float) (x : ScoredCandidate)
    (l : list ScoredCandidate) :
  List.filter (sameScore s) (insertBy byMoodScore x l) =
  List.filter (sameScore s) (x :: l).
Proof.
  induction l as [|y l IH]; cbn [insertBy]; [reflexivity|].
  rewrite byMoodScore_pos.
  destruct (moodScore y <? moodScore x)%float eqn:E; [|reflexivity].
  cbn [List.filter] in *. rewrite IH.
  destruct (sameScore s x) eqn:Ex; [|reflexivity].
  destruct (sameScore s y) eqn:Ey; [|reflexivity].
  unfold sameScore in Ex, Ey.
  rewrite (eqb_not_ltb _ _ _ Ex Ey) in E. discriminate E.
Qed.

Lemma Array_sort_stable (s : float) (l : list ScoredCandidate) :
  List.filter (sameScore s) (Array_sort byMoodScore l) =
  List.filter (sameScore s) l.
Proof.
  induction l as [|x l IH]; cbn [Array_sort foldr]; [reflexivity|].
  fold (Array_sort byMoodScore l). rewrite insertBy_stable.
  cbn [List.filter]. rewrite IH. reflexivity.
Qed.

Lemma filter_take_prefix {A} (p : A -> bool) (n : nat) (l : list A) :
  List.filter p (take n l) `prefix_of` List.filter p l.
Proof.
  exists (List.filter p (drop n l)).
  rewrite <- List.filter_app, take_drop. reflexivity.
Qed.

(** A list no element of which has a smaller score than another is left as
    it is. *)
Lemma Array_sort_all_tied (l : list ScoredCandidate) :
  (forall a b, In a l -> In b l -> not_above a b) ->
  Array_sort byMoodScore l = l.
Proof.
  induction l as [|x l IH]; intros Hall; cbn [Array_sort foldr];
    [reflexivity|].
  fold (Array_sort byMoodScore l).
  rewrite IH by (intros a b Ha Hb; apply Hall; right; assumption).
  destruct l as [|y l]; [reflexivity|]. cbn [insertBy].
  rewrite byMoodScore_pos.
  rewrite (Hall x y ltac:(left; reflexivity) ltac:(right; left; reflexivity)).
  reflexivity.
Qed.

Lemma all_tied_sorted (l : list ScoredCandidate) :
  (forall a b, In a l -> In b l -> not_above a b) ->
  StronglySorted not_above l.
Proof.
  induction l as [|x l IH]; intros Hall; constructor.
  - apply IH. intros a b Ha Hb. apply Hall; right; assumption.
  - apply List.Forall_forall. intros b Hb.
    apply Hall; [left; reflexivity|right; exact Hb].
Qed.

Lemma StronglySorted_impl {A} (R R' : A -> A -> Prop) (l : list A) :
  (forall a b, R a b -> R' a b) -> StronglySorted R l -> StronglySorted R' l.
Proof.
  intros Himp. induction 1 as [|x l Hl IH Hx]; constructor; [exact IH|].
  eapply List.Forall_impl; [|exact Hx]. intros b. apply Himp.
Qed.

Lemma le_score_not_above (a b : ScoredCandidate) :
  le_score a b -> not_above a b.
Proof. apply leb_not_ltb. Qed.

(* ------------------------------------------------------------------------- *)
(** ** The scores of a pool: all of them NaN, or none *)

Lemma in_unit_finite (x : float) : in_unit x -> Binary64.finite x = true.
Proof. intros H. apply in_unit_value in H. tauto. Qed.

Lemma in_unit_cube_finite (f : Features float) :
  in_unit_cube f -> finite_triple f.
Proof.
  intros (H1 & H2 & H3). repeat split; apply in_unit_finite; assumption.
Qed.

Lemma dist_nan (a b : float) :
  Binary64.finite a = true ->
  SFis_nan (Prim2SF (abs (a - b))) = PrimFloat.is_nan b /\
  (PrimFloat.is_nan b = false -> SFge_Q (Prim2SF (abs (a - b))) 0).
Proof.
  intros Fa. rewrite FloatAxioms.abs_spec, FloatAxioms.sub_spec, is_nan_spec.
  apply SFdist_ge_0; try apply Prim2SF_valid. exact Fa.
Qed.

Lemma add_nan (x y : float) :
  SFis_nan (Prim2SF x) = true \/ SFis_nan (Prim2SF y) = true ->
  SFis_nan (Prim2SF (x + y)) = true.
Proof. rewrite FloatAxioms.add_spec. apply SFadd_nan. Qed.

(** The score of a finite triple is NaN exactly when a target is NaN. *)
Lemma score_is_nan (features moodSettings : Features float) :
  finite_triple features ->
  PrimFloat.is_nan (calculateMoodScore features moodSettings) =
  has_nan moodSettings.
Proof.
  intros (Fe & Fd & Fv). unfold calculateMoodScore, has_nan.
  cbn [num_add num_sub num_abs binary64_Number].
  destruct (dist_nan (energy features) (energy moodSettings) Fe) as [N1 G1].
  destruct (dist_nan (danceability features) (danceability moodSettings) Fd)
    as [N2 G2].
  destruct (dist_nan (valence features) (valence moodSettings) Fv) as [N3 G3].
  rewrite is_nan_spec.
  destruct (PrimFloat.is_nan (energy moodSettings)).
  { cbn [orb]. apply add_nan. left. apply add_nan. left. exact N1. }
  destruct (PrimFloat.is_nan (danceability moodSettings)).
  { cbn [orb]. apply add_nan. left. apply add_nan. right. exact N2. }
  destruct (PrimFloat.is_nan (valence moodSettings)).
  { cbn [orb]. apply add_nan. right. exact N3. }
  cbn [orb]. eapply SFge_not_nan.
  apply add_ge; [apply representable_0 | apply Qle_refl | | exact (G3 eq_refl)].
  apply add_ge; [apply representable_0 | apply Qle_refl | exact (G1 eq_refl)
                | exact (G2 eq_refl)].
Qed.

Lemma genresOf_array artistMap seedGenres (t : Track) :
  genre_arrays artistMap seedGenres ->
  array_length (genresOf artistMap seedGenres t).
Proof.
  intros [Hseed Hmap]. unfold genresOf.
  destruct (primaryArtistId (track_artists t)) as [i|]; [|exact Hseed].
  destruct (artistMap !! i) as [a|] eqn:Ea; [|exact Hseed].
  destruct (genres a) as [g|] eqn:Eg; [|exact Hseed].
  exact (Hmap i a g Ea Eg).
Qed.

Lemma scoreTrack_in_unit artistMap seedGenres moodSettings (t : Track) :
  genre_arrays artistMap seedGenres ->
  in_unit_cube (features (scoreTrack artistMap seedGenres moodSettings t)).
Proof.
  intros Harr. unfold scoreTrack; cbn [features].
  apply estimate_in_unit_cube. intros gs E. injection E as <-.
  apply genresOf_array, Harr.
Qed.

Lemma scoreTrack_nan artistMap seedGenres moodSettings (t : Track) :
  genre_arrays artistMap seedGenres ->
  PrimFloat.is_nan (moodScore (scoreTrack artistMap seedGenres moodSettings t))
  = has_nan moodSettings.
Proof.
  intros Harr.
  pose proof (scoreTrack_in_unit artistMap seedGenres moodSettings t Harr) as H.
  unfold scoreTrack in *; cbn [features moodScore] in *.
  apply score_is_nan, in_unit_cube_finite, H.
Qed.
Local Open Scope nat_scope.

(* ------------------------------------------------------------------------- *)
(** ** The collection only appends, in the order of its sources *)

Lemma addUnseen_appends (t : Track) (pool : Pool) :
  exists new, candidateTracks (addUnseen t pool) = candidateTracks pool ++ new /\
              new `sublist_of` [t].
Proof.
  unfold addUnseen. destruct (decide (track_id t ∈ seenTrackIds pool)).
  - exists []. split; [now rewrite app_nil_r | apply sublist_nil_l].
  - exists [t]. split; reflexivity.
Qed.

Lemma addTopTracks_appends (topTracks : list Track) (pool : Pool) :
  exists new,
    candidateTracks (addTopTracks topTracks pool) = candidateTracks pool ++ new /\
    new `sublist_of` topTracks.
Proof.
  revert pool. induction topTracks as [|t rest IH]; intros pool; simpl.
  - exists []. split; [now rewrite app_nil_r | constructor].
  - destruct (addUnseen_appends t pool) as (n1 & E1 & S1).
    destruct (IH (addUnseen t pool)) as (n2 & E2 & S2).
    exists (n1 ++ n2). split.
    + rewrite E2, E1, app_assoc. reflexivity.
    + change (t :: rest) with ([t] ++ rest). apply sublist_app; assumption.
Qed.

Lemma addFound_appends (found : list Track) (pool : Pool) :
  exists new,
    candidateTracks (addFound found pool) = candidateTracks pool ++ new /\
    new `sublist_of` found.
Proof.
  revert pool. induction found as [|t rest IH]; intros pool; simpl.
  - exists []. split; [now rewrite app_nil_r | constructor].
  - destruct (addUnseen_appends t pool) as (n1 & E1 & S1).
    change (t :: rest) with ([t] ++ rest).
    destruct (full (addUnseen t pool)).
    + exists n1. split; [exact E1|]. apply sublist_inserts_r, S1.
    + destruct (IH (addUnseen t pool)) as (n2 & E2 & S2).
      exists (n1 ++ n2). split.
      * rewrite E2, E1, app_assoc. reflexivity.
      * apply sublist_app; assumption.
Qed.

Lemma searchGenres_appends (srv : Service) (token : string)
    (mainGenres : list string) (pool : Pool) (trace : list Request) :
  exists new,
    candidateTracks (fst (searchGenres srv token mainGenres pool trace)) =
      candidateTracks pool ++ new /\
    new `sublist_of` searchReplies srv token mainGenres trace.
Proof.
  revert pool trace.
  induction mainGenres as [|g rest IH]; intros pool trace;
    cbn [searchGenres searchReplies axios_get].
  - exists []. split; [now rewrite app_nil_r | constructor].
  - set (pool' := match srv trace (Search g token) with
                  | Resolved data => addFound (default [] data) pool
                  | Rejected => pool
                  end).
    assert (H1 : exists n1,
               candidateTracks pool' = candidateTracks pool ++ n1 /\
               n1 `sublist_of` match srv trace (Search g token) with
                               | Resolved data => default [] data
                               | Rejected => []
                               end).
    { subst pool'. destruct (srv trace (Search g token)).
      - apply addFound_appends.
      - exists []. split; [now rewrite app_nil_r | constructor]. }
    destruct H1 as (n1 & E1 & S1).
    destruct (full pool').
    + exists n1. split; [exact E1|]. apply sublist_inserts_r, S1.
    + destruct (IH pool' (trace ++ [Search g token])) as (n2 & E2 & S2).
      exists (n1 ++ n2). split.
      * rewrite E2, E1, app_assoc. reflexivity.
      * apply sublist_app; assumption.
Qed.

(** The searches issued are those of a prefix of the genre list, in order. *)
Lemma searchGenres_trace (srv : Service) (token : string)
    (mainGenres : list string) (pool : Pool) (trace : list Request) :
  exists k,
    snd (searchGenres srv token mainGenres pool trace) =
    trace ++ map (fun g => Search g token) (take k mainGenres).
Proof.
  revert pool trace.
  induction mainGenres as [|g rest IH]; intros pool trace;
    cbn [searchGenres axios_get].
  - exists 0. now rewrite app_nil_r.
  - match goal with |- context [full ?p] => destruct (full p); [|specialize (IH p (trace ++ [Search g token]))] end.
    + exists 1. reflexivity.
    + destruct IH as (k & Ek). exists (S k).
      rewrite Ek, <- app_assoc. reflexivity.
Qed.

(* ------------------------------------------------------------------------- *)
(** ** The ranking and the run as a whole *)

Lemma rank_length artistMap seedGenres moodSettings (pool : list Track) :
  length (rank artistMap seedGenres moodSettings pool) = min 10 (length pool).
Proof.
  unfold rank. rewrite length_take.
  rewrite (Permutation_length (Array_sort_perm _ _)), length_map. reflexivity.
Qed.

Lemma rank_tracks artistMap seedGenres moodSettings (pool : list Track) :
  exists rest,
    Permutation
      (map track (rank artistMap seedGenres moodSettings pool) ++ rest) pool.
Proof.
  unfold rank.
  set (scored := map (scoreTrack artistMap seedGenres moodSettings) pool).
  exists (map track (drop 10 (Array_sort byMoodScore scored))).
  rewrite <- map_app, take_drop.
  rewrite (Permutation_map track (Array_sort_perm byMoodScore scored)).
  subst scored. rewrite map_map. cbn [scoreTrack track].
  rewrite map_id. reflexivity.
Qed.

Lemma recommendation_ids moodSettings name (l : list ScoredCandidate) :
  map id (map (toRecommendation moodSettings name) l) =
  map track_id (map track l).
Proof. rewrite !map_map. reflexivity. Qed.

Lemma collect_ok srv seedSong seedArtistId token seedGenres pool trace :
  collect srv seedSong seedArtistId token = (Normal (seedGenres, pool), trace) ->
  pool_ok (seed_id seedSong) pool.
Proof.
  unfold collect, axios_get.
  destruct (srv [] (GetArtist seedArtistId token)) as [seedArtist|];
    destruct (srv ([] ++ [GetArtist seedArtistId token])
                  (GetTopTracks seedArtistId token)) as [topData|];
    try discriminate.
  match goal with
  | |- context [searchGenres ?s ?t ?g ?p ?tr] =>
      pose proof (searchGenres_ok (seed_id seedSong) s t g p tr
                    (addTopTracks_ok _ _ _ (initial_pool_ok _))) as Hok;
      destruct (searchGenres s t g p tr) as [pool1 trace1]
  end.
  intros E. injection E as _ <- _. exact Hok.
Qed.

(** A run either returns the mock list or ranks a pool that was collected
    and is not empty. *)
Lemma generateSongs_cases srv seedSong moodSettings token :
  fst (generateSongs srv seedSong moodSettings token) =
    Normal (generateMockSongs seedSong moodSettings) \/
  exists tok seedArtistId seedGenres pool trace artistMap name,
    token = Some tok /\
    collect srv seedSong seedArtistId tok = (Normal (seedGenres, pool), trace) /\
    candidateTracks pool <> [] /\
    fst (generateSongs srv seedSong moodSettings token) =
      Normal (map (toRecommendation moodSettings name)
                  (rank artistMap seedGenres moodSettings
                        (candidateTracks pool))).
Proof.
  unfold generateSongs.
  destruct token as [tok|]; [|left; reflexivity].
  destruct (truthy tok); [|left; reflexivity].
  unfold generateSongs_try.
  destruct (primaryArtistId (seed_artists seedSong)) as [seedArtistId|];
    [|left; reflexivity].
  destruct (collect srv seedSong seedArtistId tok) as [[[seedGenres pool]|] trace]
    eqn:Ecollect; [|left; reflexivity].
  destruct (candidateTracks pool) as [|t ts] eqn:Epool; [left; reflexivity|].
  cbn [length Nat.eqb].
  destruct (fetchArtists srv tok _ ∅ trace) as [artistMap trace'].
  right. exists tok, seedArtistId, seedGenres, pool, trace, artistMap.
  eexists. split; [reflexivity|]. split; [exact Ecollect|].
  split; [congruence|]. rewrite Epool. reflexivity.
Qed.

(** Every ranked candidate is the score of a track of the pool. *)
Lemma rank_members artistMap seedGenres moodSettings (pool : list Track)
    (c : ScoredCandidate) :
  In c (rank artistMap seedGenres moodSettings pool) ->
  exists t, In t pool /\ c = scoreTrack artistMap seedGenres moodSettings t.
Proof.
  unfold rank. intros Hc.
  apply list_elem_of_In in Hc. apply elem_of_take in Hc as (i & Hc & _).
  apply list_elem_of_lookup_2, list_elem_of_In in Hc.
  apply (Permutation_in _ (Array_sort_perm _ _)) in Hc.
  apply in_map_iff in Hc as (t & <- & Ht). exists t. split; [exact Ht|reflexivity].
Qed.


(* ------------------------------------------------------------------------- *)
(** ** The artist map of a run *)

Lemma recordArtists_snoc (l : list ArtistObject) (a : ArtistObject)
    (m : gmap string ArtistObject) :
  recordArtists (l ++ [a]) m = <[ artist_id a := a ]> (recordArtists l m).
Proof. unfold recordArtists. rewrite fold_left_app. reflexivity. Qed.

Lemma recordArtists_origin (l : list ArtistObject)
    (m : gmap string ArtistObject) (i : string) (a : ArtistObject) :
  recordArtists l m !! i = Some a ->
  (In a l /\ artist_id a = i) \/ m !! i = Some a.
Proof.
  induction l as [|b l IH] using rev_ind; [right; assumption|].
  rewrite recordArtists_snoc. intros E.
  destruct (decide (artist_id b = i)) as [Eq|Ne].
  - subst i. rewrite lookup_insert_eq in E. injection E as <-.
    left. split; [apply in_app_iff; right; left; reflexivity|reflexivity].
  - rewrite lookup_insert_ne in E by exact Ne.
    destruct (IH E) as [[Hin Eid]|Hm]; [left|right; exact Hm].
    split; [apply in_app_iff; left; exact Hin|exact Eid].
Qed.

Lemma recordArtists_other (l : list ArtistObject)
    (m : gmap string ArtistObject) (i : string) :
  ~ In i (map artist_id l) -> recordArtists l m !! i = m !! i.
Proof.
  induction l as [|b l IH] using rev_ind; [reflexivity|].
  rewrite recordArtists_snoc, map_app, in_app_iff. cbn [map In]. intros Hn.
  rewrite lookup_insert_ne by tauto. apply IH. tauto.
Qed.

Lemma recordArtists_found (l : list ArtistObject)
    (m : gmap string ArtistObject) (a : ArtistObject) :
  NoDup (map artist_id l) -> In a l ->
  recordArtists l m !! artist_id a = Some a.
Proof.
  induction l as [|b l IH] using rev_ind; [intros _ []|].
  rewrite recordArtists_snoc, map_app. cbn [map]. intros Hnd Hin.
  apply NoDup_app in Hnd as (Hnd & Hdisj & _).
  apply in_app_iff in Hin as [Hin|[<-|[]]].
  - rewrite lookup_insert_ne; [apply IH; assumption|].
    intros E. apply (Hdisj (artist_id a)).
    + apply list_elem_of_In, in_map, Hin.
    + rewrite E. apply list_elem_of_singleton. reflexivity.
  - apply lookup_insert_eq.
Qed.

Lemma fetchArtists_trace (srv : Service) (token : string)
    (bs : list (list string)) (m : gmap string ArtistObject)
    (trace : list Request) :
  snd (fetchArtists srv token bs m trace) =
  trace ++ map (fun batch => GetArtists (String.concat "," batch) token) bs.
Proof.
  revert m trace. induction bs as [|b bs IH]; intros m trace;
    cbn [fetchArtists axios_get map].
  - now rewrite app_nil_r.
  - rewrite IH, <- app_assoc. reflexivity.
Qed.

Lemma fetchArtists_origin (srv : Service) (token : string)
    (bs : list (list string)) (m : gmap string ArtistObject)
    (trace : list Request) (i : string) (a : ArtistObject) :
  fst (fetchArtists srv token bs m trace) !! i = Some a ->
  artist_id a = i \/ m !! i = Some a.
Proof.
  revert m trace. induction bs as [|b bs IH]; intros m trace;
    cbn [fetchArtists axios_get]; [right; assumption|].
  intros E. apply IH in E as [E|E]; [left; exact E|].
  destruct (srv trace (GetArtists (String.concat "," b) token)) as [data|];
    [|right; exact E].
  apply recordArtists_origin in E as [[_ E]|E]; [left|right]; exact E.
Qed.

Lemma fetchArtists_all_rejected (srv : Service) (token : string)
    (bs : list (list string)) (m : gmap string ArtistObject)
    (trace : list Request) :
  (forall tr ids, srv tr (GetArtists ids token) = Rejected) ->
  fst (fetchArtists srv token bs m trace) = m.
Proof.
  intros Hrej. revert m trace. induction bs as [|b bs IH]; intros m trace;
    cbn [fetchArtists axios_get]; [reflexivity|].
  rewrite Hrej. apply IH.
Qed.

(** A run against the seed artist and the pool of a collection. *)
Lemma generateSongs_live srv seedSong moodSettings token seedArtistId
    seedGenres pool trace :
  truthy token = true ->
  primaryArtistId (seed_artists seedSong) = Some seedArtistId ->
  collect srv seedSong seedArtistId token = (Normal (seedGenres, pool), trace) ->
  candidateTracks pool <> [] ->
  generateSongs srv seedSong moodSettings (Some token) =
  (Normal (map (toRecommendation moodSettings (seedArtistNameOf seedSong))
               (rank (resolvedArtists srv token pool trace) seedGenres
                     moodSettings (candidateTracks pool))),
   trace ++ map (fun batch => GetArtists (String.concat "," batch) token)
                (batches (collectArtistIds (candidateTracks pool) []))).
Proof.
  intros Htok Hid Ecollect Hne.
  unfold generateSongs, generateSongs_try. rewrite Htok, Hid, Ecollect.
  destruct (candidateTracks pool) as [|t ts] eqn:Epool; [congruence|].
  cbn [length Nat.eqb].
  unfold resolvedArtists. rewrite Epool.
  pose proof (fetchArtists_trace srv token
                (batches (collectArtistIds (t :: ts) [])) ∅ trace) as Htr.
  destruct (fetchArtists srv token _ ∅ trace) as [artistMap trace'].
  cbn [fst snd] in *. rewrite Htr. reflexivity.
Qed.

Lemma array_length_nil {A} : array_length (@nil A).
Proof. unfold array_length. cbn. lia. Qed.

Lemma fetchArtists_arrays (srv : Service) (token : string)
    (bs : list (list string)) (m : gmap string ArtistObject)
    (trace : list Request) :
  service_arrays srv ->
  (forall i a g, m !! i = Some a -> genres a = Some g -> array_length g) ->
  forall i a g,
    fst (fetchArtists srv token bs m trace) !! i = Some a ->
    genres a = Some g -> array_length g.
Proof.
  intros [_ Hsrv]. revert m trace.
  induction bs as [|b bs IH]; intros m trace Hm; cbn [fetchArtists axios_get];
    [exact Hm|].
  apply IH.
  destruct (srv trace (GetArtists (String.concat "," b) token))
    as [data|] eqn:Es; [|exact Hm].
  intros i a g Hi Hg.
  apply recordArtists_origin in Hi as [[Hin _]|Hi]; [|exact (Hm i a g Hi Hg)].
  destruct data as [l|]; [|destruct Hin].
  exact (Hsrv trace _ token l a g Es Hin Hg).
Qed.

Lemma collect_seedGenres srv seedSong seedArtistId token seedGenres pool trace :
  service_arrays srv ->
  collect srv seedSong seedArtistId token = (Normal (seedGenres, pool), trace) ->
  array_length seedGenres.
Proof.
  intros [Hsrv _]. unfold collect, axios_get.
  destruct (srv [] (GetArtist seedArtistId token)) as [seedArtist|] eqn:Ea;
    destruct (srv ([] ++ [GetArtist seedArtistId token])
                  (GetTopTracks seedArtistId token)) as [topData|];
    try discriminate.
  match goal with
  | |- context [searchGenres ?s ?t ?g ?p ?tr] =>
      destruct (searchGenres s t g p tr) as [pool1 trace1]
  end.
  intros E. injection E as <- _ _.
  destruct (genres seedArtist) as [g|] eqn:Eg; [|apply array_length_nil].
  exact (Hsrv [] seedArtistId token seedArtist g Ea Eg).
Qed.

(** A run either returns the mock list or ranks a pool by genre lists that
    are arrays, when those of the service are. *)
Lemma generateSongs_cases_arrays srv seedSong moodSettings token :
  service_arrays srv ->
  fst (generateSongs srv seedSong moodSettings token) =
    Normal (generateMockSongs seedSong moodSettings) \/
  exists artistMap seedGenres pool name,
    genre_arrays artistMap seedGenres /\
    fst (generateSongs srv seedSong moodSettings token) =
      Normal (map (toRecommendation moodSettings name)
                  (rank artistMap seedGenres moodSettings pool)).
Proof.
  intros Hsrv.
  destruct token as [tok|]; [|left; reflexivity].
  destruct (truthy tok) eqn:Htok; [|left; unfold generateSongs; rewrite Htok;
                                     reflexivity].
  destruct (primaryArtistId (seed_artists seedSong)) as [seedArtistId|] eqn:Hid.
  2:{ left. unfold generateSongs, generateSongs_try. rewrite Htok, Hid.
      reflexivity. }
  destruct (collect srv seedSong seedArtistId tok)
    as [[[seedGenres pool]|] trace] eqn:Ecollect.
  2:{ left. unfold generateSongs, generateSongs_try.
      rewrite Htok, Hid, Ecollect. reflexivity. }
  destruct (candidateTracks pool) as [|t ts] eqn:Epool.
  { left. unfold generateSongs, generateSongs_try.
    rewrite Htok, Hid, Ecollect, Epool. reflexivity. }
  right.
  rewrite (generateSongs_live _ _ _ _ _ _ _ _ Htok Hid Ecollect)
    by congruence.
  eexists _, _, _, _. split; [|reflexivity]. split.
  - exact (collect_seedGenres _ _ _ _ _ _ _ Hsrv Ecollect).
  - unfold resolvedArtists. apply fetchArtists_arrays; [exact Hsrv|].
    intros i a g Hi. rewrite lookup_empty in Hi. discriminate Hi.
Qed.

(* ------------------------------------------------------------------------- *)
(** ** The text of a rounded percentage *)

(** Two finite numbers of one value are printed alike. *)
Lemma Number_toString_value (x y : float) :
  Binary64.finite x = true -> Binary64.finite y = true ->
  (Binary64.value x == Binary64.value y)%Q ->
  Number_toString x = Number_toString y.
Proof.
  intros Fx Fy E.
  pose proof (SFcompare_spec _ _ Fx Fy (Prim2SF_valid x) (Prim2SF_valid y))
    as C.
  unfold Binary64.value in E. rewrite (Qcompare_Eq _ _ E) in C.
  unfold Number_toString. unfold Binary64.finite in Fx, Fy.
  destruct (Prim2SF x) as [sx|sx| |sx mx ex],
           (Prim2SF y) as [sy|sy| |sy my ey];
    try discriminate; cbn [SFcompare] in C; try reflexivity.
  - destruct sy; discriminate C.
  - destruct sx; discriminate C.
  - change (Pos.compare_cont Eq mx my) with (mx ?= my)%positive in C.
    destruct sx, sy; try discriminate C;
      destruct (Z.compare_spec ex ey) as [->|H|H]; try discriminate C;
      destruct (Pos.compare_spec mx my) as [->|H|H]; try discriminate C;
      reflexivity.
Qed.

(** The integers below 1000 are printed in decimal. *)
Lemma integer_text (n : Z) :
  (0 <= n < 1000)%Z -> Number_toString (Binary64.of_Z n) = string_of_Z n.
Proof.
  intros Hn.
  assert (H : forallb (fun k => String.eqb
                         (Number_toString (Binary64.of_Z (Z.of_nat k)))
                         (string_of_Z (Z.of_nat k)))
                      (seq 0 1000) = true) by (vm_compute; reflexivity).
  rewrite forallb_forall in H.
  specialize (H (Z.to_nat n)
                (proj2 (in_seq 1000 0 (Z.to_nat n)) ltac:(lia))).
  apply String.eqb_eq in H. rewrite Z2Nat.id in H by lia. exact H.
Qed.

(** The rounding of a finite number from 0 to [hi], at most 110, is printed
    as the decimal text of an integer from 0 to [hi]. *)
Lemma Math_round_text (p : float) (hi : Z) :
  Binary64.finite p = true ->
  (0 <= Binary64.value p)%Q -> (Binary64.value p <= inject_Z hi)%Q ->
  (hi <= 110)%Z ->
  (0 <= roundedPercent p <= hi)%Z /\
  Number_toString (Math_round p) = string_of_Z (roundedPercent p).
Proof.
  intros Fp P0 P1 Hhi. destruct (Math_round_value p Fp) as [F V].
  destruct (Math_round_range p 0 hi Fp P0 P1) as (_ & R0 & R1).
  fold (roundedPercent p) in V. rewrite V, <- Zle_Qle in R0, R1.
  split; [split; assumption|].
  destruct (of_Z_value (roundedPercent p) ltac:(lia)) as [Fn Vn].
  rewrite <- integer_text by lia.
  apply Number_toString_value; [exact F|exact Fn|].
  rewrite V, Vn. reflexivity.
Qed.

(** The product of a number of the unit interval and a constant from 0 to
    [hi]. *)
Lemma unit_product (x k : float) (hi : Z) :
  in_unit x -> Binary64.finite k = true ->
  (0 <= Binary64.value k)%Q -> (Binary64.value k <= inject_Z hi)%Q ->
  (0 <= hi <= 2 ^ 53)%Z ->
  Binary64.finite (x * k) = true /\
  (0 <= Binary64.value (x * k))%Q /\
  (Binary64.value (x * k) <= inject_Z hi)%Q.
Proof.
  intros Hx Fk K0 K1 Hhi. apply in_unit_value in Hx as (Fx & X0 & X1).
  destruct (sandwich_Z _ _ 0 hi (mul_rounds x k Fx Fk)
              ltac:(lia) ltac:(lia)) as (Fw & W0 & W1).
  { change (inject_Z 0) with 0%Q. nra. }
  { nra. }
  change (inject_Z 0) with 0%Q in W0. split; [exact Fw|]. split; assumption.
Qed.

Lemma mockMultipliers_range :
  Forall (fun k : float * float * float =>
            let '(ke, kd, kv) := k in
            (Binary64.finite ke = true /\ (0 <= Binary64.value ke)%Q /\
             (Binary64.value ke <= inject_Z 110)%Q) /\
            (Binary64.finite kd = true /\ (0 <= Binary64.value kd)%Q /\
             (Binary64.value kd <= inject_Z 100)%Q) /\
            (Binary64.finite kv = true /\ (0 <= Binary64.value kv)%Q /\
             (Binary64.value kv <= inject_Z 100)%Q))
         mockMultipliers.
Proof.
  unfold mockMultipliers.
  repeat (constructor;
          [repeat split; first [reflexivity | vm_compute; discriminate]|]).
  constructor.
Qed.

Lemma halfMood_in_unit : in_unit_cube halfMood.
Proof.
  unfold in_unit_cube, in_unit, halfMood; cbn.
  repeat split; vm_compute; reflexivity.
Qed.

(* ------------------------------------------------------------------------- *)
(** ** MockFallbackGenerator *)

(** C8: [generateMockSongs] takes no service and records no request; for
    every seed and every mood it returns the same ten placeholder tracks,
    mock-1 to mock-10, and the [reason] of each entry shows the roundings of
    the products of the three targets and the entry's constants, computed in
    binary64 and not clamped: the third entry multiplies the energy by 110,
    which at energy 1 shows 110%.  The rounding of a finite product [p] is
    the integer [floor (p + 1/2)]; for targets of the unit cube the reason
    of an entry is the decimal text of the three integers, the first at most
    110, each followed by its label.  At the targets (0.5, 0.35, 0.7) the
    second entry shows 31% for 0.35 * 90, which is 31.499999999999996. *)
Theorem generateMockSongs_fixed (seedSong : SeedSong)
    (moodSettings : MoodSettings float) :
  length (generateMockSongs seedSong moodSettings) = 10 /\
  map id (generateMockSongs seedSong moodSettings) =
    ["mock-1"; "mock-2"; "mock-3"; "mock-4"; "mock-5"; "mock-6"; "mock-7";
     "mock-8"; "mock-9"; "mock-10"] /\
  (forall seedSong' moodSettings',
      map placeholder (generateMockSongs seedSong' moodSettings') =
      map placeholder (generateMockSongs seedSong moodSettings)) /\
  map reason (generateMockSongs seedSong moodSettings) =
    map (fun k => mockReason (mockPercents moodSettings k)) mockMultipliers /\
  (forall p : float,
      Binary64.finite p = true ->
      Binary64.finite (Math_round p) = true /\
      (Binary64.value (Math_round p) == inject_Z (roundedPercent p))%Q) /\
  (in_unit_cube moodSettings ->
   forall (i : nat) (ke kd kv : float),
     mockMultipliers !! i = Some (ke, kd, kv) ->
     let e := roundedPercent (energy moodSettings * ke) in
     let d := roundedPercent (danceability moodSettings * kd) in
     let v := roundedPercent (valence moodSettings * kv) in
     (0 <= e <= 110)%Z /\ (0 <= d <= 100)%Z /\ (0 <= v <= 100)%Z /\
     map reason (generateMockSongs seedSong moodSettings) !! i =
       Some (reasonText e d v EmptyString)) /\
  nth_error mockMultipliers 2 = Some (110, 95, 85)%float /\
  (forall srv, generateSongs srv seedSong moodSettings None =
               (Normal (generateMockSongs seedSong moodSettings), [])) /\
  (map reason (generateMockSongs seedSong (mkFeatures 1 1 1)%float)) !! 2 =
    Some "110% energy match, 95% danceability match, 85% mood match" /\
  (0.35 * 90 = 31.499999999999996)%float /\
  (map reason (generateMockSongs seedSong (mkFeatures 0.5 0.35 0.7)%float))
    !! 1 =
    Some "48% energy match, 31% danceability match, 63% mood match".
Proof.
  assert (Hreasons :
    map reason (generateMockSongs seedSong moodSettings) =
    map (fun k => mockReason (mockPercents moodSettings k)) mockMultipliers)
    by reflexivity.
  split; [reflexivity|]. split; [reflexivity|].
  split; [intros seedSong' moodSettings'; reflexivity|].
  split; [exact Hreasons|]. split; [exact Math_round_value|].
  split; [|split; [reflexivity|]; split; [intros srv; reflexivity|];
           split; [vm_compute; reflexivity|]; split; vm_compute; reflexivity].
  intros (He & Hd & Hv) i ke kd kv Hi e d v.
  pose proof (proj1 (List.Forall_forall _ _) mockMultipliers_range
                (ke, kd, kv)
                (proj1 (list_elem_of_In _ _) (list_elem_of_lookup_2 _ _ _ Hi)))
    as ((Fe & E0 & E1) & (Fd & D0 & D1) & (Fv & V0 & V1)).
  destruct (unit_product _ _ 110 He Fe E0 E1 ltac:(lia)) as (Fpe & Pe0 & Pe1).
  destruct (unit_product _ _ 100 Hd Fd D0 D1 ltac:(lia)) as (Fpd & Pd0 & Pd1).
  destruct (unit_product _ _ 100 Hv Fv V0 V1 ltac:(lia)) as (Fpv & Pv0 & Pv1).
  destruct (Math_round_text _ 110 Fpe Pe0 Pe1 ltac:(lia)) as [Re Te].
  destruct (Math_round_text _ 100 Fpd Pd0 Pd1 ltac:(lia)) as [Rd Td].
  destruct (Math_round_text _ 100 Fpv Pv0 Pv1 ltac:(lia)) as [Rv Tv].
  split; [exact Re|]. split; [exact Rd|]. split; [exact Rv|].
  rewrite Hreasons, list_lookup_fmap, Hi. cbn [fmap option_fmap option_map].
  unfold mockReason, mockPercents, reasonText. rewrite Te, Td, Tv.
  reflexivity.
Qed.

(** C8 at the mood (0.5, 0.5, 0.5): the third entry shows 55, 48 and 43, the
    products being 55, 47.5 and 42.5. *)
Lemma generateMockSongs_fixed_witness :
  map reason (generateMockSongs exampleSeed halfMood) !! 2 =
  Some "55% energy match, 48% danceability match, 43% mood match".
Proof.
  destruct (proj1 (proj2 (proj2 (proj2 (proj2 (proj2
              (generateMockSongs_fixed exampleSeed halfMood))))))
              halfMood_in_unit 2 110%float 95%float 85%float eq_refl)
    as (_ & _ & _ & E).
  rewrite E. vm_compute. reflexivity.
Defined.

(* ------------------------------------------------------------------------- *)
(** ** Ranker: the genres a candidate is scored by *)

(** C9: a candidate is scored by the genres of its primary artist whenever
    the artist map resolves that artist to a record with a [genres] field, an
    empty list included, in which case the estimate is the default triple
    {0.6, 0.6, 0.6}; the seed artist's genres are substituted only when the
    candidate has no primary-artist record in the map or the record has no
    [genres] field. *)
Theorem genresOf_substitutes_only_unresolved
    (artistMap : gmap string ArtistObject) (seedGenres : list string)
    (moodSettings : MoodSettings float) (t : Track) :
  let record := primaryArtistId (track_artists t) ≫= (artistMap !!.) in
  (forall a g, record = Some a -> genres a = Some g ->
               genresOf artistMap seedGenres t = g) /\
  (forall a, record = Some a -> genres a = Some [] ->
             features (scoreTrack artistMap seedGenres moodSettings t) =
             mkFeatures 0.6%float 0.6%float 0.6%float) /\
  (record = None -> genresOf artistMap seedGenres t = seedGenres) /\
  (forall a, record = Some a -> genres a = None ->
             genresOf artistMap seedGenres t = seedGenres) /\
  (genresOf artistMap seedGenres t <> seedGenres ->
   exists a g, record = Some a /\ genres a = Some g).
Proof.
  intros record.
  assert (E : genresOf artistMap seedGenres t =
              match record with
              | Some a => default seedGenres (genres a)
              | None => seedGenres
              end).
  { unfold genresOf, record.
    destruct (primaryArtistId (track_artists t)); reflexivity. }
  repeat split.
  - intros a g Ha Hg. rewrite E, Ha, Hg. reflexivity.
  - intros a Ha Hg. unfold scoreTrack; cbn [features].
    rewrite E, Ha, Hg. reflexivity.
  - intros Hn. rewrite E, Hn. reflexivity.
  - intros a Ha Hg. rewrite E, Ha, Hg. reflexivity.
  - intros Hne. rewrite E in Hne.
    destruct record as [a|]; [|congruence].
    destruct (genres a) as [g|] eqn:Eg; [|contradiction].
    exists a, g. split; [reflexivity | exact Eg].
Qed.

(** C9 at a track whose artist is resolved with no genres, the seed artist
    being a techno artist. *)
Lemma genresOf_substitutes_only_unresolved_witness :
  features
    (scoreTrack {[ "artist-0" := mkArtistObject "artist-0" (Some []) ]}
                ["techno"] halfMood (numberedTrack 1)) =
  mkFeatures 0.6%float 0.6%float 0.6%float.
Proof.
  apply (proj1 (proj2 (genresOf_substitutes_only_unresolved
                         {[ "artist-0" := mkArtistObject "artist-0" (Some []) ]}
                         ["techno"] halfMood (numberedTrack 1)))
           (mkArtistObject "artist-0" (Some [])));
    reflexivity.
Defined.


(* ------------------------------------------------------------------------- *)
(** ** Ranker: the match percentages *)

Lemma hundred_value :
  Binary64.finite 100%float = true /\ (Binary64.value 100%float == 100)%Q.
Proof. split; vm_compute; reflexivity. Qed.

Lemma percent_value (x : float) :
  percent x <->
  Binary64.finite x = true /\ (0 <= Binary64.value x)%Q /\
  (Binary64.value x <= 100)%Q.
Proof.
  destruct zero_one_values as (F0 & V0 & _ & _).
  destruct hundred_value as (Fh & Vh). unfold percent. split.
  - intros [H0 H1].
    pose proof (between_finite _ _ _ F0 Fh H0 H1) as Fx.
    apply (leb_value _ _ F0 Fx) in H0. apply (leb_value _ _ Fx Fh) in H1.
    split; [exact Fx|]. split; lra.
  - intros (Fx & H0 & H1). split.
    + apply (leb_value _ _ F0 Fx). lra.
    + apply (leb_value _ _ Fx Fh). lra.
Qed.

(** The number that [matchPercent] rounds. *)
Lemma matchPercent_arg (feature target : float) :
  in_unit feature -> in_unit target ->
  let w := ((1 - abs (feature - target)) * 100)%float in
  Binary64.finite w = true /\ (0 <= Binary64.value w)%Q /\
  (Binary64.value w <= inject_Z 100)%Q.
Proof.
  intros Hf Ht.
  pose proof (diff_in_unit _ _ Hf Ht) as D.
  apply in_unit_value in D as (Fd & D0 & D1).
  destruct zero_one_values as (_ & _ & F1 & V1).
  destruct hundred_value as (Fh & Vh).
  destruct (sandwich_Z _ _ 0 1 (sub_rounds 1 _ F1 Fd) ltac:(lia) ltac:(lia))
    as (Fu & U0 & U1).
  { change (inject_Z 0) with 0%Q. lra. }
  { change (inject_Z 1) with 1%Q. lra. }
  change (inject_Z 0) with 0%Q in U0. change (inject_Z 1) with 1%Q in U1.
  destruct (sandwich_Z _ _ 0 100 (mul_rounds _ 100 Fu Fh)
              ltac:(lia) ltac:(lia)) as (Fw & W0 & W1).
  { change (inject_Z 0) with 0%Q. rewrite Vh. lra. }
  { change (inject_Z 100) with 100%Q. rewrite Vh. lra. }
  change (inject_Z 0) with 0%Q in W0. split; [exact Fw|]. split; assumption.
Qed.

Lemma matchPercent_in_range (feature target : float) :
  in_unit feature -> in_unit target -> percent (matchPercent feature target).
Proof.
  intros Hf Ht. destruct (matchPercent_arg _ _ Hf Ht) as (Fw & W0 & W1).
  apply percent_value. unfold matchPercent.
  apply (Math_round_range _ 0 100 Fw W0 W1).
Qed.

(** A live percentage is printed as the decimal text of an integer from 0
    to 100. *)
Lemma matchPercent_text (feature target : float) :
  in_unit feature -> in_unit target ->
  let n := roundedPercent ((1 - abs (feature - target)) * 100)%float in
  (0 <= n <= 100)%Z /\
  Number_toString (matchPercent feature target) = string_of_Z n.
Proof.
  intros Hf Ht. destruct (matchPercent_arg _ _ Hf Ht) as (Fw & W0 & W1).
  exact (Math_round_text _ 100 Fw W0 W1 ltac:(lia)).
Qed.

Lemma liveReason_text (e d v : float) (ne nd nv : Z) (name : string) :
  Number_toString e = string_of_Z ne -> Number_toString d = string_of_Z nd ->
  Number_toString v = string_of_Z nv ->
  liveReason e d v name =
  reasonText ne nd nv
    (" (estimated from genres similar to " +:+ name +:+ ")").
Proof.
  intros He Hd Hv. unfold liveReason, reasonText. rewrite He, Hd, Hv.
  reflexivity.
Qed.

(** C10: on the live path, when the mood settings lie in the unit cube, each
    of the three percentages of a candidate's [reason], the rounding of
    (1 - |feature - target|) * 100 computed in binary64, lies in [0,100],
    and the reason shows the three integers in decimal; so does every
    recommendation of a run that does not return the mock list.  A live
    percentage outside [0,100] needs mood settings outside the unit cube (a
    target energy of 2 shows -40%), the other source being the constants of
    the mock list (110% at energy 1).  The genre lists are arrays.  For the
    genres EDM and Indie and the target energy 0.5 the percentage is 77, the
    number rounded being 77.49999999999999. *)
Theorem live_percentages_in_range
    (artistMap : gmap string ArtistObject) (seedGenres : list string)
    (moodSettings : MoodSettings float) (seedArtistName : string) (t : Track) :
  let c := scoreTrack artistMap seedGenres moodSettings t in
  let energyMatch := matchPercent (energy (features c)) (energy moodSettings) in
  let danceMatch :=
    matchPercent (danceability (features c)) (danceability moodSettings) in
  let valenceMatch :=
    matchPercent (valence (features c)) (valence moodSettings) in
  reason (toRecommendation moodSettings seedArtistName c) =
    liveReason energyMatch danceMatch valenceMatch seedArtistName /\
  (genre_arrays artistMap seedGenres -> in_unit_cube moodSettings ->
   (percent energyMatch /\ percent danceMatch /\ percent valenceMatch) /\
   exists e d v : Z,
     (0 <= e <= 100)%Z /\ (0 <= d <= 100)%Z /\ (0 <= v <= 100)%Z /\
     inject_Z e == Binary64.value energyMatch /\
     inject_Z d == Binary64.value danceMatch /\
     inject_Z v == Binary64.value valenceMatch /\
     reason (toRecommendation moodSettings seedArtistName c) =
       reasonText e d v (" (estimated from genres similar to " +:+
                         seedArtistName +:+ ")")) /\
  (genre_arrays artistMap seedGenres ->
   ~ (percent energyMatch /\ percent danceMatch /\ percent valenceMatch) ->
   ~ in_unit_cube moodSettings) /\
  (forall (srv : Service) (seedSong : SeedSong) (token : option string)
          (l : list Recommendation),
      service_arrays srv -> in_unit_cube moodSettings ->
      fst (generateSongs srv seedSong moodSettings token) = Normal l ->
      l = generateMockSongs seedSong moodSettings \/
      forall r, In r l ->
        exists (e d v : Z) (name : string),
          (0 <= e <= 100)%Z /\ (0 <= d <= 100)%Z /\ (0 <= v <= 100)%Z /\
          reason r =
            reasonText e d v (" (estimated from genres similar to " +:+
                              name +:+ ")")) /\
  matchPercent (energy (estimateFeaturesFromGenres (Some ["EDM"; "Indie"])))
               0.5 = 77%float /\
  matchPercent (energy (estimateFeaturesFromGenres None)) 2 = (-40)%float /\
  Math_round (1 * 110) = 110%float.
Proof.
  intros c energyMatch danceMatch valenceMatch.
  assert (Htext : forall am sg tr name,
            genre_arrays am sg -> in_unit_cube moodSettings ->
            let c' := scoreTrack am sg moodSettings tr in
            let m1 := matchPercent (energy (features c'))
                                   (energy moodSettings) in
            let m2 := matchPercent (danceability (features c'))
                                   (danceability moodSettings) in
            let m3 := matchPercent (valence (features c'))
                                   (valence moodSettings) in
            (percent m1 /\ percent m2 /\ percent m3) /\
            exists e d v : Z,
              (0 <= e <= 100)%Z /\ (0 <= d <= 100)%Z /\ (0 <= v <= 100)%Z /\
              inject_Z e == Binary64.value m1 /\
              inject_Z d == Binary64.value m2 /\
              inject_Z v == Binary64.value m3 /\
              reason (toRecommendation moodSettings name c') =
                reasonText e d v (" (estimated from genres similar to " +:+
                                  name +:+ ")")).
  { intros am sg tr name Harr (M1 & M2 & M3) c' m1 m2 m3.
    destruct (scoreTrack_in_unit am sg moodSettings tr Harr) as (F1 & F2 & F3).
    fold c' in F1, F2, F3.
    split; [repeat apply conj; apply matchPercent_in_range; assumption|].
    destruct (matchPercent_text _ _ F1 M1) as [R1 T1].
    destruct (matchPercent_text _ _ F2 M2) as [R2 T2].
    destruct (matchPercent_text _ _ F3 M3) as [R3 T3].
    destruct (matchPercent_arg _ _ F1 M1) as (A1 & _).
    destruct (matchPercent_arg _ _ F2 M2) as (A2 & _).
    destruct (matchPercent_arg _ _ F3 M3) as (A3 & _).
    eexists _, _, _. split; [exact R1|]. split; [exact R2|].
    split; [exact R3|].
    split; [symmetry; exact (proj2 (Math_round_value _ A1))|].
    split; [symmetry; exact (proj2 (Math_round_value _ A2))|].
    split; [symmetry; exact (proj2 (Math_round_value _ A3))|].
    exact (liveReason_text _ _ _ _ _ _ name T1 T2 T3). }
  split; [reflexivity|].
  split; [intros Harr Hcube;
          exact (Htext artistMap seedGenres t seedArtistName Harr Hcube)|].
  split; [intros Harr Hout Hcube;
          exact (Hout (proj1 (Htext artistMap seedGenres t seedArtistName
                                Harr Hcube)))|].
  split; [|repeat split; vm_compute; reflexivity].
  intros srv seedSong token l Hsrv Hcube El.
  destruct (generateSongs_cases_arrays srv seedSong moodSettings token Hsrv)
    as [E | (artistMap' & genres' & pool & name & Harr & E)];
    rewrite E in El; injection El as <-; [left; reflexivity|right].
  intros r Hr. apply in_map_iff in Hr as (c' & <- & Hc').
  apply rank_members in Hc' as (t' & _ & ->).
  destruct (Htext artistMap' genres' t' name Harr Hcube)
    as (_ & e & d & v & He & Hd & Hv & _ & _ & _ & Hreason).
  exists e, d, v, name. repeat (split; [assumption|]). exact Hreason.
Qed.

Lemma rockLofi_arrays : genre_arrays rockLofiArtists [].
Proof.
  split; [apply array_length_nil|]. intros i a g Hi Hg.
  unfold rockLofiArtists in Hi.
  apply lookup_insert_Some in Hi as [[_ <-]|[_ Hi]].
  - injection Hg as <-. unfold array_length. cbn. lia.
  - apply lookup_singleton_Some in Hi as [_ <-].
    injection Hg as <-. unfold array_length. cbn. lia.
Qed.

(** C10 at a rock track and the mood (0.5, 0.5, 0.5). *)
Lemma live_percentages_in_range_witness :
  percent (matchPercent
             (energy (features (scoreTrack rockLofiArtists [] halfMood
                                           rockTrack)))
             (energy halfMood)).
Proof.
  exact (proj1 (proj1 (proj1 (proj2 (live_percentages_in_range
                                       rockLofiArtists [] halfMood
                                       "Seed Artist" rockTrack))
                         rockLofi_arrays halfMood_in_unit))).
Defined.

(* ------------------------------------------------------------------------- *)
(** ** Ranker: length, order, stability *)

Lemma Array_sort_not_above (l : list ScoredCandidate) (n : bool) :
  Forall (fun c => PrimFloat.is_nan (moodScore c) = n) l ->
  StronglySorted not_above (Array_sort byMoodScore l).
Proof.
  intros Hl. destruct n.
  - rewrite Array_sort_all_tied; [apply all_tied_sorted|];
      intros a b Ha _; apply ltb_nan_r;
      exact (proj1 (List.Forall_forall _ _) Hl a Ha).
  - eapply StronglySorted_impl; [exact le_score_not_above|].
    apply Array_sort_sorted, Hl.
Qed.

Lemma scored_nan artistMap seedGenres moodSettings (pool : list Track) :
  genre_arrays artistMap seedGenres ->
  Forall (fun c => PrimFloat.is_nan (moodScore c) = has_nan moodSettings)
         (map (scoreTrack artistMap seedGenres moodSettings) pool).
Proof.
  intros Harr. apply List.Forall_forall. intros c Hc.
  apply in_map_iff in Hc as (t & <- & _). apply scoreTrack_nan, Harr.
Qed.

(** C3: for every candidate pool the ranked output has length
    min(10, poolSize); it ascends in mood score, compared as the code
    compares them, in binary64: no candidate stands before one of a smaller
    score, and the tracks cut are no better than those kept; the sort is
    stable, the candidates of one mood score keeping the order of the pool,
    which the output cuts to a prefix.  When a target is NaN every score is
    NaN, no score is smaller than another, and the output is the first ten
    candidates of the pool.  The pool itself is in collection order: kept
    top tracks first, in the order of the top-tracks list, then kept search
    hits, in genre-list order and within a genre in search-result order.
    For a rock and a lo-fi track and the mood (0.5, 0.5, 0.5), whose exact
    scores are equal, the binary64 scores are 0.40000000000000013 and
    0.39999999999999997, and the lo-fi track is ranked first. *)
Theorem rank_sorted_stable_top_ten :
  (forall (artistMap : gmap string ArtistObject) (seedGenres : list string)
          (moodSettings : MoodSettings float) (pool : list Track),
      let scored := map (scoreTrack artistMap seedGenres moodSettings) pool in
      let out := rank artistMap seedGenres moodSettings pool in
      length out = min 10 (length pool) /\
      (forall s, List.filter (sameScore s) out
                 `prefix_of` List.filter (sameScore s) scored) /\
      (genre_arrays artistMap seedGenres ->
       StronglySorted not_above out /\
       (has_nan moodSettings = false -> StronglySorted le_score out) /\
       (has_nan moodSettings = true -> out = take 10 scored) /\
       exists rest, Permutation (out ++ rest) scored /\
                    forall a b, In a out -> In b rest -> not_above a b)) /\
  (forall (srv : Service) (seedSong : SeedSong) (seedArtistId token : string)
          (seedGenres : list string) (pool : Pool) (trace : list Request)
          (topData : option (list Track)),
      collect srv seedSong seedArtistId token =
        (Normal (seedGenres, pool), trace) ->
      srv [GetArtist seedArtistId token] (GetTopTracks seedArtistId token) =
        Resolved topData ->
      exists top hits,
        candidateTracks pool = top ++ hits /\
        top `sublist_of` default [] topData /\
        hits `sublist_of`
          searchReplies srv token (take 2 seedGenres)
            [GetArtist seedArtistId token; GetTopTracks seedArtistId token]) /\
  map (fun c => (track_id (track c), moodScore c))
      (rank rockLofiArtists [] halfMood [rockTrack; lofiTrack]) =
    [("t-lofi", 0.39999999999999997%float);
     ("t-rock", 0.40000000000000013%float)].
Proof.
  split; [|split; [|vm_compute; reflexivity]].
  - intros artistMap seedGenres moodSettings pool scored out.
    split; [apply rank_length|]. split.
    { intros s. unfold out, rank. fold scored.
      rewrite <- (Array_sort_stable s scored). apply filter_take_prefix. }
    intros Harr.
    pose proof (scored_nan artistMap seedGenres moodSettings pool Harr)
      as Hnan. fold scored in Hnan.
    pose proof (Array_sort_not_above scored _ Hnan) as Hsorted.
    rewrite <- (take_drop 10 (Array_sort byMoodScore scored)) in Hsorted.
    split; [exact (StronglySorted_app_1_l _ _ _ Hsorted)|].
    split; [|split].
    + intros Hn. rewrite Hn in Hnan.
      pose proof (Array_sort_sorted scored Hnan) as Hle.
      rewrite <- (take_drop 10 (Array_sort byMoodScore scored)) in Hle.
      exact (StronglySorted_app_1_l _ _ _ Hle).
    + intros Hn. rewrite Hn in Hnan. unfold out, rank. fold scored.
      rewrite Array_sort_all_tied; [reflexivity|].
      intros a b Ha _. apply ltb_nan_r.
      exact (proj1 (List.Forall_forall _ _) Hnan a Ha).
    + exists (drop 10 (Array_sort byMoodScore scored)). split.
      * unfold out, rank. fold scored. rewrite take_drop.
        apply Array_sort_perm.
      * intros a b Ha Hb.
        apply (StronglySorted_app_1_elem_of _ _ _ _ _ Hsorted);
          apply list_elem_of_In; assumption.
  - intros srv seedSong seedArtistId token seedGenres pool trace topData.
    unfold collect, axios_get. cbn [app]. intros E Etop. rewrite Etop in E.
    destruct (srv [] (GetArtist seedArtistId token)) as [seedArtist|];
      [|discriminate].
    match type of E with
    | context [searchGenres ?s ?t ?g ?p ?tr] =>
        destruct (searchGenres_appends s t g p tr) as (hits & Ehits & Shits);
        destruct (searchGenres s t g p tr) as [pool1 trace1]
    end.
    injection E as <- <- _. cbn [fst] in Ehits.
    destruct (addTopTracks_appends (default [] topData)
                (mkPool [] {[ seed_id seedSong ]})) as (top & Etop' & Stop).
    exists top, hits. repeat split; [|exact Stop|exact Shits].
    rewrite Ehits, Etop'. reflexivity.
Qed.

(** C3 at the rock and the lo-fi track: the output ascends. *)
Lemma rank_sorted_stable_top_ten_witness :
  StronglySorted le_score
    (rank rockLofiArtists [] halfMood [rockTrack; lofiTrack]).
Proof.
  exact (proj1 (proj2 (proj2 (proj2 (proj1 rank_sorted_stable_top_ten
                  rockLofiArtists [] halfMood [rockTrack; lofiTrack]))
                  rockLofi_arrays)) eq_refl).
Defined.

(* ------------------------------------------------------------------------- *)
(** ** The identifiers of the output *)

(** C4, as stated, fails on the mock path: with no token, the seed "mock-1"
    is answered with a list that contains the identifier "mock-1". *)
Lemma mock_list_contains_seed_id :
  exists l,
    fst (generateSongs deadService placeholderSeed halfMood None) = Normal l /\
    In (seed_id placeholderSeed) (map id l).
Proof.
  eexists. split; [reflexivity|]. left. reflexivity.
Qed.

(** C4 (amended): in every run no identifier repeats in the output, and the
    seed's identifier is not in the output of the live path.  The mock path
    returns the identifiers mock-1 to mock-10 whatever the seed, so its
    output is free of the seed's identifier exactly when the seed is not one
    of those ten. *)
Theorem output_ids_distinct (srv : Service) (seedSong : SeedSong)
    (moodSettings : MoodSettings float) (token : option string) :
  let mockIds := map id (generateMockSongs seedSong moodSettings) in
  mockIds = ["mock-1"; "mock-2"; "mock-3"; "mock-4"; "mock-5"; "mock-6";
             "mock-7"; "mock-8"; "mock-9"; "mock-10"] /\
  exists l,
    fst (generateSongs srv seedSong moodSettings token) = Normal l /\
    NoDup (map id l) /\
    (l = generateMockSongs seedSong moodSettings \/
     ~ In (seed_id seedSong) (map id l)) /\
    (~ In (seed_id seedSong) mockIds -> ~ In (seed_id seedSong) (map id l)).
Proof.
  intros mockIds. split; [reflexivity|].
  assert (Hmock : NoDup mockIds).
  { apply (bool_decide_unpack _). vm_compute. exact I. }
  destruct (generateSongs_cases srv seedSong moodSettings token)
    as [E | (tok & sid & seedGenres & pool & trace & artistMap & name &
             _ & Ecollect & _ & E)];
    rewrite E; eexists; (split; [reflexivity|]).
  - split; [exact Hmock|]. split; [left; reflexivity | tauto].
  - destruct (collect_ok _ _ _ _ _ _ _ Ecollect) as (Hnd & _ & _ & Hno).
    destruct (rank_tracks artistMap seedGenres moodSettings
                (candidateTracks pool)) as (rest & Hperm).
    rewrite recommendation_ids.
    apply (Permutation_map track_id) in Hperm. rewrite map_app in Hperm.
    assert (Hseed : ~ In (seed_id seedSong)
                      (map track_id
                         (map track (rank artistMap seedGenres moodSettings
                                          (candidateTracks pool))))).
    { intros Hin. apply Hno. apply (Permutation_in _ Hperm).
      apply in_app_iff. left. exact Hin. }
    split; [|split; [right; exact Hseed | intros _; exact Hseed]].
    rewrite <- Hperm in Hnd.
    apply NoDup_app in Hnd. tauto.
Qed.

(* ------------------------------------------------------------------------- *)
(** ** CandidateCollector: the cap of 40 and the failed searches *)

(** C5, as stated, fails on the code: the seed artist has the genres rock and
    jazz and twenty top tracks, the search for rock brings the pool to 40,
    and the search for jazz, the remaining genre of the list, is not
    issued. *)
Lemma full_pool_aborts_remaining_search :
  let run := collect crowdedService exampleSeed "artist-0" "token" in
  match fst run with
  | Normal (seedGenres, pool) =>
      take 2 seedGenres = ["rock"; "jazz"] /\
      length (candidateTracks pool) = 40
  | Throw => False
  end /\
  snd run = [GetArtist "artist-0" "token"; GetTopTracks "artist-0" "token";
             Search "rock" "token"] /\
  ~ In (Search "jazz" "token") (snd run).
Proof.
  vm_compute. split; [split; reflexivity|]. split; [reflexivity|].
  intros [H|[H|[H|[]]]]; discriminate H.
Qed.

Lemma addFound_cap (found : list Track) (pool : Pool) :
  length (candidateTracks pool) < 40 ->
  length (candidateTracks (addFound found pool)) <= 40.
Proof.
  revert pool. induction found as [|t rest IH]; intros pool Hlt; simpl.
  - lia.
  - destruct (full (addUnseen t pool)) eqn:Efull.
    + destruct (addUnseen_appends t pool) as (new & E & Hsub).
      rewrite E, length_app. apply sublist_length in Hsub. simpl in Hsub. lia.
    + apply IH. unfold full in Efull. apply Nat.leb_gt in Efull. exact Efull.
Qed.

(** C5 (amended): the cap is checked after every hit and after every search.
    A search that starts below 40 never takes the pool above 40, and a hit
    that leaves the pool at 40 or more ends the additions of its search.  A
    search that leaves the pool at 40 or more ends the loop over the genre
    list: the remaining genre searches are not issued.  A failed search adds
    nothing and is skipped: while the pool is below 40 the next genre is
    searched; and the searches issued are always those of a prefix of the
    genre list. *)
Theorem genre_search_cap_and_failures (srv : Service) (token : string)
    (g : string) (rest : list string) (pool : Pool) (trace : list Request) :
  let pool' :=
    match srv trace (Search g token) with
    | Resolved data => addFound (default [] data) pool
    | Rejected => pool
    end in
  (forall found, length (candidateTracks pool) < 40 ->
                 length (candidateTracks (addFound found pool)) <= 40) /\
  (forall t found, full (addUnseen t pool) = true ->
                   addFound (t :: found) pool = addUnseen t pool) /\
  (full pool' = true ->
   searchGenres srv token (g :: rest) pool trace =
     (pool', trace ++ [Search g token])) /\
  (full pool' = false ->
   searchGenres srv token (g :: rest) pool trace =
     searchGenres srv token rest pool' (trace ++ [Search g token])) /\
  (srv trace (Search g token) = Rejected -> full pool = false ->
   searchGenres srv token (g :: rest) pool trace =
     searchGenres srv token rest pool (trace ++ [Search g token])) /\
  (exists k,
      snd (searchGenres srv token (g :: rest) pool trace) =
      trace ++ map (fun g' => Search g' token) (take k (g :: rest))).
Proof.
  intros pool'.
  split; [intros found; apply addFound_cap|].
  split; [intros t found Efull; cbn [addFound]; rewrite Efull; reflexivity|].
  split; [intros Efull; cbn [searchGenres axios_get]; fold pool';
          rewrite Efull; reflexivity|].
  split; [intros Efull; cbn [searchGenres axios_get]; fold pool';
          rewrite Efull; reflexivity|].
  split; [|apply searchGenres_trace].
  intros Erej Efull. cbn [searchGenres axios_get].
  rewrite Erej, Efull. reflexivity.
Qed.

(** C5 against the dead service: the failed search for rock is skipped and
    the search for jazz is issued. *)
Lemma genre_search_cap_and_failures_witness :
  searchGenres deadService "token" ["rock"; "jazz"] (mkPool [] ∅) [] =
  (mkPool [] ∅, [Search "rock" "token"; Search "jazz" "token"]).
Proof.
  rewrite (proj1 (proj2 (proj2 (proj2 (proj2
             (genre_search_cap_and_failures
                deadService "token" "rock" ["jazz"] (mkPool [] ∅) []))))));
    reflexivity.
Defined.

(* ------------------------------------------------------------------------- *)
(** ** The entry point *)

Lemma generateSongs_try_trace_of_mock srv seedSong moodSettings token :
  primaryArtistId (seed_artists seedSong) = None ->
  generateSongs_try srv seedSong moodSettings token =
  (Normal (generateMockSongs seedSong moodSettings), []).
Proof. unfold generateSongs_try. intros ->. reflexivity. Qed.

(** C1: for every service, seed, mood and token, [generateSongs] settles
    with a list of at most 10 recommendations and does not throw.  It returns
    the mock list, with no request issued, when the token is absent (or
    empty) and when the seed has no primary-artist identifier; and it returns
    the mock list when the collection ends with no candidate and when the
    retrieval of the seed artist or of the top tracks fails. *)
Theorem generateSongs_total (srv : Service) (seedSong : SeedSong)
    (moodSettings : MoodSettings float) (token : option string) :
  let mock := generateMockSongs seedSong moodSettings in
  (exists l, fst (generateSongs srv seedSong moodSettings token) = Normal l /\
             length l <= 10) /\
  (token = None \/ token = Some EmptyString ->
   generateSongs srv seedSong moodSettings token = (Normal mock, [])) /\
  (primaryArtistId (seed_artists seedSong) = None ->
   generateSongs srv seedSong moodSettings token = (Normal mock, [])) /\
  (forall tok seedArtistId,
      token = Some tok -> truthy tok = true ->
      primaryArtistId (seed_artists seedSong) = Some seedArtistId ->
      (forall seedGenres pool trace,
          collect srv seedSong seedArtistId tok =
            (Normal (seedGenres, pool), trace) ->
          candidateTracks pool = [] ->
          generateSongs srv seedSong moodSettings token =
            (Normal mock, trace)) /\
      (forall trace,
          collect srv seedSong seedArtistId tok = (Throw, trace) ->
          generateSongs srv seedSong moodSettings token =
            (Normal mock, trace)) /\
      (srv [] (GetArtist seedArtistId tok) = Rejected \/
       srv [GetArtist seedArtistId tok] (GetTopTracks seedArtistId tok) =
         Rejected ->
       collect srv seedSong seedArtistId tok =
         (Throw, [GetArtist seedArtistId tok;
                  GetTopTracks seedArtistId tok]))).
Proof.
  intros mock. split.
  { destruct (generateSongs_cases srv seedSong moodSettings token)
      as [E | (tok & sid & seedGenres & pool & trace & artistMap & name &
               _ & _ & _ & E)]; rewrite E; eexists; (split; [reflexivity|]).
    - cbn. lia.
    - rewrite length_map, rank_length. lia. }
  split.
  { intros [-> | ->]; reflexivity. }
  split.
  { intros Hnone. unfold generateSongs.
    destruct token as [tok|]; [|reflexivity].
    destruct (truthy tok); [|reflexivity].
    rewrite (generateSongs_try_trace_of_mock _ _ _ _ Hnone). reflexivity. }
  intros tok seedArtistId -> Htok Hid.
  unfold generateSongs, generateSongs_try. rewrite Htok, Hid.
  split; [|split].
  - intros seedGenres pool trace -> ->. reflexivity.
  - intros trace ->. reflexivity.
  - unfold collect, axios_get. cbn [app].
    intros [E | E]; rewrite E;
      [destruct (srv [GetArtist seedArtistId tok]
                     (GetTopTracks seedArtistId tok)) |
       destruct (srv [] (GetArtist seedArtistId tok))];
      reflexivity.
Qed.

(** C1 with the token absent, and against the dead service with a token. *)
Lemma generateSongs_total_witness :
  generateSongs deadService exampleSeed halfMood None =
    (Normal (generateMockSongs exampleSeed halfMood), []) /\
  generateSongs deadService exampleSeed halfMood (Some "token") =
    (Normal (generateMockSongs exampleSeed halfMood),
     [GetArtist "artist-0" "token"; GetTopTracks "artist-0" "token"]).
Proof.
  pose proof (generateSongs_total deadService exampleSeed halfMood None)
    as (_ & Habsent & _).
  pose proof (generateSongs_total deadService exampleSeed halfMood
                (Some "token")) as (_ & _ & _ & Hlive).
  destruct (Hlive "token" "artist-0" eq_refl eq_refl eq_refl)
    as (_ & Hthrow & Hrej).
  split.
  - apply Habsent. left. reflexivity.
  - apply Hthrow. apply Hrej. left. reflexivity.
Defined.



(* ========================================================================= *)
(** * Further properties of the code *)

(* ------------------------------------------------------------------------- *)
(** ** formatDuration *)

Local Open Scope Z_scope.

(** [Math_floor] returns the integer [floor v]. *)
Lemma Math_floor_value (x : float) :
  Binary64.finite x = true ->
  Binary64.finite (Math_floor x) = true /\
  (Binary64.value (Math_floor x) == inject_Z (Qfloor (Binary64.value x)))%Q.
Proof.
  unfold Binary64.finite at 1, Math_floor, Binary64.value at 2.
  destruct (Prim2SF x) as [s|s| |s m e] eqn:E; try discriminate; intros _.
  - unfold Binary64.finite, Binary64.value. rewrite E. split; reflexivity.
  - destruct (Z.leb_spec 0 e) as [He|He].
    + unfold Binary64.finite, Binary64.value. rewrite E. split; [reflexivity|].
      cbn [SF2Q]. rewrite (F2Q_nonneg_exp _ _ He), Qfloor_Z. reflexivity.
    + cbn [SF2Q]. cbv zeta.
      set (k := signed s m).
      set (n := k / 2 ^ (- e)).
      assert (Hp : 0 < 2 ^ (- e)) by (apply pow2_pos; lia).
      assert (Hlo : 2 ^ (- e) * n <= k) by (apply Z.mul_div_le; lia).
      assert (Hhi : k < 2 ^ (- e) * (n + 1)).
      { replace (n + 1) with (Z.succ n) by lia. apply Z.mul_succ_div_gt. lia. }
      assert (Hfl : Qfloor (F2Q k e) = n).
      { pose proof (F2Q_neg_exp k e He) as Ek.
        assert (Hq : (0 < inject_Z (2 ^ (- e)))%Q).
        { change 0%Q with (inject_Z 0). rewrite <- Zlt_Qlt. exact Hp. }
        apply Qfloor_unique.
        - apply (Qmult_le_r _ _ (inject_Z (2 ^ (- e)))); [exact Hq|].
          rewrite Ek, <- inject_Z_mult, <- Zle_Qle. lia.
        - apply (Qmult_lt_r _ _ (inject_Z (2 ^ (- e)))); [exact Hq|].
          rewrite Ek, <- inject_Z_mult, <- Zlt_Qlt. lia. }
      rewrite Hfl.
      assert (Hk : Z.abs k < 2 ^ 53).
      { pose proof (Prim2SF_valid x) as V. rewrite E in V. cbn [valid_binary] in V.
        destruct (bounded_facts _ _ V) as (Hm & _ & _).
        unfold k. destruct s; cbn [signed]; lia. }
      assert (Hn : Z.abs n <= 2 ^ 53) by nia.
      destruct (Z.eqb_spec n 0) as [->|Hnz].
      * split; reflexivity.
      * apply of_Z_value, Hn.
Qed.

(** A rounding of a representable number is the number. *)
Lemma exact_value (v : Q) (z : float) :
  rounds_to v (Prim2SF z) -> representable v ->
  (- bpow 1024 < v)%Q -> (v < bpow 1024)%Q ->
  Binary64.finite z = true /\ (Binary64.value z == v)%Q.
Proof.
  intros R Hv H1 H2.
  destruct (sandwich v z v v R Hv Hv H1 H2 (Qle_refl v) (Qle_refl v))
    as (F & A & B).
  split; [exact F|]. lra.
Qed.

(** The whole part of the quotient of two integers, the divisor at most
    1024: the rounding of the quotient does not reach the next integer. *)
Lemma div_floor (a b : float) (A B : Z) :
  Binary64.finite a = true -> Binary64.finite b = true ->
  (Binary64.value a == inject_Z A)%Q -> (Binary64.value b == inject_Z B)%Q ->
  0 <= A -> 0 < B <= 1024 -> (A / B + 1) * 1024 <= 2 ^ 53 ->
  Binary64.finite (Math_floor (a / b)) = true /\
  (Binary64.value (Math_floor (a / b)) == inject_Z (A / B))%Q.
Proof.
  intros Fa Fb Va Vb HA HB Hq.
  assert (HBq : (0 < inject_Z B)%Q).
  { change 0%Q with (inject_Z 0). rewrite <- Zlt_Qlt. lia. }
  assert (Hnz : ~ (Binary64.value b == 0)%Q) by (rewrite Vb; lra).
  pose proof (div_rounds a b Fa Fb Hnz) as R.
  set (q := A / B) in *.
  pose proof (Z.mul_div_le A B ltac:(lia)) as Hlo. fold q in Hlo.
  pose proof (Z.mul_succ_div_gt A B ltac:(lia)) as Hhi. fold q in Hhi.
  assert (Hq0 : 0 <= q) by (apply Z.div_pos; lia).
  set (U := F2Q ((q + 1) * 1024 - 1) (-10)).
  assert (EU : (U * 1024 == inject_Z ((q + 1) * 1024 - 1))%Q).
  { unfold U. exact (F2Q_neg_exp ((q + 1) * 1024 - 1) (-10) ltac:(lia)). }
  assert (RU : representable U).
  { exists ((q + 1) * 1024 - 1), (-10). split; [lia|]. split; [lia|].
    reflexivity. }
  assert (Ev : (Binary64.value a / Binary64.value b * inject_Z B ==
                inject_Z A)%Q).
  { rewrite Va, Vb. field. lra. }
  set (v := (Binary64.value a / Binary64.value b)%Q) in *.
  assert (L1 : (inject_Z q <= v)%Q).
  { apply (Qmult_le_r _ _ (inject_Z B)); [exact HBq|].
    rewrite Ev, <- inject_Z_mult, <- Zle_Qle. lia. }
  assert (L2 : (v <= U)%Q).
  { apply (Qmult_le_r _ _ (inject_Z B * 1024)); [lra|].
    assert (E1 : (v * (inject_Z B * 1024) == inject_Z A * 1024)%Q)
      by (rewrite <- Ev; ring).
    assert (E2 : (U * (inject_Z B * 1024) ==
                  inject_Z ((q + 1) * 1024 - 1) * inject_Z B)%Q)
      by (rewrite <- EU; ring).
    rewrite E1, E2.
    change 1024%Q with (inject_Z 1024).
    rewrite <- !inject_Z_mult, <- Zle_Qle. nia. }
  assert (L3 : (U < inject_Z (q + 1))%Q).
  { apply (Qmult_lt_r _ _ 1024); [reflexivity|]. rewrite EU.
    change 1024%Q with (inject_Z 1024).
    rewrite <- inject_Z_mult, <- Zlt_Qlt. lia. }
  destruct (inject_Z_below q ltac:(lia)) as [B1 _].
  destruct (inject_Z_below (q + 1) ltac:(lia)) as [_ B2].
  destruct (sandwich v (a / b) (inject_Z q) U R
              (representable_Z q ltac:(lia)) RU B1 ltac:(lra) L1 L2)
    as (F & W0 & W1).
  destruct (Math_floor_value _ F) as [Ff Vf]. split; [exact Ff|].
  rewrite Vf. rewrite (Qfloor_unique _ q); [reflexivity|lra|lra].
Qed.

Lemma inject_Z_inj (a b : Z) : (inject_Z a == inject_Z b)%Q -> a = b.
Proof. intros H. apply inject_Z_injective. exact H. Qed.

Lemma of_dyadic_rounds (m e : Z) :
  rounds_to (F2Q m e) (Prim2SF (Binary64.of_dyadic m e)).
Proof.
  pose proof (binary_normalize_rounds m e false) as R.
  unfold Binary64.of_dyadic. rewrite Prim2SF_SF2Prim by exact (proj1 R).
  exact R.
Qed.

Lemma F2Q_integer_sign (s : bool) (m : positive) (e X : Z) :
  (F2Q (signed s m) e == inject_Z X)%Q -> 0 <= X -> s = false.
Proof.
  intros E HX. destruct s; [exfalso|reflexivity]. cbn [signed] in E.
  pose proof (F2Q_neg m e) as Hn. pose proof (F2Q_pos_pos m e) as Hp.
  assert (H : (0 <= inject_Z X)%Q)
    by (change 0%Q with (inject_Z 0); rewrite <- Zle_Qle; exact HX).
  lra.
Qed.

(** A mantissa at an exponent, read as an integer. *)
Lemma F2Q_integer (M e X : Z) :
  (F2Q M e == inject_Z X)%Q ->
  (0 <= e /\ X = M * 2 ^ e) \/ (e < 0 /\ M = X * 2 ^ (- e)).
Proof.
  intros E. destruct (Z_le_gt_dec 0 e) as [He|He].
  - left. split; [exact He|]. rewrite (F2Q_nonneg_exp _ _ He) in E.
    apply inject_Z_inj in E. symmetry. exact E.
  - right. split; [lia|].
    pose proof (F2Q_neg_exp M e ltac:(lia)) as Ek.
    rewrite E, <- inject_Z_mult in Ek. apply inject_Z_inj in Ek.
    symmetry. exact Ek.
Qed.

(** The remainder of two integers, the dividend not negative. *)
Lemma Number_rem_value (x y : float) (X Y : Z) :
  Binary64.finite x = true -> Binary64.finite y = true ->
  (Binary64.value x == inject_Z X)%Q -> (Binary64.value y == inject_Z Y)%Q ->
  0 <= X -> 0 < Y <= 2 ^ 53 ->
  Binary64.finite (Number_rem x y) = true /\
  (Binary64.value (Number_rem x y) == inject_Z (X mod Y))%Q.
Proof.
  unfold Binary64.finite at 1 2, Binary64.value at 1 2, Number_rem.
  intros Fx Fy Vx Vy HX HY.
  destruct (Prim2SF y) as [sy|sy| |sy md ed] eqn:Ey; try discriminate.
  { exfalso. cbn [SF2Q] in Vy. change 0%Q with (inject_Z 0) in Vy.
    apply inject_Z_inj in Vy. lia. }
  destruct (Prim2SF x) as [sx|sx| |sx mn en] eqn:Ex; try discriminate.
  { unfold Binary64.finite, Binary64.value. rewrite Ex. split; [reflexivity|].
    cbn [SF2Q] in *. change 0%Q with (inject_Z 0) in Vx.
    apply inject_Z_inj in Vx. subst X. rewrite Z.mod_0_l by lia.
    reflexivity. }
  cbn [SF2Q] in Vx, Vy.
  pose proof (F2Q_integer_sign _ _ _ _ Vx HX). subst sx.
  pose proof (F2Q_integer_sign _ _ _ _ Vy ltac:(lia)). subst sy.
  cbn [signed] in Vx, Vy. cbv zeta.
  set (e0 := Z.min en ed).
  set (Mn := Z.pos mn * 2 ^ (en - e0)).
  set (Md := Z.pos md * 2 ^ (ed - e0)).
  assert (Hn : (F2Q Mn e0 == inject_Z X)%Q).
  { unfold Mn. rewrite F2Q_shift by lia.
    replace (e0 + (en - e0)) with en by lia. exact Vx. }
  assert (Hd : (F2Q Md e0 == inject_Z Y)%Q).
  { unfold Md. rewrite F2Q_shift by lia.
    replace (e0 + (ed - e0)) with ed by lia. exact Vy. }
  assert (HMn : 0 < Mn) by (unfold Mn; apply Z.mul_pos_pos; [lia|apply pow2_pos; lia]).
  assert (HMd : 0 < Md) by (unfold Md; apply Z.mul_pos_pos; [lia|apply pow2_pos; lia]).
  rewrite Z.rem_mod_nonneg by lia.
  set (r := Mn mod Md).
  assert (Hr : (F2Q r e0 == inject_Z (X mod Y))%Q).
  { destruct (F2Q_integer _ _ _ Hn) as [[He EX]|[He EX]];
      destruct (F2Q_integer _ _ _ Hd) as [[He' EY]|[He' EY]]; try lia.
    - rewrite (F2Q_nonneg_exp _ _ He), EX, EY.
      rewrite Z.mul_mod_distr_r by (try apply Z.pow_nonzero; lia).
      reflexivity.
    - assert (Hp : 0 < 2 ^ (- e0)) by (apply pow2_pos; lia).
      assert (E : r = X mod Y * 2 ^ (- e0)).
      { unfold r. rewrite EX, EY. apply Z.mul_mod_distr_r; lia. }
      pose proof (F2Q_neg_exp r e0 He) as Ek. rewrite E in Ek at 2.
      rewrite inject_Z_mult in Ek.
      assert (Hq : (0 < inject_Z (2 ^ (- e0)))%Q).
      { change 0%Q with (inject_Z 0). rewrite <- Zlt_Qlt. exact Hp. }
      apply (Qmult_inj_r _ _ (inject_Z (2 ^ (- e0)))); [lra|exact Ek]. }
  pose proof (Z.mod_pos_bound X Y ltac:(lia)) as Hm.
  destruct (Z.eqb_spec r 0) as [E0|Hnz].
  - split; [reflexivity|]. rewrite <- Hr, E0, F2Q_0. reflexivity.
  - pose proof (of_dyadic_rounds r e0) as R.
    apply (rounds_to_ext _ _ _ Hr) in R.
    assert (Ha : Z.abs (X mod Y) <= 2 ^ 53) by lia.
    destruct (inject_Z_below (X mod Y) Ha) as [B1 B2].
    exact (exact_value _ _ R (representable_Z _ Ha) B1 B2).
Qed.

Local Open Scope nat_scope.

Lemma length_append (a b : string) :
  String.length (a +:+ b) = String.length a + String.length b.
Proof.
  induction a as [|c a IH]; [reflexivity|].
  change (String c a +:+ b) with (String c (a +:+ b)).
  cbn [String.length]. rewrite IH. reflexivity.
Qed.

Lemma Z_to_int_not_nil (z : Z) :
  Z.to_int z <> Decimal.Pos Decimal.Nil /\
  Z.to_int z <> Decimal.Neg Decimal.Nil.
Proof.
  destruct z as [|p|p]; cbn; split; try discriminate;
    intros E; injection E as E; exact (DecimalPos.Unsigned.to_uint_nonnil p E).
Qed.

(** The decimal text of an integer determines the integer. *)
Lemma string_of_Z_inj (a b : Z) : string_of_Z a = string_of_Z b -> a = b.
Proof.
  unfold string_of_Z. intros E.
  apply (f_equal NilZero.int_of_string) in E.
  destruct (Z_to_int_not_nil a) as [A1 A2].
  destruct (Z_to_int_not_nil b) as [B1 B2].
  rewrite !NilZero.isi in E by assumption.
  injection E as E. apply DecimalZ.to_int_inj in E. exact E.
Qed.

Lemma append_inj_suffix (a c b d : string) :
  a +:+ b = c +:+ d -> String.length b = String.length d -> a = c /\ b = d.
Proof.
  revert c. induction a as [|x a IH]; intros [|y c] E L.
  - split; [reflexivity | exact E].
  - apply (f_equal String.length) in E. rewrite !length_append in E.
    cbn [String.length] in E. lia.
  - apply (f_equal String.length) in E. rewrite !length_append in E.
    cbn [String.length] in E. lia.
  - change (String x (a +:+ b) = String y (c +:+ d)) in E.
    injection E as -> E. destruct (IH c E L) as [-> ->]. split; reflexivity.
Qed.

(** The seconds field, for a number of seconds below 60: two characters,
    from which the number is read back. *)
Lemma seconds_field (s : Z) :
  (0 <= s < 60)%Z ->
  String.length (padStart2 (string_of_Z s)) = 2 /\
  option_map Z.of_int (NilZero.int_of_string (padStart2 (string_of_Z s))) =
  Some s.
Proof.
  intros Hs. assert (E : s = Z.of_nat (Z.to_nat s)) by lia.
  assert (Hn : Z.to_nat s < 60) by lia.
  rewrite E. generalize dependent (Z.to_nat s). intros n _ Hn.
  do 60 (destruct n as [|n]; [split; reflexivity|]). lia.
Qed.

Lemma seconds_field_inj (s s' : Z) :
  (0 <= s < 60)%Z -> (0 <= s' < 60)%Z ->
  padStart2 (string_of_Z s) = padStart2 (string_of_Z s') -> s = s'.
Proof.
  intros Hs Hs' E.
  apply (f_equal (fun t => option_map Z.of_int (NilZero.int_of_string t))) in E.
  rewrite (proj2 (seconds_field s Hs)), (proj2 (seconds_field s' Hs')) in E.
  congruence.
Qed.

Lemma finite_not_nan (x : float) :
  Binary64.finite x = true -> PrimFloat.is_nan x = false.
Proof.
  unfold Binary64.finite. rewrite is_nan_spec.
  destruct (Prim2SF x); try discriminate; reflexivity.
Qed.

(** An integer duration below 2^52 ms: the minutes are the double of
    [n / 60000], the seconds [(n / 1000) mod 60]. *)
Lemma formatDuration_integer (n : Z) :
  (0 <= n < 2 ^ 52)%Z ->
  formatDuration (Some (Binary64.of_Z n)) =
  Number_toString (Binary64.of_Z (n / 60000)) +:+ ":" +:+
  padStart2 (string_of_Z ((n / 1000) mod 60)).
Proof.
  intros Hn. destruct (of_Z_value n ltac:(lia)) as [Fn Vn].
  cbn [formatDuration]. rewrite (finite_not_nan _ Fn).
  assert (K : Binary64.finite 1000%float = true /\
              (Binary64.value 1000%float == inject_Z 1000)%Q)
    by (split; vm_compute; reflexivity).
  assert (S : Binary64.finite 60%float = true /\
              (Binary64.value 60%float == inject_Z 60)%Q)
    by (split; vm_compute; reflexivity).
  destruct K as [FK VK]. destruct S as [FS VS].
  assert (Hq : (0 <= n / 1000 < 2 ^ 43)%Z).
  { split; [apply Z.div_pos; lia|].
    apply Z.div_lt_upper_bound; lia. }
  destruct (div_floor _ _ n 1000 Fn FK Vn VK ltac:(lia) ltac:(lia)
              ltac:(lia)) as [Ft Vt].
  assert (Hm : (0 <= n / 1000 / 60 < 2 ^ 43)%Z).
  { split; [apply Z.div_pos; lia|].
    apply Z.div_lt_upper_bound; lia. }
  destruct (div_floor _ _ (n / 1000) 60 Ft FS Vt VS ltac:(lia) ltac:(lia)
              ltac:(lia)) as [Fm Vm].
  destruct (Number_rem_value _ _ (n / 1000) 60 Ft FS Vt VS ltac:(lia)
              ltac:(lia)) as [Fr Vr].
  rewrite Z.div_div in Vm by lia. change (1000 * 60)%Z with 60000%Z in Vm.
  assert (H6 : (0 <= n / 60000 < 2 ^ 43)%Z).
  { split; [apply Z.div_pos; lia|]. apply Z.div_lt_upper_bound; lia. }
  pose proof (Z.mod_pos_bound (n / 1000) 60 ltac:(lia)) as Hs.
  destruct (of_Z_value (n / 60000) ltac:(lia)) as [Fm' Vm'].
  destruct (of_Z_value ((n / 1000) mod 60) ltac:(lia)) as [Fr' Vr'].
  rewrite (Number_toString_value _ _ Fm Fm') by (rewrite Vm, Vm'; reflexivity).
  rewrite (Number_toString_value _ _ Fr Fr') by (rewrite Vr, Vr'; reflexivity).
  rewrite (integer_text ((n / 1000) mod 60)) by lia. reflexivity.
Qed.

(** X1: [formatDuration] returns the empty text exactly when the duration is
    absent or NaN (a duration of 0 is formatted).  A duration of [n]
    milliseconds, an integer below 2^52, is shown as the whole minutes
    [n / 60000], a colon, and the remaining whole seconds
    [(n / 1000) mod 60] padded to two characters; below 1000 minutes the
    minutes are their decimal text.  Each is computed in binary64: 2^63 ms,
    whose quotient by 1000 is rounded, is 153722867280912:56. *)
Theorem formatDuration_text (ms : option float) :
  (formatDuration ms = EmptyString <->
   ms = None \/ exists x, ms = Some x /\ PrimFloat.is_nan x = true) /\
  (forall n : Z, ms = Some (Binary64.of_Z n) -> (0 <= n < 2 ^ 52)%Z ->
     formatDuration ms =
       Number_toString (Binary64.of_Z (n / 60000)) +:+ ":" +:+
       padStart2 (string_of_Z ((n / 1000) mod 60)) /\
     String.length (padStart2 (string_of_Z ((n / 1000) mod 60))) = 2 /\
     ((n < 60000000)%Z ->
      formatDuration ms =
        string_of_Z (n / 60000) +:+ ":" +:+
        padStart2 (string_of_Z ((n / 1000) mod 60)))) /\
  formatDuration (Some 0%float) = "0:00" /\
  formatDuration (Some 225000%float) = "3:45" /\
  formatDuration (Some 59999%float) = "0:59" /\
  formatDuration (Some 3599999%float) = "59:59" /\
  formatDuration (Some 9223372036854775808%float) = "153722867280912:56".
Proof.
  split; [|split; [|repeat split; vm_compute; reflexivity]].
  - split.
    + destruct ms as [x|]; [|left; reflexivity]. cbn [formatDuration].
      destruct (PrimFloat.is_nan x) eqn:En;
        [intros _; right; exists x; split; [reflexivity|exact En]|].
      intros E. apply (f_equal String.length) in E.
      rewrite !length_append in E. cbn in E. lia.
    + intros [->|(x & -> & En)]; [reflexivity|].
      cbn [formatDuration]. rewrite En. reflexivity.
  - intros n -> Hn.
    pose proof (Z.mod_pos_bound (n / 1000) 60 ltac:(lia)) as Hs.
    split; [exact (formatDuration_integer n Hn)|].
    split; [exact (proj1 (seconds_field _ Hs))|].
    intros Hlt. rewrite (formatDuration_integer n Hn), integer_text;
      [reflexivity|].
    split; [apply Z.div_pos; lia|apply Z.div_lt_upper_bound; lia].
Qed.

(** X1 at 3 minutes 45 seconds. *)
Lemma formatDuration_text_witness :
  formatDuration (Some (Binary64.of_Z 225000)) = "3:45".
Proof.
  assert (H : (0 <= 225000 < 2 ^ 52)%Z) by lia.
  rewrite (proj2 (proj2 (proj1 (proj2 (formatDuration_text
             (Some (Binary64.of_Z 225000)))) 225000%Z eq_refl H))
             ltac:(lia)).
  reflexivity.
Defined.

(** X2: two integer durations below 1000 minutes are shown alike exactly
    when they have the same number of whole seconds: the text loses the
    milliseconds and nothing else. *)
Theorem formatDuration_same_text (a b : Z) :
  (0 <= a < 60000000)%Z -> (0 <= b < 60000000)%Z ->
  (formatDuration (Some (Binary64.of_Z a)) =
   formatDuration (Some (Binary64.of_Z b)) <->
   (a / 1000 = b / 1000)%Z).
Proof.
  intros Ha Hb.
  assert (T : forall n : Z, (0 <= n < 60000000)%Z ->
            formatDuration (Some (Binary64.of_Z n)) =
            string_of_Z (n / 1000 / 60) +:+ ":" +:+
            padStart2 (string_of_Z ((n / 1000) mod 60))).
  { intros n Hn. rewrite (formatDuration_integer n ltac:(lia)), integer_text.
    - rewrite Z.div_div by lia. reflexivity.
    - split; [apply Z.div_pos; lia|apply Z.div_lt_upper_bound; lia]. }
  rewrite (T a Ha), (T b Hb).
  split; [|intros ->; reflexivity]. intros E.
  assert (Sa := Z.mod_pos_bound (a / 1000) 60 ltac:(lia)).
  assert (Sb := Z.mod_pos_bound (b / 1000) 60 ltac:(lia)).
  apply append_inj_suffix in E as [Em Es].
  - apply string_of_Z_inj in Em.
    injection Es as Es. apply seconds_field_inj in Es; [|assumption..].
    rewrite (Z.div_mod (a / 1000) 60), (Z.div_mod (b / 1000) 60) by lia.
    congruence.
  - change (":" +:+ ?s) with (String ":" s). cbn [String.length].
    rewrite (proj1 (seconds_field _ Sa)), (proj1 (seconds_field _ Sb)).
    reflexivity.
Qed.

(** X2 at 225000 and 225999 milliseconds. *)
Lemma formatDuration_same_text_witness :
  formatDuration (Some (Binary64.of_Z 225000)) =
  formatDuration (Some (Binary64.of_Z 225999)).
Proof.
  apply (proj2 (formatDuration_same_text 225000 225999 ltac:(lia) ltac:(lia))).
  reflexivity.
Defined.

(* ------------------------------------------------------------------------- *)
(** ** Batches of artist identifiers *)

Lemma batches_cons (ids : list string) :
  ids <> [] -> batches ids = take 50 ids :: batches (drop 50 ids).
Proof.
  intros Hne. unfold batches.
  assert (Hlen : (length ids + 49) / 50 = S ((length (drop 50 ids) + 49) / 50)).
  { rewrite length_drop.
    assert (Hpos : 0 < length ids) by (destruct ids; [congruence | cbn; lia]).
    destruct (le_lt_dec (length ids) 50) as [Hle|Hgt].
    - replace (length ids - 50) with 0 by lia.
      change ((0 + 49) / 50) with 0.
      assert (H1 := Nat.div_mod_eq (length ids + 49) 50).
      assert (H2 := Nat.mod_upper_bound (length ids + 49) 50 ltac:(lia)).
      nia.
    - replace (length ids + 49) with ((length ids - 50 + 49) + 1 * 50) by lia.
      rewrite Nat.div_add by lia. lia. }
  rewrite Hlen. cbn [seq map]. rewrite Nat.mul_0_r, drop_0. f_equal.
  rewrite <- seq_shift, map_map. apply map_ext. intros k.
  rewrite drop_drop. f_equal. f_equal. lia.
Qed.

(** The batches put together are the identifiers, and no batch is empty or
    longer than 50. *)
Lemma batches_concat_sizes (artistIds : list string) :
  concat (batches artistIds) = artistIds /\
  Forall (fun batch => 1 <= length batch <= 50) (batches artistIds).
Proof.
  induction artistIds as [ids IH] using (induction_ltof1 _ (@length string)).
  unfold ltof in IH. destruct ids as [|i ids]; [split; constructor|].
  rewrite batches_cons by discriminate.
  remember (i :: ids) as l eqn:El.
  assert (Hl : 0 < length l) by (subst l; cbn; lia). clear El.
  destruct (IH (drop 50 l)) as (Hc & Hf); [rewrite length_drop; lia|].
  split; [cbn [concat]; rewrite Hc; apply take_drop|].
  constructor; [|exact Hf]. cbv beta. rewrite length_take. lia.
Qed.

(** X3: the batches of the artist identifiers, put together in order, are
    the identifiers; every batch holds between 1 and 50 identifiers, every
    batch but the last exactly 50; and there is no batch exactly when there
    is no identifier. *)
Theorem batches_partition (artistIds : list string) :
  concat (batches artistIds) = artistIds /\
  Forall (fun batch => 1 <= length batch <= 50) (batches artistIds) /\
  (forall batch rest, batches artistIds = rest ++ [batch] ->
                      Forall (fun b => length b = 50) rest) /\
  (batches artistIds = [] <-> artistIds = []).
Proof.
  induction artistIds as [ids IH] using (induction_ltof1 _ (@length string)).
  unfold ltof in IH.
  destruct ids as [|i ids].
  { repeat split; try constructor; try reflexivity.
    intros batch rest E. destruct rest; discriminate E. }
  rewrite batches_cons by discriminate.
  remember (i :: ids) as l eqn:El.
  assert (Hl : 0 < length l) by (subst l; cbn; lia).
  clear El.
  destruct (IH (drop 50 l)) as (Hc & Hf & Hfull & Hnil).
  { rewrite length_drop. lia. }
  split; [|split; [|split]].
  - cbn [concat]. rewrite Hc. apply take_drop.
  - constructor; [|exact Hf]. cbv beta. rewrite length_take. lia.
  - intros batch rest E. destruct rest as [|b rest]; [constructor|].
    cbn [app] in E. injection E as Eb E.
    constructor; [|exact (Hfull batch rest E)].
    subst b. cbv beta. rewrite length_take.
    assert (drop 50 l <> []).
    { intros Hd. apply Hnil in Hd. rewrite Hd in E. destruct rest; discriminate. }
    destruct (le_lt_dec (length l) 50) as [Hle|Hgt]; [|lia].
    exfalso. apply H. apply drop_ge. lia.
  - split; [discriminate | intros ->; cbn in Hl; lia].
Qed.

(* ------------------------------------------------------------------------- *)
(** ** The set of primary-artist identifiers *)

Lemma primaryArtistId_truthy (artists : option (list ArtistRef)) (i : string) :
  primaryArtistId artists = Some i -> i <> EmptyString.
Proof.
  unfold primaryArtistId.
  destruct artists as [[|a l]|]; try discriminate.
  destruct (artist_ref_id a) as [j|]; [|discriminate].
  unfold truthy. destruct (String.eqb_spec j EmptyString); cbn; [discriminate|].
  intros E. injection E as <-. assumption.
Qed.

Lemma collectArtistIds_spec (tracks : list Track) (acc : list string) :
  NoDup acc ->
  NoDup (collectArtistIds tracks acc) /\
  (forall i, i ∈ collectArtistIds tracks acc <->
             i ∈ acc \/
             exists t, In t tracks /\ primaryArtistId (track_artists t) = Some i) /\
  acc `prefix_of` collectArtistIds tracks acc.
Proof.
  revert acc. induction tracks as [|t tracks IH]; intros acc Hnd;
    cbn [collectArtistIds].
  - split; [exact Hnd|]. split; [|reflexivity].
    intros i. split; [tauto|]. intros [H|(t & [] & _)]. exact H.
  - set (acc' := match primaryArtistId (track_artists t) with
                 | Some i => if decide (i ∈ acc) then acc else acc ++ [i]
                 | None => acc
                 end).
    assert (Hacc' : NoDup acc' /\ acc `prefix_of` acc' /\
                    forall i, i ∈ acc' <->
                      i ∈ acc \/ primaryArtistId (track_artists t) = Some i).
    { subst acc'. destruct (primaryArtistId (track_artists t)) as [j|].
      - destruct (decide (j ∈ acc)) as [Hin|Hout].
        + split; [exact Hnd|]. split; [reflexivity|].
          intros i. split; [tauto|]. intros [H|E]; [exact H|congruence].
        + split; [|split].
          * apply NoDup_app. repeat split; [exact Hnd| |apply NoDup_singleton].
            intros x Hx Hx'. apply list_elem_of_singleton in Hx'. congruence.
          * apply prefix_app_r. reflexivity.
          * intros i. rewrite elem_of_app, list_elem_of_singleton.
            split; intros [H|H]; auto; [right|right]; congruence.
      - split; [exact Hnd|]. split; [reflexivity|].
        intros i. split; [tauto|]. intros [H|E]; [exact H|discriminate]. }
    destruct Hacc' as (Hnd' & Hpre & Hmem).
    destruct (IH acc' Hnd') as (H1 & H2 & H3).
    split; [exact H1|]. split; [|etrans; eassumption].
    intros i. rewrite H2, Hmem. split.
    + intros [[H|H]|(t' & Ht' & E)]; [left; exact H| |].
      * right. exists t. split; [left; reflexivity|exact H].
      * right. exists t'. split; [right; exact Ht'|exact E].
    + intros [H|(t' & [<-|Ht'] & E)]; [left; left; exact H| |].
      * left. right. exact E.
      * right. exists t'. split; assumption.
Qed.

(** X4: the primary-artist identifiers collected from the candidates are
    pairwise distinct, are exactly the truthy first-artist identifiers of the
    candidates, are never empty strings, and are no more than the
    candidates. *)
Theorem collectArtistIds_distinct (tracks : list Track) :
  let artistIds := collectArtistIds tracks [] in
  NoDup artistIds /\
  (forall i, i ∈ artistIds <->
             exists t, In t tracks /\ primaryArtistId (track_artists t) = Some i) /\
  (forall i, i ∈ artistIds -> i <> EmptyString) /\
  length artistIds <= length tracks.
Proof.
  intros artistIds.
  destruct (collectArtistIds_spec tracks [] (NoDup_nil_2)) as (Hnd & Hmem & _).
  fold artistIds in Hnd, Hmem.
  assert (Hmem' : forall i, i ∈ artistIds <->
            exists t, In t tracks /\ primaryArtistId (track_artists t) = Some i).
  { intros i. rewrite Hmem. split; [intros [H|H]; [inversion H|exact H] | auto]. }
  split; [exact Hnd|]. split; [exact Hmem'|]. split.
  - intros i Hi. apply Hmem' in Hi as (t & _ & E).
    eapply primaryArtistId_truthy, E.
  - transitivity (length (omap (fun t => primaryArtistId (track_artists t)) tracks)).
    + apply submseteq_length, NoDup_submseteq; [exact Hnd|].
      intros i Hi. apply Hmem' in Hi as (t & Ht & E).
      apply list_elem_of_omap. exists t. split; [apply list_elem_of_In, Ht|exact E].
    + clear. induction tracks as [|t l IH]; cbn; [lia|].
      destruct (primaryArtistId (track_artists t)); cbn; lia.
Qed.

(* ------------------------------------------------------------------------- *)
(** ** The artist map *)
(** X5: recording a list of artist objects leaves the other keys of the map
    as they were; an artist of a list without repeated identifiers is found
    under its own identifier; of two artists with one identifier the later
    one is kept; and what is found under a key is an artist of the list with
    that identifier, or what the map held before. *)
Theorem recordArtists_lookup (artists : list ArtistObject)
    (artistMap : gmap string ArtistObject) :
  (forall i, ~ In i (map artist_id artists) ->
             recordArtists artists artistMap !! i = artistMap !! i) /\
  (forall a, NoDup (map artist_id artists) -> In a artists ->
             recordArtists artists artistMap !! artist_id a = Some a) /\
  (forall a, recordArtists (artists ++ [a]) artistMap !! artist_id a = Some a) /\
  (forall i a, recordArtists artists artistMap !! i = Some a ->
               (In a artists /\ artist_id a = i) \/ artistMap !! i = Some a).
Proof.
  split; [intros i; apply recordArtists_other|].
  split; [intros a; apply recordArtists_found|].
  split; [|intros i a; apply recordArtists_origin].
  intros a. rewrite recordArtists_snoc. apply lookup_insert_eq.
Qed.

(** X6: every batch is requested, in order, whatever the earlier requests
    returned; a record of the resulting map is filed under its own
    identifier; and when every request is rejected the map stays empty. *)
Theorem fetchArtists_every_batch (srv : Service) (token : string)
    (bs : list (list string)) (trace : list Request) :
  snd (fetchArtists srv token bs ∅ trace) =
    trace ++ map (fun batch => GetArtists (String.concat "," batch) token) bs /\
  (forall i a, fst (fetchArtists srv token bs ∅ trace) !! i = Some a ->
               artist_id a = i) /\
  ((forall tr ids, srv tr (GetArtists ids token) = Rejected) ->
   fst (fetchArtists srv token bs ∅ trace) = ∅).
Proof.
  split; [apply fetchArtists_trace|]. split.
  - intros i a E. apply fetchArtists_origin in E as [E|E]; [exact E|].
    rewrite lookup_empty in E. discriminate E.
  - apply fetchArtists_all_rejected.
Qed.

(* ------------------------------------------------------------------------- *)
(* ------------------------------------------------------------------------- *)
(** ** Size of the pool *)

Lemma addUnseen_size (t : Track) (pool : Pool) :
  length (candidateTracks (addUnseen t pool)) <= length (candidateTracks pool) + 1.
Proof.
  destruct (addUnseen_appends t pool) as (new & E & Hsub).
  rewrite E, length_app. apply sublist_length in Hsub. cbn in Hsub. lia.
Qed.

Lemma addTopTracks_size (topTracks : list Track) (pool : Pool) :
  length (candidateTracks (addTopTracks topTracks pool)) <=
  length (candidateTracks pool) + length topTracks.
Proof.
  destruct (addTopTracks_appends topTracks pool) as (new & E & Hsub).
  rewrite E, length_app. apply sublist_length in Hsub. lia.
Qed.

Lemma addFound_size (found : list Track) (pool : Pool) :
  length (candidateTracks (addFound found pool)) <=
  max 40 (length (candidateTracks pool) + 1).
Proof.
  destruct (le_lt_dec 40 (length (candidateTracks pool))) as [Hge|Hlt].
  - destruct found as [|t rest]; cbn [addFound]; [lia|].
    pose proof (addUnseen_size t pool) as Hs.
    destruct (addUnseen_appends t pool) as (new & E & _).
    assert (Hfull : full (addUnseen t pool) = true).
    { unfold full. apply Nat.leb_le. rewrite E, length_app. lia. }
    rewrite Hfull. lia.
  - pose proof (addFound_cap found pool Hlt). lia.
Qed.

Lemma searchGenres_size (srv : Service) (token : string)
    (mainGenres : list string) (pool : Pool) (trace : list Request) :
  length (candidateTracks (fst (searchGenres srv token mainGenres pool trace)))
  <= max 40 (length (candidateTracks pool) + 1).
Proof.
  revert pool trace. induction mainGenres as [|g rest IH]; intros pool trace;
    cbn [searchGenres axios_get]; [cbn; lia|].
  set (pool' := match srv trace (Search g token) with
                | Resolved data => addFound (default [] data) pool
                | Rejected => pool
                end).
  assert (Hs : length (candidateTracks pool') <=
               max 40 (length (candidateTracks pool) + 1)).
  { subst pool'. destruct (srv trace (Search g token));
      [apply addFound_size | lia]. }
  destruct (full pool') eqn:Efull; [exact Hs|].
  unfold full in Efull. apply Nat.leb_gt in Efull.
  specialize (IH pool' (trace ++ [Search g token])). lia.
Qed.


(** X7: the collected pool holds at most 40 candidates or, when more than
    39 top tracks were kept, at most one more than the top tracks kept; with
    fewer than 40 top tracks it never exceeds 40.  The top tracks kept are
    the candidates after the top-tracks loop. *)
Theorem collect_pool_size (srv : Service) (seedSong : SeedSong)
    (seedArtistId token : string) (seedGenres : list string) (pool : Pool)
    (trace : list Request) (topData : option (list Track)) :
  collect srv seedSong seedArtistId token = (Normal (seedGenres, pool), trace) ->
  srv [GetArtist seedArtistId token] (GetTopTracks seedArtistId token) =
    Resolved topData ->
  let kept := candidateTracks (addTopTracks (default [] topData)
                                 (mkPool [] {[ seed_id seedSong ]})) in
  kept `prefix_of` candidateTracks pool /\
  kept `sublist_of` default [] topData /\
  length (candidateTracks pool) <= max 40 (length kept + 1) /\
  (length (default [] topData) < 40 -> length (candidateTracks pool) <= 40).
Proof.
  unfold collect, axios_get. cbn [app]. intros E Etop. rewrite Etop in E.
  destruct (srv [] (GetArtist seedArtistId token)) as [seedArtist|];
    [|discriminate].
  match type of E with
  | context [searchGenres ?s ?t ?g ?p ?tr] =>
      pose proof (searchGenres_size s t g p tr) as Hs;
      destruct (searchGenres_appends s t g p tr) as (hits & Ehits & _);
      destruct (searchGenres s t g p tr) as [pool1 trace1]
  end.
  injection E as _ <- _. cbn [fst] in Hs, Ehits.
  destruct (addTopTracks_appends (default [] topData)
              (mkPool [] {[ seed_id seedSong ]})) as (top & Etop' & Stop).
  cbn [candidateTracks app] in Etop'.
  set (kept := candidateTracks (addTopTracks (default [] topData)
                                  (mkPool [] {[ seed_id seedSong ]}))) in *.
  assert (Hlen : length kept <= length (default [] topData)).
  { rewrite Etop'. apply sublist_length, Stop. }
  split; [exists hits; exact Ehits|].
  split; [rewrite Etop'; exact Stop|].
  split; lia.
Qed.

(* ------------------------------------------------------------------------- *)
(** ** Top tracks are always included *)

Lemma addUnseen_exact (seedId : string) (t : Track) (pool : Pool) :
  pool_exact seedId pool -> pool_exact seedId (addUnseen t pool).
Proof.
  unfold pool_exact, addUnseen. intros Hex i.
  destruct (decide (track_id t ∈ seenTrackIds pool)); [apply Hex|].
  cbn [seenTrackIds candidateTracks]. rewrite map_app, in_app_iff.
  cbn [map In]. rewrite elem_of_union, elem_of_singleton, Hex.
  split; intros H; [destruct H as [->|[H|H]]|destruct H as [H|[H|[H|[]]]]];
    auto.
Qed.

Lemma addUnseen_has (seedId : string) (t : Track) (pool : Pool) :
  pool_exact seedId pool -> track_id t <> seedId ->
  In (track_id t) (map track_id (candidateTracks (addUnseen t pool))).
Proof.
  unfold addUnseen. intros Hex Hne.
  destruct (decide (track_id t ∈ seenTrackIds pool)) as [Hin|Hout].
  - apply Hex in Hin as [Hin|Hin]; [contradiction|exact Hin].
  - cbn [candidateTracks]. rewrite map_app, in_app_iff. right. left. reflexivity.
Qed.

Lemma addTopTracks_exact (seedId : string) (topTracks : list Track) (pool : Pool) :
  pool_exact seedId pool -> pool_exact seedId (addTopTracks topTracks pool).
Proof.
  revert pool. induction topTracks as [|t rest IH]; intros pool Hex;
    cbn [addTopTracks]; [exact Hex|].
  apply IH, addUnseen_exact, Hex.
Qed.

Lemma addTopTracks_has (seedId : string) (topTracks : list Track) (pool : Pool)
    (t : Track) :
  pool_exact seedId pool -> In t topTracks -> track_id t <> seedId ->
  In (track_id t) (map track_id (candidateTracks (addTopTracks topTracks pool))).
Proof.
  revert pool. induction topTracks as [|t' rest IH]; intros pool Hex Hin Hne;
    [destruct Hin|].
  cbn [addTopTracks]. destruct Hin as [->|Hin].
  - destruct (addTopTracks_appends rest (addUnseen t pool)) as (new & E & _).
    rewrite E, map_app, in_app_iff. left. eapply addUnseen_has; eassumption.
  - apply IH; [apply addUnseen_exact, Hex|exact Hin|exact Hne].
Qed.

(** X8: every top track of the seed artist whose identifier is not the
    seed's is among the candidates, whatever the searches return and however
    many top tracks there are (the cap of 40 does not apply to them). *)
Theorem top_tracks_always_included (srv : Service) (seedSong : SeedSong)
    (seedArtistId token : string) (seedGenres : list string) (pool : Pool)
    (trace : list Request) (topData : option (list Track)) (t : Track) :
  collect srv seedSong seedArtistId token = (Normal (seedGenres, pool), trace) ->
  srv [GetArtist seedArtistId token] (GetTopTracks seedArtistId token) =
    Resolved topData ->
  In t (default [] topData) -> track_id t <> seed_id seedSong ->
  In (track_id t) (map track_id (candidateTracks pool)).
Proof.
  unfold collect, axios_get. cbn [app]. intros E Etop Hin Hne. rewrite Etop in E.
  destruct (srv [] (GetArtist seedArtistId token)) as [seedArtist|];
    [|discriminate].
  match type of E with
  | context [searchGenres ?s ?tk ?g ?p ?tr] =>
      destruct (searchGenres_appends s tk g p tr) as (hits & Ehits & _);
      destruct (searchGenres s tk g p tr) as [pool1 trace1]
  end.
  injection E as _ <- _. cbn [fst] in Ehits.
  rewrite Ehits, map_app, in_app_iff. left.
  apply (addTopTracks_has (seed_id seedSong)); [|exact Hin|exact Hne].
  intros i. cbn [seenTrackIds candidateTracks map In].
  rewrite elem_of_singleton. tauto.
Qed.

(* ------------------------------------------------------------------------- *)
(** ** Below the cap nothing is dropped *)

Lemma addFound_exact (seedId : string) (found : list Track) (pool : Pool) :
  pool_exact seedId pool -> pool_exact seedId (addFound found pool).
Proof.
  revert pool. induction found as [|t rest IH]; intros pool Hex;
    cbn [addFound]; [exact Hex|].
  destruct (full (addUnseen t pool)); [|apply IH]; apply addUnseen_exact, Hex.
Qed.

Lemma addFound_complete (seedId : string) (found : list Track) (pool : Pool)
    (t : Track) :
  pool_exact seedId pool ->
  length (candidateTracks (addFound found pool)) < 40 ->
  In t found -> track_id t <> seedId ->
  In (track_id t) (map track_id (candidateTracks (addFound found pool))).
Proof.
  revert pool. induction found as [|t' rest IH]; intros pool Hex Hlt Hin Hne;
    [destruct Hin|].
  cbn [addFound] in *.
  destruct (full (addUnseen t' pool)) eqn:Efull.
  - unfold full in Efull. apply Nat.leb_le in Efull. lia.
  - destruct Hin as [->|Hin].
    + destruct (addFound_appends rest (addUnseen t pool)) as (new & E & _).
      rewrite E, map_app, in_app_iff. left. eapply addUnseen_has; eassumption.
    + apply IH; [apply addUnseen_exact, Hex|exact Hlt|exact Hin|exact Hne].
Qed.

Lemma searchGenres_complete (seedId : string) (srv : Service) (token : string)
    (mainGenres : list string) (pool : Pool) (trace : list Request) :
  pool_exact seedId pool ->
  length (candidateTracks (fst (searchGenres srv token mainGenres pool trace)))
    < 40 ->
  snd (searchGenres srv token mainGenres pool trace) =
    trace ++ map (fun g => Search g token) mainGenres /\
  forall t, In t (searchReplies srv token mainGenres trace) ->
            track_id t <> seedId ->
            In (track_id t)
               (map track_id
                  (candidateTracks
                     (fst (searchGenres srv token mainGenres pool trace)))).
Proof.
  revert pool trace. induction mainGenres as [|g rest IH]; intros pool trace Hex;
    cbn [searchGenres searchReplies axios_get map].
  - intros _. split; [now rewrite app_nil_r | intros t []].
  - set (pool' := match srv trace (Search g token) with
                  | Resolved data => addFound (default [] data) pool
                  | Rejected => pool
                  end).
    assert (Hex' : pool_exact seedId pool').
    { subst pool'. destruct (srv trace (Search g token));
        [apply addFound_exact|]; exact Hex. }
    destruct (full pool') eqn:Efull.
    { cbn [fst]. intros Hlt. unfold full in Efull.
      apply Nat.leb_le in Efull. lia. }
    intros Hlt. destruct (IH pool' (trace ++ [Search g token]) Hex' Hlt)
      as (Htr & Hall).
    split; [rewrite Htr, <- app_assoc; reflexivity|].
    intros t Hin Hne. apply in_app_iff in Hin as [Hin|Hin];
      [|exact (Hall t Hin Hne)].
    destruct (searchGenres_appends srv token rest pool'
                (trace ++ [Search g token])) as (new & E & _).
    rewrite E, map_app, in_app_iff. left.
    assert (Hlt' : length (candidateTracks pool') < 40).
    { unfold full in Efull. apply Nat.leb_gt in Efull. exact Efull. }
    subst pool'. destruct (srv trace (Search g token)) as [data|];
      [|destruct Hin].
    eapply addFound_complete; eassumption.
Qed.

(** X9: when the collected pool holds fewer than 40 candidates nothing was
    cut: the searches for the first two seed genres were all issued, and
    every track that a search returned, the seed apart, is among the
    candidates. *)
Theorem below_cap_nothing_dropped (srv : Service) (seedSong : SeedSong)
    (seedArtistId token : string) (seedGenres : list string) (pool : Pool)
    (trace : list Request) :
  collect srv seedSong seedArtistId token = (Normal (seedGenres, pool), trace) ->
  length (candidateTracks pool) < 40 ->
  trace = [GetArtist seedArtistId token; GetTopTracks seedArtistId token] ++
          map (fun g => Search g token) (take 2 seedGenres) /\
  forall t,
    In t (searchReplies srv token (take 2 seedGenres)
            [GetArtist seedArtistId token; GetTopTracks seedArtistId token]) ->
    track_id t <> seed_id seedSong ->
    In (track_id t) (map track_id (candidateTracks pool)).
Proof.
  unfold collect, axios_get. cbn [app]. intros E Hlt.
  destruct (srv [] (GetArtist seedArtistId token)) as [seedArtist|];
    destruct (srv [GetArtist seedArtistId token]
                  (GetTopTracks seedArtistId token)) as [topData|];
    try discriminate.
  match type of E with
  | context [searchGenres ?s ?tk ?g ?p ?tr] =>
      pose proof (searchGenres_complete (seed_id seedSong) s tk g p tr) as Hc;
      destruct (searchGenres s tk g p tr) as [pool1 trace1]
  end.
  injection E as <- <- <-. cbn [fst snd] in Hc. apply Hc; [|exact Hlt].
  apply addTopTracks_exact. intros i. cbn [seenTrackIds candidateTracks map In].
  rewrite elem_of_singleton. tauto.
Qed.


(** X7 against the crowded service: twenty top tracks, forty candidates at
    most. *)
Lemma collect_pool_size_witness :
  exists seedGenres pool trace,
    collect crowdedService exampleSeed "artist-0" "token" =
      (Normal (seedGenres, pool), trace) /\
    length (candidateTracks pool) <= 40.
Proof.
  destruct (collect crowdedService exampleSeed "artist-0" "token")
    as [[[g pool]|] trace] eqn:E; [|vm_compute in E; discriminate E].
  exists g, pool, trace. split; [reflexivity|].
  apply (proj2 (proj2 (proj2 (collect_pool_size crowdedService exampleSeed
                  "artist-0" "token" g pool trace
                  (Some (map numberedTrack (seq 1 20))) E eq_refl)))).
  vm_compute. lia.
Defined.

(** X8 against the crowded service: the seventh top track is a candidate. *)
Lemma top_tracks_always_included_witness :
  exists seedGenres pool trace,
    collect crowdedService exampleSeed "artist-0" "token" =
      (Normal (seedGenres, pool), trace) /\
    In (track_id (numberedTrack 7)) (map track_id (candidateTracks pool)).
Proof.
  destruct (collect crowdedService exampleSeed "artist-0" "token")
    as [[[g pool]|] trace] eqn:E; [|vm_compute in E; discriminate E].
  exists g, pool, trace. split; [reflexivity|].
  apply (top_tracks_always_included crowdedService exampleSeed "artist-0"
           "token" g pool trace (Some (map numberedTrack (seq 1 20)))
           (numberedTrack 7) E eq_refl).
  - apply in_map, in_seq. lia.
  - intros H. vm_compute in H. discriminate H.
Defined.

(** X9 against the quiet service: five candidates, the search for rock
    issued. *)
Lemma below_cap_nothing_dropped_witness :
  exists seedGenres pool trace,
    collect quietService exampleSeed "artist-0" "token" =
      (Normal (seedGenres, pool), trace) /\
    trace = [GetArtist "artist-0" "token"; GetTopTracks "artist-0" "token"] ++
            map (fun g => Search g "token") (take 2 seedGenres).
Proof.
  destruct (collect quietService exampleSeed "artist-0" "token")
    as [[[g pool]|] trace] eqn:E; [|vm_compute in E; discriminate E].
  exists g, pool, trace. split; [reflexivity|].
  assert (Hlen : length (candidateTracks pool) < 40).
  { pose proof E as E'. vm_compute in E'. injection E' as _ Ep _.
    subst pool. vm_compute. lia. }
  exact (proj1 (below_cap_nothing_dropped quietService exampleSeed "artist-0"
                  "token" g pool trace E Hlen)).
Defined.

(* ------------------------------------------------------------------------- *)
(** ** The run in full *)

Lemma collect_trace srv seedSong seedArtistId token :
  exists k,
    snd (collect srv seedSong seedArtistId token) =
    [GetArtist seedArtistId token; GetTopTracks seedArtistId token] ++
    map (fun g => Search g token)
        (take k
           match fst (collect srv seedSong seedArtistId token) with
           | Normal (seedGenres, _) => take 2 seedGenres
           | Throw => []
           end).
Proof.
  unfold collect, axios_get. cbn [app].
  destruct (srv [] (GetArtist seedArtistId token)) as [seedArtist|];
    destruct (srv [GetArtist seedArtistId token]
                  (GetTopTracks seedArtistId token)) as [topData|];
    try (exists 0; reflexivity).
  match goal with
  | |- context [searchGenres ?s ?tk ?g ?p ?tr] =>
      destruct (searchGenres_trace s tk g p tr) as (k & Ek);
      destruct (searchGenres s tk g p tr) as [pool1 trace1]
  end.
  cbn [fst snd] in *. exists k. rewrite Ek. reflexivity.
Qed.

(** X10: with a token and a seed artist, a run issues its requests in one
    order: the seed artist, the top tracks, at most two genre searches, then
    one request per batch of artist identifiers; every request carries the
    caller's token; the batches hold between 1 and 50 identifiers and no
    identifier twice. *)
Theorem run_requests (srv : Service) (seedSong : SeedSong)
    (moodSettings : MoodSettings float) (token seedArtistId : string) :
  truthy token = true ->
  primaryArtistId (seed_artists seedSong) = Some seedArtistId ->
  exists searches artistBatches,
    snd (generateSongs srv seedSong moodSettings (Some token)) =
      [GetArtist seedArtistId token; GetTopTracks seedArtistId token] ++
      map (fun g => Search g token) searches ++
      map (fun batch => GetArtists (String.concat "," batch) token)
          artistBatches /\
    length searches <= 2 /\
    Forall (fun batch => 1 <= length batch <= 50) artistBatches /\
    NoDup (concat artistBatches).
Proof.
  intros Htok Hid.
  destruct (collect_trace srv seedSong seedArtistId token) as (k & Ek).
  destruct (collect srv seedSong seedArtistId token)
    as [[[seedGenres pool]|] trace] eqn:Ecollect; cbn [fst snd] in Ek.
  - destruct (candidateTracks pool) as [|t ts] eqn:Epool.
    + exists (take k (take 2 seedGenres)), [].
      unfold generateSongs, generateSongs_try.
      rewrite Htok, Hid, Ecollect, Epool. cbn [length Nat.eqb snd map].
      rewrite app_nil_r. split; [exact Ek|].
      split; [rewrite !length_take; lia|]. split; constructor.
    + exists (take k (take 2 seedGenres)),
             (batches (collectArtistIds (candidateTracks pool) [])).
      rewrite (generateSongs_live _ _ _ _ _ _ _ _ Htok Hid Ecollect)
        by congruence.
      cbn [snd]. rewrite Ek, <- app_assoc.
      split; [reflexivity|]. split; [rewrite !length_take; lia|].
      destruct (batches_concat_sizes
                  (collectArtistIds (candidateTracks pool) [])) as (Hc & Hf).
      split; [exact Hf|]. rewrite Hc.
      apply (collectArtistIds_spec (candidateTracks pool) []), NoDup_nil_2.
  - exists [], []. unfold generateSongs, generateSongs_try.
    rewrite Htok, Hid, Ecollect. cbn [snd try_catch map app].
    rewrite take_nil in Ek. rewrite Ek. cbn. split; [reflexivity|].
    split; [lia|]. split; constructor.
Qed.

(** X11: every run settles with a list of at least 1 and at most 10
    recommendations: the live path is taken only with a pool that is not
    empty, and the mock list has ten entries. *)
Theorem generateSongs_never_empty (srv : Service) (seedSong : SeedSong)
    (moodSettings : MoodSettings float) (token : option string) :
  exists l, fst (generateSongs srv seedSong moodSettings token) = Normal l /\
            1 <= length l <= 10.
Proof.
  destruct (generateSongs_cases srv seedSong moodSettings token)
    as [E | (tok & sid & seedGenres & pool & trace & artistMap & name &
             _ & _ & Hne & E)]; rewrite E; eexists; (split; [reflexivity|]).
  - cbn. lia.
  - rewrite length_map, rank_length.
    destruct (candidateTracks pool); [congruence|cbn [length]; lia].
Qed.

(* ------------------------------------------------------------------------- *)
(* ------------------------------------------------------------------------- *)
(** ** Ties and small pools *)

Lemma rank_small_pool artistMap seedGenres moodSettings (pool : list Track) :
  length pool <= 10 ->
  Permutation (map track (rank artistMap seedGenres moodSettings pool)) pool.
Proof.
  intros Hlen. unfold rank. rewrite take_ge.
  - rewrite (Permutation_map track (Array_sort_perm _ _)), map_map.
    cbn [scoreTrack track]. rewrite map_id. reflexivity.
  - rewrite (Permutation_length (Array_sort_perm _ _)), length_map. exact Hlen.
Qed.

(** X12: when the collected pool holds between 1 and 10 candidates, every
    candidate is recommended: the identifiers of the output are those of the
    pool, reordered. *)
Theorem small_pool_all_recommended (srv : Service) (seedSong : SeedSong)
    (moodSettings : MoodSettings float) (token seedArtistId : string)
    (seedGenres : list string) (pool : Pool) (trace : list Request) :
  truthy token = true ->
  primaryArtistId (seed_artists seedSong) = Some seedArtistId ->
  collect srv seedSong seedArtistId token = (Normal (seedGenres, pool), trace) ->
  1 <= length (candidateTracks pool) <= 10 ->
  exists l,
    fst (generateSongs srv seedSong moodSettings (Some token)) = Normal l /\
    Permutation (map id l) (map track_id (candidateTracks pool)).
Proof.
  intros Htok Hid Ecollect [Hpos Hle].
  rewrite (generateSongs_live _ _ _ _ _ _ _ _ Htok Hid Ecollect)
    by (destruct (candidateTracks pool); [cbn in Hpos; lia|discriminate]).
  eexists. split; [reflexivity|].
  rewrite recommendation_ids. apply Permutation_map, rank_small_pool, Hle.
Qed.


Lemma rank_all_tied artistMap seedGenres moodSettings (pool : list Track) :
  (forall t, In t pool -> genresOf artistMap seedGenres t = seedGenres) ->
  map track (rank artistMap seedGenres moodSettings pool) = take 10 pool.
Proof.
  intros Hall. unfold rank. rewrite Array_sort_all_tied.
  - rewrite <- firstn_map, map_map. cbn [scoreTrack track]. rewrite map_id.
    reflexivity.
  - intros a b Ha Hb.
    apply in_map_iff in Ha as (ta & <- & Hta).
    apply in_map_iff in Hb as (tb & <- & Htb).
    unfold not_above, scoreTrack; cbn [moodScore].
    rewrite (Hall ta Hta), (Hall tb Htb). apply ltb_irrefl.
Qed.

(** X13: when no artist batch is answered, every candidate is scored by the
    seed artist's genres, all scores tie, and the stable sort leaves the
    candidates as collected: the output is the first ten candidates of the
    pool, in collection order. *)
Theorem unresolved_artists_keep_collection_order (srv : Service)
    (seedSong : SeedSong) (moodSettings : MoodSettings float)
    (token seedArtistId : string) (seedGenres : list string) (pool : Pool)
    (trace : list Request) :
  truthy token = true ->
  primaryArtistId (seed_artists seedSong) = Some seedArtistId ->
  collect srv seedSong seedArtistId token = (Normal (seedGenres, pool), trace) ->
  candidateTracks pool <> [] ->
  (forall tr ids, srv tr (GetArtists ids token) = Rejected) ->
  exists l,
    fst (generateSongs srv seedSong moodSettings (Some token)) = Normal l /\
    map id l = take 10 (map track_id (candidateTracks pool)).
Proof.
  intros Htok Hid Ecollect Hne Hrej.
  rewrite (generateSongs_live _ _ _ _ _ _ _ _ Htok Hid Ecollect Hne).
  eexists. split; [reflexivity|].
  rewrite recommendation_ids. unfold resolvedArtists.
  rewrite fetchArtists_all_rejected by exact Hrej.
  rewrite rank_all_tied, firstn_map; [reflexivity|].
  intros t _. unfold genresOf.
  destruct (primaryArtistId (track_artists t)); [rewrite lookup_empty|];
    reflexivity.
Qed.

(** X10 against the quiet service. *)
Lemma run_requests_witness :
  exists searches artistBatches,
    snd (generateSongs quietService exampleSeed halfMood (Some "token")) =
      [GetArtist "artist-0" "token"; GetTopTracks "artist-0" "token"] ++
      map (fun g => Search g "token") searches ++
      map (fun batch => GetArtists (String.concat "," batch) "token")
          artistBatches /\
    length searches <= 2 /\
    Forall (fun batch => 1 <= length batch <= 50) artistBatches /\
    NoDup (concat artistBatches).
Proof.
  exact (run_requests quietService exampleSeed halfMood "token" "artist-0"
           eq_refl eq_refl).
Defined.

(** X12 against the quiet service: its five candidates are all
    recommended. *)
Lemma small_pool_all_recommended_witness :
  exists seedGenres pool trace l,
    collect quietService exampleSeed "artist-0" "token" =
      (Normal (seedGenres, pool), trace) /\
    fst (generateSongs quietService exampleSeed halfMood (Some "token")) =
      Normal l /\
    Permutation (map id l) (map track_id (candidateTracks pool)).
Proof.
  destruct (collect quietService exampleSeed "artist-0" "token")
    as [[[g pool]|] trace] eqn:E; [|vm_compute in E; discriminate E].
  assert (Hlen : 1 <= length (candidateTracks pool) <= 10).
  { pose proof E as E'. vm_compute in E'. injection E' as _ Ep _.
    subst pool. vm_compute. lia. }
  destruct (small_pool_all_recommended quietService exampleSeed halfMood
              "token" "artist-0" g pool trace eq_refl eq_refl E Hlen)
    as (l & El & Hp).
  exists g, pool, trace, l. split; [reflexivity|]. split; assumption.
Defined.

(** X13 against the quiet service, which answers no artist batch. *)
Lemma unresolved_artists_keep_collection_order_witness :
  exists l,
    fst (generateSongs quietService exampleSeed halfMood (Some "token")) =
      Normal l /\
    map id l = ["track-1"; "track-2"; "track-3"; "track-4"; "track-5"].
Proof.
  destruct (collect quietService exampleSeed "artist-0" "token")
    as [[[g pool]|] trace] eqn:E; [|vm_compute in E; discriminate E].
  assert (Hpool : map track_id (candidateTracks pool) =
                  ["track-1"; "track-2"; "track-3"; "track-4"; "track-5"]).
  { pose proof E as E'. vm_compute in E'. injection E' as _ Ep _.
    subst pool. reflexivity. }
  assert (Hne : candidateTracks pool <> []).
  { intros Hnil. rewrite Hnil in Hpool. discriminate Hpool. }
  destruct (unresolved_artists_keep_collection_order quietService exampleSeed
              halfMood "token" "artist-0" g pool trace eq_refl eq_refl E Hne
              (fun _ _ => eq_refl)) as (l & El & Hids).
  exists l. split; [exact El|]. rewrite Hids, Hpool. reflexivity.
Defined.

(* ------------------------------------------------------------------------- *)
(** ** The estimator and the spelling of the genres *)

Lemma lower_ascii_idem (c : ascii) : lower_ascii (lower_ascii c) = lower_ascii c.
Proof. destruct c as [[] [] [] [] [] [] [] []]; reflexivity. Qed.

Lemma lower_head_plain (c : ascii) (s : string) :
  (c =? "196")%char = false -> (c =? "226")%char = false ->
  lower_head (String c s) = String c s.
Proof.
  intros H1 H2. destruct s as [|c1 [|c2 r]]; cbn [lower_head];
    rewrite ?H1, ?H2; reflexivity.
Qed.

(** Lowering what [lower_head] returns, at a letter already lowered and a
    rest already lowered. *)
Lemma toLowerCase_lower_head (c : ascii) (t : string) :
  lower_ascii c = c -> toLowerCase t = t ->
  toLowerCase (lower_head (String c t)) = lower_head (String c t).
Proof.
  intros Hc Ht.
  assert (Hplain : toLowerCase (String c t) = lower_head (String c t)).
  { cbn [toLowerCase]. rewrite Hc, Ht. reflexivity. }
  destruct t as [|c1 r]; [exact Hplain|].
  cbn [lower_head] in *.
  destruct ((c =? "196") && (c1 =? "176"))%char eqn:Ed.
  - apply andb_true_iff in Ed as [_ E1]. apply Ascii.eqb_eq in E1. subst c1.
    assert (Hr : toLowerCase r = r).
    { cbn [toLowerCase] in Ht. rewrite lower_head_plain in Ht by reflexivity.
      injection Ht as Ht. exact Ht. }
    cbn [toLowerCase]. rewrite Hr.
    rewrite (lower_head_plain (lower_ascii "135")) by reflexivity.
    rewrite (lower_head_plain (lower_ascii "204")) by reflexivity.
    rewrite (lower_head_plain (lower_ascii "i")) by reflexivity.
    reflexivity.
  - destruct r as [|c2 r']; [exact Hplain|].
    destruct ((c =? "226") && (c1 =? "132") && (c2 =? "170"))%char eqn:Ek;
      [|exact Hplain].
    apply andb_true_iff in Ek as [Ek E2]. apply andb_true_iff in Ek as [_ E1].
    apply Ascii.eqb_eq in E1, E2. subst c1 c2.
    assert (Hr : toLowerCase r' = r').
    { cbn [toLowerCase] in Ht.
      rewrite (lower_head_plain (lower_ascii "170")) in Ht by reflexivity.
      rewrite (lower_head_plain (lower_ascii "132")) in Ht by reflexivity.
      injection Ht as Ht. exact Ht. }
    cbn [toLowerCase]. rewrite Hr.
    rewrite (lower_head_plain (lower_ascii "k")) by reflexivity.
    reflexivity.
Qed.

Lemma toLowerCase_idem (s : string) : toLowerCase (toLowerCase s) = toLowerCase s.
Proof.
  induction s as [|c s IH]; cbn [toLowerCase]; [reflexivity|].
  apply toLowerCase_lower_head; [apply lower_ascii_idem|exact IH].
Qed.

(** X14: in either arithmetic the estimate does not depend on the case of
    the ASCII letters of the genres: two lists with the same lower-cased
    genres have the same estimate, and so has a list and its lower-cased
    form. *)
Theorem estimate_case_insensitive {N : Type} `{Number N} (gs gs' : list string) :
  map toLowerCase gs = map toLowerCase gs' ->
  estimateFeaturesFromGenres (Some gs) = estimateFeaturesFromGenres (Some gs') /\
  estimateFeaturesFromGenres (Some (map toLowerCase gs)) =
    estimateFeaturesFromGenres (Some gs).
Proof.
  intros E. rewrite !estimate_refines_spec. unfold estimate_spec, credited.
  split; [rewrite E; reflexivity|].
  rewrite map_map, (map_ext _ toLowerCase (fun g => toLowerCase_idem g)).
  reflexivity.
Qed.

(** X14 at two spellings of deep house and k-pop, in binary64. *)
Lemma estimate_case_insensitive_witness :
  estimateFeaturesFromGenres (N:=float) (Some ["Deep House"; "K-Pop"]) =
  estimateFeaturesFromGenres (N:=float) (Some ["DEEP HOUSE"; "k-pop"]).
Proof.
  apply (estimate_case_insensitive (N:=float)). reflexivity.
Defined.

(** X15: in either arithmetic a genre that matches no preset is ignored: it
    can be dropped from the list, wherever it stands, without changing the
    estimate (it neither adds to the totals nor counts in the divisor). *)
Theorem unmatched_genre_ignored {N : Type} `{Number N}
    (before after : list string) (g : string) :
  credit (N:=N) (toLowerCase g) = None ->
  estimateFeaturesFromGenres (Some (before ++ g :: after)) =
  estimateFeaturesFromGenres (Some (before ++ after)).
Proof.
  intros Hnone. rewrite !estimate_refines_spec. unfold estimate_spec, credited.
  rewrite !map_app, !omap_app. cbn [map].
  change (omap credit (toLowerCase g :: map toLowerCase after)) with
    (match credit (N:=N) (toLowerCase g) with
     | Some p => p :: omap credit (map toLowerCase after)
     | None => omap credit (map toLowerCase after)
     end).
  rewrite Hnone. reflexivity.
Qed.

(** X15 at jazz between techno and acoustic, in binary64. *)
Lemma unmatched_genre_ignored_witness :
  estimateFeaturesFromGenres (N:=float) (Some ["techno"; "jazz"; "acoustic"]) =
  estimateFeaturesFromGenres (N:=float) (Some ["techno"; "acoustic"]).
Proof.
  apply (unmatched_genre_ignored (N:=float) ["techno"] ["acoustic"] "jazz").
  reflexivity.
Defined.

(* ------------------------------------------------------------------------- *)

(* ------------------------------------------------------------------------- *)
(** ** The order of the genres, in binary64 *)

(** X16: in binary64 the estimate depends on the order of the genres: the
    sum of the credited presets is rounded at every step, and metal, folk,
    pop gives the energy 0.7166666666666668 where pop, metal, folk gives
    0.7166666666666667. *)
Theorem estimate_order_dependent :
  energy (estimateFeaturesFromGenres (N:=float)
            (Some ["metal"; "folk"; "pop"])) = 0.7166666666666668%float /\
  energy (estimateFeaturesFromGenres (N:=float)
            (Some ["pop"; "metal"; "folk"])) = 0.7166666666666667%float /\
  Permutation ["metal"; "folk"; "pop"] ["pop"; "metal"; "folk"] /\
  estimateFeaturesFromGenres (N:=float) (Some ["metal"; "folk"; "pop"]) <>
  estimateFeaturesFromGenres (N:=float) (Some ["pop"; "metal"; "folk"]).
Proof.
  split; [vm_compute; reflexivity|]. split; [vm_compute; reflexivity|].
  split.
  - apply (Permutation_app_comm ["metal"; "folk"] ["pop"]).
  - intros E. apply (f_equal energy) in E. vm_compute in E.
    discriminate E.
Qed.

(* ------------------------------------------------------------------------- *)
(** ** First match wins: a shadowed keyword *)

Lemma prefix_app_l (a b g : string) :
  String.prefix (a +:+ b) g = true -> String.prefix a g = true.
Proof.
  revert g. induction a as [|c a IH]; intros g.
  - destruct g; reflexivity.
  - change (String c a +:+ b) with (String c (a +:+ b)).
    destruct g as [|c' g]; cbn [String.prefix]; [discriminate|].
    destruct (ascii_dec c c'); [apply IH|discriminate].
Qed.

Lemma includes_app_l (a b g : string) :
  includes g (a +:+ b) = true -> includes g a = true.
Proof.
  induction g as [|c g IH]; cbn [includes]; intros E;
    apply orb_true_iff in E as [E|E].
  - apply prefix_app_l in E. rewrite E. reflexivity.
  - discriminate.
  - apply prefix_app_l in E. rewrite E. reflexivity.
  - rewrite (IH E). apply orb_true_r.
Qed.

(** X17: the first match wins, so a keyword can be shadowed: a genre that
    contains [electropop], a keyword of the pop preset, contains [electro]
    and is credited to the first preset of the table; alone in a list it is
    estimated as the genre electro is. *)
Theorem electropop_credited_to_edm {N : Type} `{Number N} (g : string) :
  includes (toLowerCase g) "electropop" = true ->
  credit (toLowerCase g) =
    Some (preset ["edm"; "electro"; "house"; "techno"; "trance"; "dubstep"]
                 0.9 0.8 0.6) /\
  estimateFeaturesFromGenres (Some [g]) =
    estimateFeaturesFromGenres (Some ["electro"]).
Proof.
  intros Hinc.
  assert (Hel : includes (toLowerCase g) "electro" = true)
    by (apply (includes_app_l "electro" "pop"), Hinc).
  assert (Hc : credit (N:=N) (toLowerCase g) =
               Some (preset ["edm"; "electro"; "house"; "techno"; "trance";
                             "dubstep"] 0.9 0.8 0.6)).
  { unfold credit, GENRE_PRESETS. cbn [List.find].
    unfold hit at 1. cbn [keywords preset existsb]. rewrite Hel.
    rewrite orb_true_r. reflexivity. }
  split; [exact Hc|].
  rewrite (estimate_refines_spec (Some [g])). unfold estimate_spec, credited.
  cbn [map]. change (omap credit [toLowerCase g]) with
    (match credit (N:=N) (toLowerCase g) with
     | Some p => [p] | None => [] end).
  rewrite Hc. reflexivity.
Qed.

(** X17 at the genre Swedish Electropop, in binary64. *)
Lemma electropop_credited_to_edm_witness :
  estimateFeaturesFromGenres (N:=float) (Some ["Swedish Electropop"]) =
  estimateFeaturesFromGenres (N:=float) (Some ["electro"]).
Proof.
  exact (proj2 (electropop_credited_to_edm (N:=float) "Swedish Electropop"
                  eq_refl)).
Defined.

(* ------------------------------------------------------------------------- *)

(* ------------------------------------------------------------------------- *)
(** ** The estimate and the values of the table *)

(** X18: in binary64 the mean of equal values can leave them: three times
    pop gives the valence 0.8000000000000002, above the valence 0.8 of pop,
    the greatest valence of the table, and seven times metal the energy
    0.9500000000000001, above the energy 0.95 of metal, the greatest energy
    of the table. *)
Theorem estimate_leaves_table :
  valence (estimateFeaturesFromGenres (N:=float)
             (Some ["pop"; "pop"; "pop"])) = 0.8000000000000002%float /\
  energy (estimateFeaturesFromGenres (N:=float)
            (Some (repeat "metal" 7))) = 0.9500000000000001%float /\
  Forall (fun p : Preset float =>
            (preset_valence p <=? 0.8)%float = true /\
            (preset_energy p <=? 0.95)%float = true)
         (GENRE_PRESETS (N:=float)).
Proof.
  split; [vm_compute; reflexivity|]. split; [vm_compute; reflexivity|].
  unfold GENRE_PRESETS, preset.
  repeat constructor; vm_compute; reflexivity.
Qed.

(* ------------------------------------------------------------------------- *)
(** ** The mood score is not a distance *)

Lemma SFltb_ge_0 r : SFge_Q r 0 -> SFltb r (S754_zero false) = false.
Proof.
  destruct r as [s|[]| |[] m e]; cbn [SFge_Q SF2Q signed]; intros H;
    try reflexivity; try discriminate; try contradiction.
  exfalso. pose proof (F2Q_neg m e). pose proof (F2Q_pos_pos m e). lra.
Qed.

Lemma SFabs_sub_ge_0 x y :
  valid_binary x = true -> valid_binary y = true ->
  SFis_nan (SFabs (SF64sub x y)) = true \/ SFge_Q (SFabs (SF64sub x y)) 0.
Proof.
  intros Vx Vy. destruct (SFis_nan (SFabs (SF64sub x y))) eqn:E;
    [left; reflexivity|right].
  apply SFabs_ge_0. rewrite SFabs_nan in E. exact E.
Qed.

(** X19: in binary64 the mood score is never negative, whatever the two
    triples hold, but it is no distance: at the energies 0, 0.1 and 0.45
    the score from the first to the third, 0.45, is above the sum
    0.44999999999999996 of the scores by way of the second. *)
Theorem calculateMoodScore_no_distance :
  (forall a b : Features float,
      (calculateMoodScore a b <? 0)%float = false) /\
  let f := fun x : float => mkFeatures x 0%float 0%float in
  calculateMoodScore (f 0%float) (f 0.45%float) = 0.45%float /\
  (calculateMoodScore (f 0%float) (f 0.1%float) +
   calculateMoodScore (f 0.1%float) (f 0.45%float))%float
    = 0.44999999999999996%float /\
  (calculateMoodScore (f 0%float) (f 0.1%float) +
   calculateMoodScore (f 0.1%float) (f 0.45%float)
     <? calculateMoodScore (f 0%float) (f 0.45%float))%float = true.
Proof.
  split; [|repeat split; vm_compute; reflexivity].
  intros a b. unfold calculateMoodScore.
  cbn [num_sub num_add num_abs binary64_Number].
  set (d1 := abs (energy a - energy b)).
  set (d2 := abs (danceability a - danceability b)).
  set (d3 := abs (valence a - valence b)).
  assert (D : forall x y : float,
             SFis_nan (Prim2SF (abs (x - y))) = true \/
             SFge_Q (Prim2SF (abs (x - y))) 0).
  { intros x y. rewrite FloatAxioms.abs_spec, FloatAxioms.sub_spec.
    apply SFabs_sub_ge_0; apply Prim2SF_valid. }
  assert (N : forall z : float, SFis_nan (Prim2SF z) = true ->
                                (z <? 0)%float = false).
  { intros z Hz. apply ltb_nan_l. rewrite is_nan_spec. exact Hz. }
  destruct (D (energy a) (energy b)) as [H1|H1]; fold d1 in H1;
    [apply N, add_nan; left; apply add_nan; left; exact H1|].
  destruct (D (danceability a) (danceability b)) as [H2|H2]; fold d2 in H2;
    [apply N, add_nan; left; apply add_nan; right; exact H2|].
  destruct (D (valence a) (valence b)) as [H3|H3]; fold d3 in H3;
    [apply N, add_nan; right; exact H3|].
  rewrite FloatAxioms.ltb_spec. apply SFltb_ge_0.
  apply add_ge; [apply representable_0|apply Qle_refl| |exact H3].
  apply add_ge; [apply representable_0|apply Qle_refl|exact H1|exact H2].
Qed.

(* ------------------------------------------------------------------------- *)
(** ** The range of the mock percentages *)

Lemma mock_percent_range (x k : float) (hi : Z) :
  in_unit x -> Binary64.finite k = true ->
  (0 <= Binary64.value k)%Q -> (Binary64.value k <= inject_Z hi)%Q ->
  (0 <= hi <= 2 ^ 53)%Z ->
  (0 <=? Math_round (x * k))%float = true /\
  (Math_round (x * k) <=? Binary64.of_Z hi)%float = true.
Proof.
  intros Hx Fk K0 K1 Hhi. apply in_unit_value in Hx as (Fx & X0 & X1).
  destruct zero_one_values as (F0 & V0 & _ & _).
  destruct (of_Z_value hi ltac:(lia)) as [Fh Vh].
  destruct (sandwich_Z _ _ 0 hi (mul_rounds x k Fx Fk)
              ltac:(lia) ltac:(lia)) as (Fw & W0 & W1).
  { change (inject_Z 0) with 0%Q. nra. }
  { nra. }
  destruct (Math_round_range _ 0 hi Fw W0 W1) as (Fr & R0 & R1).
  change (inject_Z 0) with 0%Q in R0. split.
  - apply (leb_value _ _ F0 Fr). lra.
  - apply (leb_value _ _ Fr Fh). lra.
Qed.

(** X21: with mood settings in the unit cube no percentage of the mock list
    is negative, the energy percentages are at most 110 and the danceability
    and valence percentages at most 100. *)
Theorem mock_percentages_range (seedSong : SeedSong)
    (moodSettings : MoodSettings float) :
  in_unit_cube moodSettings ->
  map reason (generateMockSongs seedSong moodSettings) =
    map (fun k => mockReason (mockPercents moodSettings k)) mockMultipliers /\
  Forall (fun k => let '(e, d, v) := mockPercents moodSettings k in
            ((0 <=? e)%float = true /\ (e <=? 110)%float = true) /\
            percent d /\ percent v)
         mockMultipliers.
Proof.
  intros (He & Hd & Hv). split; [reflexivity|].
  unfold mockMultipliers.
  repeat (constructor;
          [cbn [mockPercents]; split; [|split];
           [apply (mock_percent_range _ _ 110 He)
           |apply (mock_percent_range _ _ 100 Hd)
           |apply (mock_percent_range _ _ 100 Hv)];
           first [reflexivity | lia | vm_compute; discriminate]|]).
  constructor.
Qed.

(** X21 at the mood (0.5, 0.5, 0.5). *)
Lemma mock_percentages_range_witness :
  map reason (generateMockSongs exampleSeed halfMood) =
  map (fun k => mockReason (mockPercents halfMood k)) mockMultipliers.
Proof.
  exact (proj1 (mock_percentages_range exampleSeed halfMood halfMood_in_unit)).
Defined.

(* ------------------------------------------------------------------------- *)
(** ** What the mood settings do not reach *)



